(** * Marker clustering of the interactive map

    A shallow embedding of [createClusters]
    (src/components/common/MapWithClustering.tsx) and the properties of
    the grouping it computes.

    Numbers.  JavaScript numbers are idealised as exact rationals [Q]:
    latitudes, longitudes, pixel coordinates and the pixel threshold.
    Rounding of IEEE doubles is not modelled.  The Euclidean distance of
    two pixel positions is a square root, so it lives in [R]; the test
    [distance <= clusterDistance] of the source is decided on rationals
    by [distance_le], and [distance_le_spec] ties it to the square root.

    Effects.  The body of [createClusters] mutates three local objects
    (the array [clusters], the set [processed], the array
    [nearbyLocations]), builds [result], and calls into the map, which
    may throw.  They are threaded through a small state-and-exception
    monad [M]; the trace of projection calls is kept in the store as
    well, so that "the projection is not invoked" can be stated.

    Objects.  The input array, the [Location] objects and the arrays
    and the set of the body are objects that the caller and the result
    refer to.  A second embedding of the same lines, [Heap], passes
    references into a heap; it is proved to go the way of the first,
    and it is where "a call writes to no object it found" is stated. *)

From Stdlib Require Import QArith Qminmax Qreals Reals Psatz.
From Stdlib Require Import Sorted.
From stdpp Require Import base gmap strings list.

#[local] Set Warnings "-clear-no-such-hyp".
Local Open Scope Q_scope.

(** ** Leaflet values used by the component *)

Module Leaflet.

(** [L.Point]: a pixel position in the map container. *)
Record Point := { x : Q; y : Q }.

(** [L.LatLng]. *)
Record LatLng := { lat : Q; lng : Q }.

(** A JavaScript exception, carrying its message. *)
Inductive exn := Error (message : string).

(** [L.Map], as far as [createClusters] uses it: the projection
    [latLngToContainerPoint] of the current viewport, which may throw. *)
Record Map := { latLngToContainerPoint : LatLng -> exn + Point }.

(** Modelled from the spec: [Point.distanceTo] is Leaflet's; the spec
    calls it the "screen-space Euclidean distance".  This is its
    square, [dx*dx + dy*dy]. *)
Definition distance2 (p q : Point) : Q :=
  (x q - x p) * (x q - x p) + (y q - y p) * (y q - y p).

(** Modelled from the spec: [p.distanceTo(q)], the Euclidean distance
    [Math.sqrt(dx*dx + dy*dy)]. *)
Definition distanceTo (p q : Point) : R := sqrt (Q2R (distance2 p q)).

(** Decides [p.distanceTo(q) <= t] without leaving the rationals. *)
Definition distance_le (p q : Point) (t : Q) : bool :=
  Qle_bool 0 t && Qle_bool (distance2 p q) (t * t).

(** Modelled from the spec: [L.LatLngBounds] is Leaflet's and not part
    of the sources; the spec gives the extent of a cluster as "the
    min/max latitude and longitude over members".  The corners are
    absent until the first point is added. *)
Record LatLngBounds := { _southWest : option LatLng; _northEast : option LatLng }.

(** Modelled from the spec: [bounds.extend(p)] keeps the least and the
    greatest latitude and longitude seen. *)
Definition extend (b : LatLngBounds) (p : LatLng) : LatLngBounds :=
  match _southWest b, _northEast b with
  | Some sw, Some ne =>
      {| _southWest := Some {| lat := Qmin (lat p) (lat sw); lng := Qmin (lng p) (lng sw) |};
         _northEast := Some {| lat := Qmax (lat p) (lat ne); lng := Qmax (lng p) (lng ne) |} |}
  | _, _ => {| _southWest := Some p; _northEast := Some p |}
  end.

(** Modelled from the spec: [new L.LatLngBounds(latlngs)] extends the
    empty bounds by every point in turn. *)
Definition newLatLngBounds (latlngs : list LatLng) : LatLngBounds :=
  fold_left extend latlngs {| _southWest := None; _northEast := None |}.

(** Modelled from the spec: [getCenter] is Leaflet's; the spec gives
    the centroid as "the midpoint of that bounding extent".  Reading a
    corner of empty bounds is a [TypeError]. *)
Definition getCenter (b : LatLngBounds) : exn + LatLng :=
  match _southWest b, _northEast b with
  | Some sw, Some ne =>
      inr {| lat := (lat sw + lat ne) / 2; lng := (lng sw + lng ne) / 2 |}
  | _, _ => inl (Error "TypeError")
  end.

End Leaflet.
Import Leaflet.

(** ** Data of the application (src/types/index.ts) *)

Record Coordinates := { latitude : Q; longitude : Q }.

(** [Location]; the clustering reads [id] and [coordinates] only, the
    remaining attributes are carried along ([name] stands for them). *)
Record Location := {
  id : string;
  name : string;
  coordinates : Coordinates
}.

(** [interface ClusterGroup]. *)
Record ClusterGroup := {
  center : Q * Q;
  locations : list Location;
  bounds : LatLngBounds
}.

(** An element of [(ClusterGroup | Location)[]]. *)
Inductive Item :=
| ItemCluster (c : ClusterGroup)
| ItemLocation (l : Location).

(** The argument [[loc.coordinates.latitude, loc.coordinates.longitude]]. *)
Definition latLng (loc : Location) : LatLng :=
  {| lat := latitude (coordinates loc); lng := longitude (coordinates loc) |}.

(** ** The store and the monad *)

Record Store := {
  clusters : list ClusterGroup;
  processed : gset string;
  nearbyLocations : list Location;
  result : list Item;
  calls : list LatLng     (* arguments of the projection, oldest first *)
}.

Definition init : Store :=
  {| clusters := []; processed := ∅; nearbyLocations := []; result := []; calls := [] |}.

Definition M (A : Type) : Type := Store -> (exn + A) * Store.

Definition ret {A} (a : A) : M A := fun s => (inr a, s).

Definition bind {A B} (m : M A) (k : A -> M B) : M B :=
  fun s => match m s with
           | (inl e, s') => (inl e, s')
           | (inr a, s') => k a s'
           end.

Declare Scope m_scope.
Delimit Scope m_scope with M.
Notation "'let*' v := m 'in' k" := (bind m (fun v => k))
  (at level 10, v name, m at level 100, k at level 200, only parsing) : m_scope.
Notation "m ;; k" := (bind m (fun _ => k))
  (at level 100, k at level 200, right associativity, only parsing) : m_scope.

(** [xs.forEach(callback)]. *)
Fixpoint forEach {A} (xs : list A) (callback : A -> M unit) : M unit :=
  match xs with
  | [] => ret tt
  | v :: rest => bind (callback v) (fun _ => forEach rest callback)
  end.

(** [const clusters: ClusterGroup[] = []] *)
Definition clusters_new : M unit :=
  fun s => (inr tt,
            {| clusters := []; processed := processed s;
               nearbyLocations := nearbyLocations s; result := result s;
               calls := calls s |}).

(** [const processed = new Set<string>()] *)
Definition processed_new : M unit :=
  fun s => (inr tt,
            {| clusters := clusters s; processed := ∅;
               nearbyLocations := nearbyLocations s; result := result s;
               calls := calls s |}).

(** [processed.has(i)] *)
Definition processed_has (i : string) : M bool :=
  fun s => (inr (bool_decide (i ∈ processed s)), s).

(** [processed.add(i)] *)
Definition processed_add (i : string) : M unit :=
  fun s => (inr tt,
            {| clusters := clusters s; processed := {[ i ]} ∪ processed s;
               nearbyLocations := nearbyLocations s; result := result s;
               calls := calls s |}).

(** [const nearbyLocations = [location]] *)
Definition nearbyLocations_new (l : list Location) : M unit :=
  fun s => (inr tt,
            {| clusters := clusters s; processed := processed s;
               nearbyLocations := l; result := result s; calls := calls s |}).

(** [nearbyLocations.push(loc)] *)
Definition nearbyLocations_push (loc : Location) : M unit :=
  fun s => (inr tt,
            {| clusters := clusters s; processed := processed s;
               nearbyLocations := nearbyLocations s ++ [loc];
               result := result s; calls := calls s |}).

Definition nearbyLocations_get : M (list Location) :=
  fun s => (inr (nearbyLocations s), s).

(** [clusters.push(c)] *)
Definition clusters_push (c : ClusterGroup) : M unit :=
  fun s => (inr tt,
            {| clusters := clusters s ++ [c]; processed := processed s;
               nearbyLocations := nearbyLocations s; result := result s;
               calls := calls s |}).

(** [const result = [...clusters]] *)
Definition result_new : M unit :=
  fun s => (inr tt,
            {| clusters := clusters s; processed := processed s;
               nearbyLocations := nearbyLocations s;
               result := ItemCluster <$> clusters s; calls := calls s |}).

(** [result.push(location)] *)
Definition result_push (loc : Location) : M unit :=
  fun s => (inr tt,
            {| clusters := clusters s; processed := processed s;
               nearbyLocations := nearbyLocations s;
               result := result s ++ [ItemLocation loc]; calls := calls s |}).

Definition result_get : M (list Item) :=
  fun s => (inr (result s), s).

(** [throw e], and the lifting of a Leaflet call that may throw. *)
Definition liftE {A} (r : exn + A) : M A := fun s => (r, s).

(** [map.latLngToContainerPoint(ll)]; the call is recorded. *)
Definition project (map : Map) (ll : LatLng) : M Point :=
  fun s => (latLngToContainerPoint map ll,
            {| clusters := clusters s; processed := processed s;
               nearbyLocations := nearbyLocations s; result := result s;
               calls := calls s ++ [ll] |}).

(** ** createClusters *)

Local Open Scope m_scope.

(** Lines 65-75: the callback of the inner [forEach]. *)
Definition scanStep (map : Map) (locationPoint : Point) (clusterDistance : Q)
    (otherLocation : Location) : M unit :=
  let* seen := processed_has (id otherLocation) in
  if seen then ret tt else
  let* otherPoint := project map (latLng otherLocation) in
  if distance_le locationPoint otherPoint clusterDistance then
    nearbyLocations_push otherLocation ;;
    processed_add (id otherLocation)
  else ret tt.

(** Lines 79-85: the cluster built from [nearbyLocations]. *)
Definition newCluster (nearby : list Location) : M ClusterGroup :=
  let bounds := newLatLngBounds (latLng <$> nearby) in
  let* center := liftE (getCenter bounds) in
  ret {| center := (lat center, lng center); locations := nearby; bounds := bounds |}.

(** Lines 77-86: a group of more than one member becomes a cluster. *)
Definition closeGroup : M unit :=
  let* nearby := nearbyLocations_get in
  if (1 <? length nearby)%nat then
    let* c := newCluster nearby in
    clusters_push c
  else ret tt.

(** Lines 57-87: the callback of the outer [forEach]. *)
Definition seedStep (locations : list Location) (map : Map) (clusterDistance : Q)
    (location : Location) : M unit :=
  let* seen := processed_has (id location) in
  if seen then ret tt else
  let* locationPoint := project map (latLng location) in
  nearbyLocations_new [location] ;;
  processed_add (id location) ;;
  forEach locations (scanStep map locationPoint clusterDistance) ;;
  closeGroup.

(** Lines 91-95: the callback of the last [forEach]. *)
Definition emitStep (location : Location) : M unit :=
  let* seen := processed_has (id location) in
  if negb seen then result_push location else ret tt.

Definition createClusters (locations : list Location) (map : option Map)
    (clusterDistance : Q) : M (list Item) :=
  match map with
  | None => ret (ItemLocation <$> locations)
  | Some map =>
      if (length locations =? 0)%nat then ret (ItemLocation <$> locations) else
      clusters_new ;;
      processed_new ;;
      forEach locations (seedStep locations map clusterDistance) ;;
      result_new ;;
      forEach locations emitStep ;;
      result_get
  end.

(** One call, observed from an empty trace. *)
Definition run {A} (m : M A) : (exn + A) * Store := m init.

(** ** Test data *)

Definition loc (i : string) (la lo : Q) : Location :=
  {| id := i; name := i; coordinates := {| latitude := la; longitude := lo |} |}.

(** A viewport whose projection puts longitude on the x axis and
    latitude on the y axis, one pixel per degree. *)
Definition flatMap : Map :=
  {| latLngToContainerPoint := fun ll => inr {| x := lng ll; y := lat ll |} |}.

(** The cluster of two points at (10, 10) and (20, 30), as
    [createClusters] builds it. *)
Definition sampleCluster : ClusterGroup :=
  {| center := ((10 + 20) / 2, (10 + 30) / 2);
     locations := [loc "A" 10 10; loc "B" 20 30];
     bounds := {| _southWest := Some {| lat := 10; lng := 10 |};
                  _northEast := Some {| lat := 20; lng := 30 |} |} |}.

(** The result for two pairs of neighbours far from each other. *)
Definition sampleItems : list Item :=
  Eval vm_compute in
    match fst (run (createClusters
                      [loc "A" 0 0; loc "B" 0 10; loc "C" 0 200; loc "D" 0 210]
                      (Some flatMap) 50)) with
    | inr items => items
    | inl _ => []
    end.

(** A store as an earlier call may have left it. *)
Definition usedStore : Store :=
  {| clusters := [sampleCluster]; processed := {[ "A"; "Z" ]};
     nearbyLocations := [loc "Z" 1 1]; result := [ItemLocation (loc "Z" 1 1)];
     calls := [{| lat := 1; lng := 1 |}] |}.

(** ** Notions used in the statements *)

(** [o] is projected by the viewport to the pixel position [q]. *)
Definition projects_to (map : Map) (o : Location) (q : Point) : Prop :=
  latLngToContainerPoint map (latLng o) = inr q.

(** The identifiers of the members of a list of clusters. *)
Definition memberIds (cs : list ClusterGroup) : list string :=
  id <$> concat (locations <$> cs).

(** What [seedStep] pushes: a seed of the input, followed by at least
    one other input location within [clusterDistance] of the seed on
    screen, with the bounds of the members and their centre. *)
Definition cluster_ok (locs : list Location) (map : Map) (clusterDistance : Q)
    (c : ClusterGroup) : Prop :=
  exists seed others pt ctr,
    locations c = seed :: others /\ others <> [] /\
    seed ∈ locs /\ projects_to map seed pt /\
    (forall o, o ∈ others ->
       o ∈ locs /\
       exists q, projects_to map o q /\ distance_le pt q clusterDistance = true) /\
    bounds c = newLatLngBounds (latLng <$> locations c) /\
    getCenter (bounds c) = inr ctr /\
    center c = (lat ctr, lng ctr).

(** How the store moves while seeds are processed: [result] is not
    touched, [processed] grows, and [clusters] gains well-formed
    clusters whose members were unprocessed before and are processed
    afterwards, no identifier twice. *)
Definition grows (locs : list Location) (map : Map) (clusterDistance : Q)
    (s s' : Store) : Prop :=
  result s' = result s /\
  processed s ⊆ processed s' /\
  exists new,
    clusters s' = clusters s ++ new /\
    Forall (cluster_ok locs map clusterDistance) new /\
    NoDup (memberIds new) /\
    forall i, i ∈ memberIds new -> (i ∉ processed s) /\ i ∈ processed s'.

(** The clusters and the individual locations among the items of a
    result, and the input points a result accounts for. *)
Definition clustersOf (items : list Item) : list ClusterGroup :=
  omap (fun it => match it with ItemCluster c => Some c | ItemLocation _ => None end) items.

Definition singletonsOf (items : list Item) : list Location :=
  omap (fun it => match it with ItemLocation l => Some l | ItemCluster _ => None end) items.

Definition covered (items : list Item) : list Location :=
  concat (locations <$> clustersOf items) ++ singletonsOf items.

(** [m] is the least (greatest) of the values [vs]. *)
Definition lowest (m : Q) (vs : list Q) : Prop :=
  (forall v, v ∈ vs -> m <= v) /\ exists v, v ∈ vs /\ v == m.

Definition highest (m : Q) (vs : list Q) : Prop :=
  (forall v, v ∈ vs -> v <= m) /\ exists v, v ∈ vs /\ v == m.

Definition latitudes (ls : list Location) : list Q := (fun l => latitude (coordinates l)) <$> ls.
Definition longitudes (ls : list Location) : list Q := (fun l => longitude (coordinates l)) <$> ls.

(** The mean of a list of values. *)
Definition arithmeticMean (vs : list Q) : Q :=
  fold_right Qplus 0 vs / inject_Z (Z.of_nat (length vs)).

(** The corners kept by [extend] are the extremes of the points seen. *)
Definition cornersOf (sw ne : LatLng) (ps : list LatLng) : Prop :=
  lowest (lat sw) (lat <$> ps) /\ highest (lat ne) (lat <$> ps) /\
  lowest (lng sw) (lng <$> ps) /\ highest (lng ne) (lng <$> ps).

(** Two runs of a computation from stores related by [R] return the
    same value (or throw the same exception) and end in stores related
    by [R']. *)
Definition respects {A} (R R' : Store -> Store -> Prop) (m : M A) : Prop :=
  forall s s', R s s' -> fst (m s) = fst (m s') /\ R' (snd (m s)) (snd (m s')).

(** Stores that agree on the locals a seed reads ([sameSeen]), on those
    a scan reads ([sameGroup]), on those the last loop reads
    ([sameResult]).  The trace of projection calls is never read. *)
Definition sameSeen (s s' : Store) : Prop :=
  clusters s = clusters s' /\ processed s = processed s'.

Definition sameGroup (s s' : Store) : Prop :=
  sameSeen s s' /\ nearbyLocations s = nearbyLocations s'.

Definition sameResult (s s' : Store) : Prop :=
  sameSeen s s' /\ result s = result s'.

(** A computation only appends to the trace of projection calls. *)
Definition extends {A} (m : M A) : Prop :=
  forall s, calls s `prefix_of` calls (snd (m s)).

(** ** The component around [createClusters] *)

(** Lines 147-154: the effect of [MapWithClustering] that recomputes
    the state [clusters]; the value is what [setClusters] receives. *)
Definition updateClusters (mapRef : option Map) (locations : list Location)
    (clusterDistance : Q) : M (list Item) :=
  match mapRef with
  | Some current =>
      if (0 <? length locations)%nat
      then createClusters locations (Some current) clusterDistance
      else ret (ItemLocation <$> locations)
  | None => ret (ItemLocation <$> locations)
  end.

(** Lines 100-106: the number [ClusterMarker] prints on its icon,
    [cluster.locations.length]. *)
Definition badge (cluster : ClusterGroup) : nat := length (locations cluster).

(** What a part of the run adds to the trace: projections of locations
    of [xs], at most [n] of them. *)
Definition adds (xs : list Location) (n : nat) (s s' : Store) : Prop :=
  exists extra,
    calls s' = calls s ++ extra /\
    (forall ll, ll ∈ extra -> exists o, o ∈ xs /\ ll = latLng o) /\
    (length extra <= n)%nat.

(** ** The map with its search controls
       (src/components/location/LocationMap.tsx) *)

(** A [Location] together with the attributes that the search reads
    beside [id], [name] and [coordinates]. *)
Record LocationDetails := {
  base : Location;
  description : string;
  specialtyDescription : string;
  category : string;
  averageRating : Q;
  createdAt : Z       (* [new Date(createdAt).getTime()] *)
}.

Inductive SortBy := relevance | rating | recency.

Module Filters.
(** [interface SearchFilters]; an absent field is [None]. *)
Record SearchFilters := {
  query : option string;
  category : option string;
  region : option string;
  minRating : option Q;
  sortBy : option SortBy
}.
End Filters.

(** The state [mapCenter], [mapZoom] of the component. *)
Record MapView := { mapCenter : Q * Q; mapZoom : Z }.

(** What [if (v)] lets through: a string that is present and not
    empty, a number that is present and not zero. *)
Definition truthyString (v : option string) : option string :=
  match v with
  | Some s => if String.eqb s "" then None else Some s
  | None => None
  end.

Definition truthyNumber (v : option Q) : option Q :=
  match v with
  | Some r => if Qeq_bool r 0 then None else Some r
  | None => None
  end.

(** [s.includes(sub)]: [sub] starts at some position of [s]. *)
Fixpoint includes (s sub : string) : bool :=
  String.prefix sub s
  || match s with
     | EmptyString => false
     | String _ rest => includes rest sub
     end.

(** [xs.sort(compareFn)].  The sort of an array is stable, and for a
    comparator that orders by a numeric key its result is the one
    stable sorted arrangement; inserting from the right computes it. *)
Fixpoint sortInsert {A} (compareFn : A -> A -> Q) (v : A) (sorted : list A) : list A :=
  match sorted with
  | [] => [v]
  | w :: rest =>
      if Qle_bool (compareFn v w) 0 then v :: w :: rest
      else w :: sortInsert compareFn v rest
  end.

Definition Array_sort {A} (compareFn : A -> A -> Q) (xs : list A) : list A :=
  fold_right (sortInsert compareFn) [] xs.

(** [Math.min(v, ...vs)] and [Math.max(v, ...vs)]. *)
Definition Math_min (v : Q) (vs : list Q) : Q := fold_left Qmin vs v.
Definition Math_max (v : Q) (vs : list Q) : Q := fold_left Qmax vs v.

(** Lines 68 and 71: the comparators of the two sort orders. *)
Definition byRating (a b : LocationDetails) : Q := averageRating b - averageRating a.

Definition byRecency (a b : LocationDetails) : Q :=
  inject_Z (createdAt b) - inject_Z (createdAt a).

Section Search.
(** [String.prototype.toLowerCase]. *)
Variable toLowerCase : string -> string.

(** Lines 49-53: the test of the text filter. *)
Definition matchesQuery (query : string) (location : LocationDetails) : bool :=
  includes (toLowerCase (name (base location))) query
  || includes (toLowerCase (description location)) query
  || includes (toLowerCase (specialtyDescription location)) query.

(** Lines 44-81: the effect that computes [filteredLocations]. *)
Definition filterLocations (locations : list LocationDetails)
    (searchFilters : Filters.SearchFilters) : list LocationDetails :=
  let filtered := locations in
  let filtered :=
    match truthyString (Filters.query searchFilters) with
    | Some q => List.filter (matchesQuery (toLowerCase q)) filtered
    | None => filtered
    end in
  let filtered :=
    match truthyString (Filters.category searchFilters) with
    | Some c => List.filter (fun location => String.eqb (category location) c) filtered
    | None => filtered
    end in
  let filtered :=
    match truthyNumber (Filters.minRating searchFilters) with
    | Some r => List.filter (fun location => Qle_bool r (averageRating location)) filtered
    | None => filtered
    end in
  match Filters.sortBy searchFilters with
  | Some rating => Array_sort byRating filtered
  | Some recency => Array_sort byRecency filtered
  | Some relevance | None => filtered
  end.
End Search.

(** A location passes every filter that is switched on. *)
Definition passes (toLowerCase : string -> string)
    (searchFilters : Filters.SearchFilters) (location : LocationDetails) : bool :=
  match truthyString (Filters.query searchFilters) with
  | Some q => matchesQuery toLowerCase (toLowerCase q) location
  | None => true
  end
  && match truthyString (Filters.category searchFilters) with
     | Some c => String.eqb (category location) c
     | None => true
     end
  && match truthyNumber (Filters.minRating searchFilters) with
     | Some r => Qle_bool r (averageRating location)
     | None => true
     end.

(** The key by which a sort order compares, if it sorts at all. *)
Definition sortKey (order : option SortBy) : option (LocationDetails -> Q) :=
  match order with
  | Some rating => Some averageRating
  | Some recency => Some (fun l => inject_Z (createdAt l))
  | Some relevance | None => None
  end.

(** The comparator that puts the greater key first. *)
Definition byKey {A} (key : A -> Q) (a b : A) : Q := key b - key a.

(** Greatest key first. *)
Definition descending {A} (key : A -> Q) (xs : list A) : Prop :=
  StronglySorted (fun a b => key b <= key a) xs.

(** The elements of [xs] whose key is [r], in the order of [xs]. *)
Definition withKey {A} (key : A -> Q) (r : Q) (xs : list A) : list A :=
  List.filter (fun v => Qeq_bool (key v) r) xs.

(** Lines 145-163: [fitToLocations], as the view it leaves. *)
Definition fitToLocations (filteredLocations : list LocationDetails)
    (view : MapView) : MapView :=
  match filteredLocations with
  | [] => view
  | [location] =>
      {| mapCenter := (latitude (coordinates (base location)),
                       longitude (coordinates (base location)));
         mapZoom := 15 |}
  | first :: others =>
      let lat0 := latitude (coordinates (base first)) in
      let lng0 := longitude (coordinates (base first)) in
      let lats := (fun l => latitude (coordinates (base l))) <$> others in
      let lngs := (fun l => longitude (coordinates (base l))) <$> others in
      let centerLat := (Math_min lat0 lats + Math_max lat0 lats) / 2 in
      let centerLng := (Math_min lng0 lngs + Math_max lng0 lngs) / 2 in
      {| mapCenter := (centerLat, centerLng); mapZoom := 10 |}
  end.

(** Lines 118-142: the filters the change handlers pass to
    [onFiltersChange]. *)
Definition handleSearchChange (searchFilters : Filters.SearchFilters) (query : string)
    : Filters.SearchFilters :=
  {| Filters.query := Some query; Filters.category := Filters.category searchFilters;
     Filters.region := Filters.region searchFilters; Filters.minRating := Filters.minRating searchFilters;
     Filters.sortBy := Filters.sortBy searchFilters |}.

Definition handleCategoryChange (searchFilters : Filters.SearchFilters) (category : string)
    : Filters.SearchFilters :=
  {| Filters.query := Filters.query searchFilters;
     Filters.category := if String.eqb category "all" then None else Some category;
     Filters.region := Filters.region searchFilters; Filters.minRating := Filters.minRating searchFilters;
     Filters.sortBy := Filters.sortBy searchFilters |}.

Definition handleRatingChange (searchFilters : Filters.SearchFilters) (minRating : Q)
    : Filters.SearchFilters :=
  {| Filters.query := Filters.query searchFilters; Filters.category := Filters.category searchFilters;
     Filters.region := Filters.region searchFilters;
     Filters.minRating := if Qeq_bool minRating 0 then None else Some minRating;
     Filters.sortBy := Filters.sortBy searchFilters |}.

(** Lines 174, 182, 198: what the three controls display. *)
Definition queryValue (searchFilters : Filters.SearchFilters) : string :=
  default "" (truthyString (Filters.query searchFilters)).

Definition categoryValue (searchFilters : Filters.SearchFilters) : string :=
  default "all" (truthyString (Filters.category searchFilters)).

Definition ratingValue (searchFilters : Filters.SearchFilters) : Q :=
  default 0 (truthyNumber (Filters.minRating searchFilters)).

(** ** Test data for the search *)

(** Lower case for the letters A to Z, other characters unchanged. *)
Definition lowerAscii (c : Ascii.ascii) : Ascii.ascii :=
  let n := Ascii.nat_of_ascii c in
  if ((65 <=? n) && (n <=? 90))%nat then Ascii.ascii_of_nat (n + 32) else c.

Fixpoint lowerCase (s : string) : string :=
  match s with
  | EmptyString => EmptyString
  | String c rest => String (lowerAscii c) (lowerCase rest)
  end.

Definition details (l : Location) (text kind : string) (stars : Q) (created : Z)
    : LocationDetails :=
  {| base := l; description := text; specialtyDescription := text;
     category := kind; averageRating := stars; createdAt := created |}.

Definition sampleDetails : list LocationDetails :=
  [ details (loc "C" 50 60) "Gallery" "art" 5 300;
    details (loc "B" 20 30) "Noodles and other FOOD" "food" 4 200;
    details (loc "A" 10 10) "Street Food market" "food" (9 # 2) 100 ].

(** Category "food", best rated first. *)
Definition sampleFilters : Filters.SearchFilters :=
  {| Filters.query := Some "FOOD"; Filters.category := Some "food";
     Filters.region := None; Filters.minRating := Some 0;
     Filters.sortBy := Some rating |}.

Definition sampleView : MapView := {| mapCenter := (20.5937, 78.9629); mapZoom := 5 |}.

(** The result for two locations on one pixel. *)
Definition colocatedItems : list Item :=
  Eval vm_compute in
    match fst (run (createClusters [loc "A" 0 0; loc "B" 0 0] (Some flatMap) 50)) with
    | inr items => items
    | inl _ => []
    end.

(** Three locations in a row, the second within range of the first
    and the third within range of the second only: the cluster that
    [createClusters] builds, and the result. *)
Definition gapCluster : ClusterGroup :=
  {| center := ((0 + 0) / 2, (0 + 10) / 2);
     locations := [loc "S" 0 0; loc "P" 0 10];
     bounds := {| _southWest := Some {| lat := 0; lng := 0 |};
                  _northEast := Some {| lat := 0; lng := 10 |} |} |}.

Definition gapItems : list Item := [ItemCluster gapCluster].

(** The result for a location exactly 10 pixels from the first one and
    a location 11 pixels from it, threshold 10. *)
Definition boundaryItems : list Item :=
  Eval vm_compute in
    match fst (run (createClusters [loc "A" 0 0; loc "B" 0 10; loc "C" 0 11]
                      (Some flatMap) 10)) with
    | inr items => items
    | inl _ => []
    end.

(** Two locations are processed together or not at all, and once
    processed they are members of one cluster. *)
Definition together (a b : Location) (s : Store) : Prop :=
  (id a ∈ processed s <-> id b ∈ processed s) /\
  (id a ∈ processed s ->
   exists c, c ∈ clusters s /\ a ∈ locations c /\ b ∈ locations c).

(** [x] is a member of a cluster of [cs], and not its first member:
    it was taken into the group of another location. *)
Definition follows (cs : list ClusterGroup) (x : Location) : Prop :=
  exists c h rest, c ∈ cs /\ locations c = h :: rest /\ x ∈ rest.

(** [y] is a member of a cluster of [cs] whose first member is [x]. *)
Definition leads (cs : list ClusterGroup) (x y : Location) : Prop :=
  exists c, c ∈ cs /\ head (locations c) = Some x /\ y ∈ locations c.

(** The state of the grouping between two seeds.  The members of the
    clusters are processed.  A processed location either follows
    another one, or it has been a seed; every location within
    [clusterDistance] of a former seed is in the seed's cluster, unless
    it follows a seed that came earlier. *)
Definition settled (locs : list Location) (map : Map) (clusterDistance : Q)
    (s : Store) : Prop :=
  (forall c l, c ∈ clusters s -> l ∈ locations c -> id l ∈ processed s) /\
  forall x, x ∈ locs -> id x ∈ processed s ->
    follows (clusters s) x \/
    forall p y q,
      projects_to map x p -> y ∈ locs -> y <> x -> projects_to map y q ->
      distance_le p q clusterDistance = true ->
      leads (clusters s) x y \/ follows (clusters s) y.

(** ** The objects behind the values

    [createClusters] receives a reference to an array of references to
    [Location] objects; the arrays [clusters], [nearbyLocations],
    [result] and the set [processed] are objects too, and a cluster
    holds a reference to its array of members.  This embedding of the
    same lines keeps the objects in a heap and passes references, so
    that it can be stated which objects a call writes to and what the
    reference it returns points at.  A reference is the position of an
    object in the heap; [new] and array literals append an object.
    The pair [center] and the Leaflet bounds of a cluster are kept in
    the cluster object.  Reading through a reference that does not
    hold the kind of object the types promise is a [TypeError]. *)

Module Heap.

Definition addr := nat.

Inductive Obj :=
| OLocation (l : Location)
| OArray (elems : list addr)
| OSet (ids : gset string)
| OCluster (ctr : Q * Q) (members : addr) (box : LatLngBounds).

Definition H (A : Type) : Type := list Obj -> (exn + A) * list Obj.

Definition ret {A} (a : A) : H A := fun h => (inr a, h).

Definition bind {A B} (m : H A) (k : A -> H B) : H B :=
  fun h => match m h with
           | (inl e, h') => (inl e, h')
           | (inr a, h') => k a h'
           end.

Declare Scope h_scope.
Delimit Scope h_scope with H.
Notation "'let*' v := m 'in' k" := (bind m (fun v => k))
  (at level 10, v name, m at level 100, k at level 200, only parsing) : h_scope.
Notation "m ;; k" := (bind m (fun _ => k))
  (at level 100, k at level 200, right associativity, only parsing) : h_scope.
Local Open Scope h_scope.

Definition throw {A} (e : exn) : H A := fun h => (inl e, h).

Definition liftE {A} (r : exn + A) : H A := fun h => (r, h).

(** A new object. *)
Definition alloc (o : Obj) : H addr := fun h => (inr (length h), h ++ [o]).

(** Reading and writing through a reference. *)
Definition load (a : addr) : H Obj :=
  fun h => match h !! a with
           | Some o => (inr o, h)
           | None => (inl (Error "TypeError"), h)
           end.

Definition store (a : addr) (o : Obj) : H unit := fun h => (inr tt, <[a := o]> h).

(** The fields of a [Location] object. *)
Definition location (a : addr) : H Location :=
  let* o := load a in
  match o with OLocation l => ret l | _ => throw (Error "TypeError") end.

(** [xs.length] *)
Definition Array_length (xs : addr) : H nat :=
  let* o := load xs in
  match o with OArray elems => ret (length elems) | _ => throw (Error "TypeError") end.

(** [xs.push(v)] *)
Definition Array_push (xs : addr) (v : addr) : H unit :=
  let* o := load xs in
  match o with
  | OArray elems => store xs (OArray (elems ++ [v]))
  | _ => throw (Error "TypeError")
  end.

(** [[...xs]] *)
Definition Array_spread (xs : addr) : H addr :=
  let* o := load xs in
  match o with OArray elems => alloc (OArray elems) | _ => throw (Error "TypeError") end.

(** [set.has(i)] and [set.add(i)] *)
Definition Set_has (set : addr) (i : string) : H bool :=
  let* o := load set in
  match o with OSet ids => ret (bool_decide (i ∈ ids)) | _ => throw (Error "TypeError") end.

Definition Set_add (set : addr) (i : string) : H unit :=
  let* o := load set in
  match o with
  | OSet ids => store set (OSet ({[ i ]} ∪ ids))
  | _ => throw (Error "TypeError")
  end.

(** The callback at the indices [k], ..., [k + n - 1]. *)
Fixpoint forRange (callback : nat -> H unit) (k n : nat) : H unit :=
  match n with
  | O => ret tt
  | S n' => callback k ;; forRange callback (S k) n'
  end.

(** [xs.forEach(callback)]: the length is read once, an element when
    the loop reaches it; an index that is no longer there is skipped. *)
Definition Array_forEach (xs : addr) (callback : addr -> H unit) : H unit :=
  let* len := Array_length xs in
  forRange
    (fun k =>
       let* o := load xs in
       match o with
       | OArray elems =>
           match elems !! k with Some v => callback v | None => ret tt end
       | _ => throw (Error "TypeError")
       end)
    0 len.

(** [xs.map(loc => [loc.coordinates.latitude, loc.coordinates.longitude])] *)
Fixpoint latLngsOf (elems : list addr) : H (list LatLng) :=
  match elems with
  | [] => ret []
  | v :: rest =>
      let* loc := location v in
      let* lls := latLngsOf rest in
      ret (latLng loc :: lls)
  end.

Definition Array_latLngs (xs : addr) : H (list LatLng) :=
  let* o := load xs in
  match o with OArray elems => latLngsOf elems | _ => throw (Error "TypeError") end.

(** Lines 65-75: the callback of the inner [forEach]. *)
Definition scanStep (map : Map) (processed nearbyLocations : addr) (locationPoint : Point)
    (clusterDistance : Q) (otherLocation : addr) : H unit :=
  let* other := location otherLocation in
  let* seen := Set_has processed (id other) in
  if seen then ret tt else
  let* otherPoint := liftE (latLngToContainerPoint map (latLng other)) in
  if distance_le locationPoint otherPoint clusterDistance then
    Array_push nearbyLocations otherLocation ;;
    Set_add processed (id other)
  else ret tt.

(** Lines 77-86: the cluster object refers to the array
    [nearbyLocations] itself. *)
Definition closeGroup (clusters nearbyLocations : addr) : H unit :=
  let* n := Array_length nearbyLocations in
  if (1 <? n)%nat then
    let* latlngs := Array_latLngs nearbyLocations in
    let bounds := newLatLngBounds latlngs in
    let* center := liftE (getCenter bounds) in
    let* c := alloc (OCluster (lat center, lng center) nearbyLocations bounds) in
    Array_push clusters c
  else ret tt.

(** Lines 57-87: the callback of the outer [forEach]. *)
Definition seedStep (locations : addr) (map : Map) (clusters processed : addr)
    (clusterDistance : Q) (location_ : addr) : H unit :=
  let* loc := location location_ in
  let* seen := Set_has processed (id loc) in
  if seen then ret tt else
  let* locationPoint := liftE (latLngToContainerPoint map (latLng loc)) in
  let* nearbyLocations := alloc (OArray [location_]) in
  Set_add processed (id loc) ;;
  Array_forEach locations
    (scanStep map processed nearbyLocations locationPoint clusterDistance) ;;
  closeGroup clusters nearbyLocations.

(** Lines 91-95: the callback of the last [forEach]. *)
Definition emitStep (processed result : addr) (location_ : addr) : H unit :=
  let* loc := location location_ in
  let* seen := Set_has processed (id loc) in
  if negb seen then Array_push result location_ else ret tt.

(** Lines 51-98.  The early return hands back the reference it was
    given. *)
Definition createClusters (locations : addr) (map : option Map) (clusterDistance : Q)
    : H addr :=
  match map with
  | None => ret locations
  | Some map =>
      let* n := Array_length locations in
      if (n =? 0)%nat then ret locations else
      let* clusters := alloc (OArray []) in
      let* processed := alloc (OSet ∅) in
      Array_forEach locations (seedStep locations map clusters processed clusterDistance) ;;
      let* result := Array_spread clusters in
      Array_forEach locations (emitStep processed result) ;;
      ret result
  end.

End Heap.

(** What a heap holds at a reference: the [Location] objects [ls]
    behind the references [refs]; an array of them; an item of a
    result, a cluster with its array of members; a result. *)
Definition locationsAt (h : list Heap.Obj) (refs : list Heap.addr) (ls : list Location)
    : Prop :=
  Forall2 (fun r l => h !! r = Some (Heap.OLocation l)) refs ls.

Definition arrayAt (h : list Heap.Obj) (a : Heap.addr) (ls : list Location) : Prop :=
  exists refs, h !! a = Some (Heap.OArray refs) /\ locationsAt h refs ls.

Definition itemAt (h : list Heap.Obj) (r : Heap.addr) (it : Item) : Prop :=
  match it with
  | ItemLocation l => h !! r = Some (Heap.OLocation l)
  | ItemCluster c =>
      exists members,
        h !! r = Some (Heap.OCluster (center c) members (bounds c)) /\
        arrayAt h members (locations c)
  end.

Definition itemsAt (h : list Heap.Obj) (a : Heap.addr) (items : list Item) : Prop :=
  exists refs, h !! a = Some (Heap.OArray refs) /\ Forall2 (itemAt h) refs items.

(** No object of [h] is changed or removed in [h']; [h'] may hold
    further objects. *)
Definition preserved (h h' : list Heap.Obj) : Prop :=
  forall a o, h !! a = Some o -> h' !! a = Some o.

(** A cluster object at [cref] that stands for [c]: it and its array
    of members lie between [lo] and [hi], and the members are objects
    of [h0]. *)
Definition clusterAt (h0 : list Heap.Obj) (lo hi : nat) (h : list Heap.Obj)
    (cref : Heap.addr) (c : ClusterGroup) : Prop :=
  exists members mrefs,
    (lo < cref < hi)%nat /\ (lo < members < hi)%nat /\
    h !! cref = Some (Heap.OCluster (center c) members (bounds c)) /\
    h !! members = Some (Heap.OArray mrefs) /\
    locationsAt h0 mrefs (locations c).

(** During a call started in [h0], the heap [h] holds the locals
    [clusters] and [processed] of the store [s] at the references [cr]
    and [pr], allocated by the call, and the clusters lie below [hi]. *)
Definition localsAt (h0 : list Heap.Obj) (cr pr : Heap.addr) (hi : nat)
    (s : Store) (h : list Heap.Obj) : Prop :=
  h0 `prefix_of` h /\
  (length h0 <= cr)%nat /\ (cr < pr)%nat /\ (pr < hi)%nat /\ (hi <= length h)%nat /\
  h !! pr = Some (Heap.OSet (processed s)) /\
  exists crefs,
    h !! cr = Some (Heap.OArray crefs) /\
    Forall2 (clusterAt h0 pr hi h) crefs (clusters s).

(** Between two seeds; during the scan for a seed, with the array
    [nearbyLocations] at [n]; during the last loop, with [result] at
    [rr]. *)
Definition seedsAt (h0 : list Heap.Obj) (cr pr : Heap.addr)
    (s : Store) (h : list Heap.Obj) : Prop :=
  localsAt h0 cr pr (length h) s h.

Definition scanAt (h0 : list Heap.Obj) (cr pr n : Heap.addr)
    (s : Store) (h : list Heap.Obj) : Prop :=
  localsAt h0 cr pr n s h /\ (n < length h)%nat /\
  exists nrefs,
    h !! n = Some (Heap.OArray nrefs) /\ locationsAt h0 nrefs (nearbyLocations s).

Definition resultAt (h0 : list Heap.Obj) (lo hi : nat) (h : list Heap.Obj)
    (r : Heap.addr) (it : Item) : Prop :=
  match it with
  | ItemLocation l => h0 !! r = Some (Heap.OLocation l)
  | ItemCluster c => clusterAt h0 lo hi h r c
  end.

Definition emitAt (h0 : list Heap.Obj) (cr pr rr : Heap.addr)
    (s : Store) (h : list Heap.Obj) : Prop :=
  localsAt h0 cr pr rr s h /\ (rr < length h)%nat /\
  exists irefs,
    h !! rr = Some (Heap.OArray irefs) /\ Forall2 (resultAt h0 pr rr h) irefs (result s).

(** The computation on values and the computation on objects go the
    same way: from a store and a heap related by [R] both return the
    same value, in states related by [R'], or both throw the same
    exception, and then the objects of [h0] are still in place. *)
Definition simulates {A} (h0 : list Heap.Obj) (R R' : Store -> list Heap.Obj -> Prop)
    (m : M A) (mh : Heap.H A) : Prop :=
  forall s h, R s h ->
    match fst (m s), fst (mh h) with
    | inr a, inr a' => a = a' /\ R' (snd (m s)) (snd (mh h))
    | inl e, inl e' => e = e' /\ h0 `prefix_of` snd (mh h)
    | _, _ => False
    end.

(** A heap with two locations, an array of both, and an object of
    another part of the program. *)
Definition sampleHeap : list Heap.Obj :=
  [ Heap.OLocation (loc "A" 0 0); Heap.OLocation (loc "B" 0 10);
    Heap.OArray [0%nat; 1%nat]; Heap.OSet {[ "kept" ]} ].

(** ** Loops *)

Section Loops.
Context {A : Type}.
Implicit Types (xs : list A) (f g : A -> M unit).

(** The loop depends on the callback only through the elements it
    visits. *)
Lemma forEach_ext xs f g :
  (forall v s, v ∈ xs -> f v s = g v s) ->
  forall s, forEach xs f s = forEach xs g s.
Proof.
  induction xs as [|v xs IH]; intros Hfg s; simpl; [reflexivity|].
  unfold bind. rewrite (Hfg v s) by left.
  destruct (g v s) as [[e|[]] s1]; [reflexivity|].
  apply IH. intros w s2 Hw. apply Hfg. now right.
Qed.

(** A loop whose callback never throws returns. *)
Lemma forEach_returns xs f :
  (forall v s, v ∈ xs -> exists s', f v s = (inr tt, s')) ->
  forall s, exists s', forEach xs f s = (inr tt, s').
Proof.
  induction xs as [|v xs IH]; intros Hf s; simpl.
  - now exists s.
  - unfold bind. destruct (Hf v s) as [s1 ->]; [left|].
    apply IH. intros w s2 Hw. apply Hf. now right.
Qed.
End Loops.

Ltac mstep :=
  unfold bind, ret, clusters_new, processed_new, processed_has, processed_add,
    nearbyLocations_new,
    nearbyLocations_push, nearbyLocations_get, clusters_push, result_new,
    result_push, result_get, liftE, project in *;
  simpl in *.

(** ** The inner scan *)

Section Scan.
Variables (map : Map) (locationPoint : Point) (clusterDistance : Q).

Lemma scan_spec xs : forall s r s',
  forEach xs (scanStep map locationPoint clusterDistance) s = (r, s') ->
  clusters s' = clusters s /\ result s' = result s /\
  exists added,
    nearbyLocations s' = nearbyLocations s ++ added /\
    processed s' = list_to_set (id <$> added) ∪ processed s /\
    NoDup (id <$> added) /\
    forall o, o ∈ added ->
      o ∈ xs /\ (id o ∉ processed s) /\
      exists q, projects_to map o q /\
                distance_le locationPoint q clusterDistance = true.
Proof.
  induction xs as [|o xs IH]; intros s r s' H; simpl in H.
  - inversion H; subst. split; [|split]; try reflexivity.
    exists []. rewrite app_nil_r. repeat split; try constructor; try set_solver.
  - unfold bind at 1 in H. unfold scanStep at 1 in H. mstep.
    case_bool_decide as Hin.
    + apply IH in H as (Hc & Hr & added & Hn & Hp & Hd & Ha).
      repeat split; try assumption. exists added. repeat split; try assumption;
        destruct (Ha _ H) as (? & ? & ?); try assumption. now right.
    + destruct (latLngToContainerPoint map (latLng o)) as [e|q] eqn:Hq.
      * inversion H; subst; simpl. repeat split; try reflexivity.
        exists []. rewrite app_nil_r. repeat split; try constructor; try set_solver.
      * destruct (distance_le locationPoint q clusterDistance) eqn:Hd.
        -- apply IH in H as (Hc & Hr & added & Hn & Hp & Hnd & Ha). simpl in *.
           repeat split; try assumption.
           exists (o :: added). rewrite Hn, <- app_assoc. simpl.
           split; [reflexivity|]. split; [rewrite Hp; set_solver|].
           split.
           ++ constructor; [|assumption].
              intros Hmem. apply list_elem_of_fmap in Hmem as (o' & Hid & Ho').
              destruct (Ha _ Ho') as (_ & Hnp & _). apply Hnp. rewrite <- Hid. set_solver.
           ++ intros o' Ho'. apply elem_of_cons in Ho' as [->|Ho'].
              ** split; [left|]. split; [assumption|]. now exists q.
              ** destruct (Ha _ Ho') as (? & Hnp & ?). split; [now right|].
                 split; [set_solver|assumption].
        -- apply IH in H as (Hc & Hr & added & Hn & Hp & Hnd & Ha). simpl in *.
           repeat split; try assumption. exists added.
           repeat split; try assumption; destruct (Ha _ H) as (? & ? & ?);
             try assumption. now right.
Qed.
End Scan.

(** ** Bounds of a non-empty list of positions *)

Lemma extend_corners ps : forall sw ne,
  exists sw' ne',
    fold_left extend ps {| _southWest := Some sw; _northEast := Some ne |}
    = {| _southWest := Some sw'; _northEast := Some ne' |}.
Proof.
  induction ps as [|p ps IH]; intros sw ne; simpl; [eauto|].
  unfold extend at 2; simpl. apply IH.
Qed.

Lemma getCenter_nonempty p ps :
  exists ctr, getCenter (newLatLngBounds (p :: ps)) = inr ctr.
Proof.
  unfold newLatLngBounds; simpl. unfold extend at 2; simpl.
  destruct (extend_corners ps p p) as (sw & ne & ->).
  unfold getCenter; simpl. eauto.
Qed.

(** ** The outer loop *)

Lemma memberIds_singleton c : memberIds [c] = id <$> locations c.
Proof. unfold memberIds. simpl. now rewrite app_nil_r. Qed.

Lemma memberIds_app cs1 cs2 : memberIds (cs1 ++ cs2) = memberIds cs1 ++ memberIds cs2.
Proof. unfold memberIds. now rewrite fmap_app, concat_app, fmap_app. Qed.

Section Seeds.
Variables (locs : list Location) (map : Map) (clusterDistance : Q).

Lemma grows_refl s : grows locs map clusterDistance s s.
Proof.
  split; [reflexivity|]. split; [reflexivity|].
  exists []. rewrite app_nil_r. repeat split; try constructor.
  all: unfold memberIds in *; simpl in *; set_solver.
Qed.

Lemma grows_trans s1 s2 s3 :
  grows locs map clusterDistance s1 s2 -> grows locs map clusterDistance s2 s3 ->
  grows locs map clusterDistance s1 s3.
Proof.
  intros (Hr1 & Hp1 & new1 & Hc1 & Hok1 & Hnd1 & Hid1)
         (Hr2 & Hp2 & new2 & Hc2 & Hok2 & Hnd2 & Hid2).
  split; [congruence|]. split; [set_solver|].
  exists (new1 ++ new2). split; [rewrite Hc2, Hc1; now rewrite app_assoc|].
  split; [now apply Forall_app|].
  rewrite memberIds_app. split.
  - apply NoDup_app. split; [assumption|]. split; [|assumption].
    intros i Hi1 Hi2. destruct (Hid1 i Hi1) as [_ Hin]. destruct (Hid2 i Hi2) as [Hout _].
    contradiction.
  - intros i Hi. apply elem_of_app in Hi as [Hi|Hi].
    + destruct (Hid1 i Hi). split; [assumption|]. set_solver.
    + destruct (Hid2 i Hi). split; [|assumption]. set_solver.
Qed.

(** A store that differs from [s] in the trace and in
    [nearbyLocations] only is as good as [s]. *)
Lemma grows_same s s' :
  clusters s' = clusters s -> result s' = result s ->
  processed s ⊆ processed s' -> grows locs map clusterDistance s s'.
Proof.
  intros Hc Hr Hp. split; [assumption|]. split; [assumption|].
  exists []. rewrite app_nil_r. repeat split; try assumption; try constructor.
  all: unfold memberIds in *; simpl in *; set_solver.
Qed.

Lemma seed_spec location s r s' :
  location ∈ locs ->
  seedStep locs map clusterDistance location s = (r, s') ->
  grows locs map clusterDistance s s' /\ (r = inr tt -> id location ∈ processed s').
Proof.
  intros Hloc H. unfold seedStep in H. unfold bind at 1 in H.
  unfold processed_has at 1 in H. simpl in H.
  case_bool_decide as Hin.
  { inversion H; subst. split; [apply grows_refl|auto]. }
  unfold bind at 1, project at 1 in H.
  destruct (latLngToContainerPoint map (latLng location)) as [e|pt] eqn:Hpt.
  { inversion H; subst. split; [|discriminate]. now apply grows_same. }
  unfold bind at 1, nearbyLocations_new at 1 in H. simpl in H.
  unfold bind at 1, processed_add at 1 in H. simpl in H.
  unfold bind at 1 in H.
  match type of H with context [forEach locs ?f ?s1] =>
    destruct (forEach locs f s1) as [r1 s2] eqn:Hscan end.
  apply scan_spec in Hscan as (Hc & Hr & added & Hn & Hp & Hnd & Ha). simpl in *.
  destruct r1 as [e|[]].
  { inversion H; subst. split; [|discriminate]. apply grows_same; try assumption.
    rewrite Hp. set_solver. }
  unfold closeGroup, bind at 1, nearbyLocations_get at 1 in H. rewrite Hn in H.
  destruct added as [|o added]; simpl in H.
  { inversion H; subst. split; [|intros _; rewrite Hp; set_solver].
    apply grows_same; try assumption. rewrite Hp. set_solver. }
  unfold newCluster, bind, liftE, ret, clusters_push in H.
  destruct (getCenter_nonempty (latLng location) (latLng <$> (o :: added)))
    as [ctr Hctr].
  change (latLng location :: (latLng <$> o :: added))
    with (latLng <$> location :: o :: added) in Hctr.
  simpl in H, Hctr. rewrite Hctr in H. inversion H; subst; clear H. simpl.
  split; [|intros _; rewrite Hp; set_solver].
  split; [assumption|]. split; [simpl; rewrite Hp; set_solver|].
  eexists [_]. simpl. split; [rewrite Hc; reflexivity|].
  split; [|split].
  - constructor; [|constructor].
    exists location, (o :: added), pt, ctr. simpl.
    repeat split; try assumption; try discriminate; try reflexivity.
    + now destruct (Ha _ H) as (? & _ & _).
    + now destruct (Ha _ H) as (_ & _ & ?).
  - rewrite memberIds_singleton. cbn [locations]. rewrite fmap_cons.
    constructor; [|assumption].
    intros Hmem. apply list_elem_of_fmap in Hmem as (o' & Hid & Ho').
    destruct (Ha _ Ho') as (_ & Hnp & _). apply Hnp. rewrite <- Hid. set_solver.
  - intros i Hi. rewrite memberIds_singleton in Hi. cbn [locations] in Hi.
    rewrite fmap_cons in Hi.
    split; [|rewrite Hp; set_solver].
    apply elem_of_cons in Hi as [->|Hi]; [assumption|].
    apply list_elem_of_fmap in Hi as (o' & -> & Ho').
    destruct (Ha _ Ho') as (_ & Hnp & _). set_solver.
Qed.
End Seeds.

Section Outcome.
Variables (locs : list Location) (map : Map) (clusterDistance : Q).

Lemma seeds_spec xs : xs ⊆ locs -> forall s r s',
  forEach xs (seedStep locs map clusterDistance) s = (r, s') ->
  grows locs map clusterDistance s s' /\
  (r = inr tt -> forall l, l ∈ xs -> id l ∈ processed s').
Proof.
  induction xs as [|v xs IH]; intros Hsub s r s' H; simpl in H.
  - inversion H; subst. split; [apply grows_refl|]. intros _ l Hl. inversion Hl.
  - unfold bind at 1 in H.
    destruct (seedStep locs map clusterDistance v s) as [r1 s1] eqn:Hv.
    apply seed_spec in Hv as [Hg1 Hp1]; [|apply Hsub; left].
    destruct r1 as [e|[]].
    + inversion H; subst. split; [assumption|discriminate].
    + apply IH in H as [Hg2 Hp2]; [|set_solver].
      split; [eapply grows_trans; eassumption|].
      intros -> l Hl. apply elem_of_cons in Hl as [->|Hl]; [|now apply Hp2].
      destruct Hg2 as (_ & Hsub2 & _). apply Hsub2. now apply Hp1.
Qed.

(** The last loop appends the locations whose identifier is not in
    [processed], and touches nothing else. *)
Lemma emit_spec xs : forall s,
  forEach xs emitStep s
  = (inr tt,
     {| clusters := clusters s; processed := processed s;
        nearbyLocations := nearbyLocations s;
        result := result s ++ (ItemLocation <$> filter (fun l => id l ∉ processed s) xs);
        calls := calls s |}).
Proof.
  induction xs as [|v xs IH]; intros s; simpl.
  - rewrite app_nil_r. now destruct s.
  - unfold bind at 1, emitStep at 1. mstep. rewrite filter_cons.
    case_bool_decide as Hin; simpl.
    + rewrite decide_False by tauto. apply IH.
    + rewrite decide_True by assumption. rewrite IH. simpl.
      now rewrite <- app_assoc.
Qed.

(** The outcome of a call that returns. *)
Lemma createClusters_spec items s' :
  run (createClusters locs (Some map) clusterDistance) = (inr items, s') ->
  items = (ItemCluster <$> clusters s')
          ++ (ItemLocation <$> filter (fun l => id l ∉ processed s') locs) /\
  Forall (cluster_ok locs map clusterDistance) (clusters s') /\
  NoDup (memberIds (clusters s')) /\
  (forall i, i ∈ memberIds (clusters s') -> i ∈ processed s') /\
  (forall l, l ∈ locs -> id l ∈ processed s').
Proof.
  unfold run, createClusters. destruct locs as [|l0 ls] eqn:Hlocs.
  { simpl. intros H; inversion H; subst. simpl.
    repeat split; try constructor; unfold memberIds; simpl; set_solver. }
  rewrite <- Hlocs. replace (length locs =? 0)%nat with false by now subst.
  unfold bind at 1, clusters_new at 1. unfold bind at 1, processed_new at 1.
  unfold bind at 1. cbn [clusters processed nearbyLocations result calls init].
  fold init.
  destruct (forEach locs _ init) as [r1 s1] eqn:Hseeds.
  apply seeds_spec in Hseeds as [Hg Hall]; [|reflexivity].
  destruct r1 as [e|[]]; [discriminate|].
  unfold bind at 1, result_new at 1. unfold bind at 1. rewrite emit_spec.
  unfold result_get. simpl. intros H; inversion H; subst items s'; clear H. simpl.
  destruct Hg as (_ & _ & new & Hc & Hok & Hnd & Hid). simpl in Hc. subst new.
  repeat split; try assumption; auto.
  intros i Hi. now apply Hid.
Qed.

(** Every seed is put into [processed] before its group is known to be
    a cluster, so the last loop finds nothing to append: the result
    holds the clusters and nothing else. *)
Lemma createClusters_only_clusters items s' :
  run (createClusters locs (Some map) clusterDistance) = (inr items, s') ->
  items = ItemCluster <$> clusters s'.
Proof.
  intros H. apply createClusters_spec in H as (-> & _ & _ & _ & Hall).
  replace (filter (fun l => id l ∉ processed s') locs) with (@nil Location).
  - simpl. now rewrite app_nil_r.
  - symmetry. clear -Hall. induction locs as [|l ls IH]; [reflexivity|].
    rewrite filter_cons, decide_False by (intros Hn; apply Hn, Hall; left).
    apply IH. intros l' Hl'. apply Hall. now right.
Qed.
End Outcome.

(** ** The distance test *)

Lemma distance2_nonneg p q : 0 <= distance2 p q.
Proof.
  unfold distance2.
  generalize (x q - x p) (y q - y p). intros a b. Lqa.nra.
Qed.

(** [distance_le] decides the comparison of the source,
    [p.distanceTo(q) <= t]. *)
Lemma distance_le_spec p q t :
  distance_le p q t = true <-> (distanceTo p q <= Q2R t)%R.
Proof.
  unfold distance_le, distanceTo.
  rewrite andb_true_iff, !Qle_bool_iff.
  pose proof (distance2_nonneg p q) as Hd. apply Qle_Rle in Hd.
  rewrite RMicromega.Q2R_0 in Hd.
  split.
  - intros [Ht Hle]. apply Qle_Rle in Ht, Hle.
    rewrite RMicromega.Q2R_0 in Ht. rewrite Q2R_mult in Hle.
    rewrite <- (sqrt_square (Q2R t)) by assumption.
    now apply sqrt_le_1_alt.
  - intros Hle.
    pose proof (sqrt_pos (Q2R (distance2 p q))) as Hs.
    assert (Ht : (0 <= Q2R t)%R) by lra.
    split; apply Rle_Qle.
    + now rewrite RMicromega.Q2R_0.
    + rewrite Q2R_mult. rewrite <- (sqrt_sqrt (Q2R (distance2 p q))) by assumption.
      apply Rmult_le_compat; assumption.
Qed.

(** ** Who joins the group of a seed *)

Section Joining.
Variables (map : Map) (clusterDistance : Q).

(** One step of the scan leaves a processed location alone, and adds
    at most the identifier of the location it looks at. *)
Lemma scanStep_processed pt v s r s1 :
  scanStep map pt clusterDistance v s = (r, s1) ->
  processed s1 ⊆ {[ id v ]} ∪ processed s.
Proof.
  unfold scanStep. mstep. case_bool_decide as Hin.
  - intros Heq; inversion Heq; subst. set_solver.
  - destruct (latLngToContainerPoint map (latLng v)) as [e|q].
    + intros Heq; inversion Heq; subst. simpl. set_solver.
    + destruct (distance_le pt q clusterDistance);
        intros Heq; inversion Heq; subst; simpl; set_solver.
Qed.

(** A scan that returns has taken every unprocessed location within
    range of the seed (identifiers being distinct). *)
Lemma scan_joins pt xs : forall s s' o q,
  forEach xs (scanStep map pt clusterDistance) s = (inr tt, s') ->
  NoDup (id <$> xs) -> o ∈ xs -> id o ∉ processed s ->
  projects_to map o q -> distance_le pt q clusterDistance = true ->
  o ∈ nearbyLocations s'.
Proof.
  induction xs as [|v xs IH]; intros s s' o q H Hnd Ho Hnp Hq Hd.
  { inversion Ho. }
  simpl in H. unfold bind at 1 in H.
  destruct (scanStep map pt clusterDistance v s) as [r1 s1] eqn:Hv.
  destruct r1 as [e|[]]; [discriminate|].
  rewrite fmap_cons in Hnd. apply NoDup_cons in Hnd as [Hv_fresh Hnd].
  apply elem_of_cons in Ho as [->|Ho].
  - apply scan_spec in H as (_ & _ & added & -> & _).
    apply elem_of_app. left.
    unfold scanStep in Hv. mstep. rewrite bool_decide_eq_false_2 in Hv by assumption.
    unfold projects_to in Hq. rewrite Hq, Hd in Hv. inversion Hv; subst; simpl.
    apply elem_of_app. right. left.
  - apply (IH s1 s' o q); try assumption.
    apply scanStep_processed in Hv. intros Hin. apply Hv in Hin.
    apply elem_of_union in Hin as [Hin|Hin]; [|contradiction].
    apply elem_of_singleton in Hin. apply Hv_fresh. rewrite <- Hin.
    now apply list_elem_of_fmap_2.
Qed.

(** The run of [seedStep] on an unprocessed seed that returns: the
    scan starts from [nearbyLocations = [seed]] with the seed
    processed, and its group becomes a cluster exactly when it has
    more than one member. *)
Lemma seed_outcome locs seed pt s s' :
  id seed ∉ processed s -> projects_to map seed pt ->
  seedStep locs map clusterDistance seed s = (inr tt, s') ->
  exists s2,
    forEach locs (scanStep map pt clusterDistance)
      {| clusters := clusters s; processed := {[ id seed ]} ∪ processed s;
         nearbyLocations := [seed]; result := result s;
         calls := calls s ++ [latLng seed] |} = (inr tt, s2) /\
    nearbyLocations s' = nearbyLocations s2 /\
    (((length (nearbyLocations s2) <= 1)%nat /\ clusters s' = clusters s2) \/
     ((1 < length (nearbyLocations s2))%nat /\
      exists c, clusters s' = clusters s2 ++ [c] /\
                locations c = nearbyLocations s2)).
Proof.
  intros Hnp Hpt H. unfold seedStep in H. unfold bind at 1 in H.
  unfold processed_has at 1 in H. simpl in H.
  rewrite bool_decide_eq_false_2 in H by assumption.
  unfold bind at 1, project at 1 in H. unfold projects_to in Hpt. rewrite Hpt in H.
  unfold bind at 1, nearbyLocations_new at 1 in H. simpl in H.
  unfold bind at 1, processed_add at 1 in H. simpl in H.
  unfold bind at 1 in H.
  match type of H with context [forEach locs ?f ?s1] =>
    destruct (forEach locs f s1) as [r1 s2] eqn:Hscan end.
  destruct r1 as [e|[]]; [discriminate|].
  exists s2. split; [reflexivity|].
  unfold closeGroup, bind at 1, nearbyLocations_get at 1 in H.
  destruct (1 <? length (nearbyLocations s2))%nat eqn:Hlen.
  - apply Nat.ltb_lt in Hlen.
    unfold newCluster, bind, liftE, ret, clusters_push in H.
    destruct (getCenter _) as [e|ctr]; [discriminate|].
    inversion H; subst; clear H. simpl. split; [reflexivity|].
    right. split; [assumption|]. eexists. split; reflexivity.
  - apply Nat.ltb_ge in Hlen. inversion H; subst.
    split; [reflexivity|]. left. now split.
Qed.
End Joining.

(** ** Early return *)

(** C10: without a map, or on the empty list, [createClusters] returns
    its input list as it is and the projection is never called; the
    empty input gives the empty result for every threshold. *)
Theorem createClusters_early_return (locs : list Location) (map : option Map)
    (clusterDistance : Q) :
  (fst (run (createClusters locs None clusterDistance)) = inr (ItemLocation <$> locs) /\
   calls (snd (run (createClusters locs None clusterDistance))) = []) /\
  (fst (run (createClusters [] map clusterDistance)) = inr [] /\
   calls (snd (run (createClusters [] map clusterDistance))) = []).
Proof.
  split; [split; reflexivity|].
  destruct map as [m|]; split; reflexivity.
Qed.

(** ** Equations of the callbacks *)

Lemma emitStep_skip l s :
  id l ∈ processed s -> emitStep l s = (inr tt, s).
Proof.
  intros Hin. unfold emitStep. mstep. now rewrite bool_decide_eq_true_2.
Qed.

Lemma emitStep_push l s :
  id l ∉ processed s ->
  emitStep l s
  = (inr tt,
     {| clusters := clusters s; processed := processed s;
        nearbyLocations := nearbyLocations s;
        result := result s ++ [ItemLocation l]; calls := calls s |}).
Proof.
  intros Hin. unfold emitStep. mstep. now rewrite bool_decide_eq_false_2.
Qed.

Section Steps.
Variables (map : Map) (clusterDistance : Q).

Lemma scanStep_skip pt o s :
  id o ∈ processed s -> scanStep map pt clusterDistance o s = (inr tt, s).
Proof.
  intros Hin. unfold scanStep. mstep. now rewrite bool_decide_eq_true_2.
Qed.

Lemma scanStep_join pt o q s :
  id o ∉ processed s -> projects_to map o q ->
  distance_le pt q clusterDistance = true ->
  scanStep map pt clusterDistance o s
  = (inr tt,
     {| clusters := clusters s; processed := {[ id o ]} ∪ processed s;
        nearbyLocations := nearbyLocations s ++ [o]; result := result s;
        calls := calls s ++ [latLng o] |}).
Proof.
  intros Hin Hq Hd. unfold scanStep, projects_to in *. mstep.
  rewrite bool_decide_eq_false_2 by assumption. now rewrite Hq, Hd.
Qed.

Lemma scanStep_far pt o q s :
  id o ∉ processed s -> projects_to map o q ->
  distance_le pt q clusterDistance = false ->
  scanStep map pt clusterDistance o s
  = (inr tt,
     {| clusters := clusters s; processed := processed s;
        nearbyLocations := nearbyLocations s; result := result s;
        calls := calls s ++ [latLng o] |}).
Proof.
  intros Hin Hq Hd. unfold scanStep, projects_to in *. mstep.
  rewrite bool_decide_eq_false_2 by assumption. now rewrite Hq, Hd.
Qed.

Lemma seedStep_skip locs l s :
  id l ∈ processed s -> seedStep locs map clusterDistance l s = (inr tt, s).
Proof.
  intros Hin. unfold seedStep. mstep. now rewrite bool_decide_eq_true_2.
Qed.

Lemma seedStep_seed locs l pt s :
  id l ∉ processed s -> projects_to map l pt ->
  seedStep locs map clusterDistance l s
  = bind (forEach locs (scanStep map pt clusterDistance)) (fun _ => closeGroup)
      {| clusters := clusters s; processed := {[ id l ]} ∪ processed s;
         nearbyLocations := [l]; result := result s;
         calls := calls s ++ [latLng l] |}.
Proof.
  intros Hin Hpt. unfold seedStep, projects_to in *.
  unfold bind at 1, processed_has at 1. simpl.
  rewrite bool_decide_eq_false_2 by assumption.
  unfold bind at 1, project at 1. rewrite Hpt.
  unfold bind at 1, nearbyLocations_new at 1. simpl.
  unfold bind at 1, processed_add at 1. simpl. reflexivity.
Qed.

Lemma closeGroup_single s :
  (length (nearbyLocations s) <= 1)%nat -> closeGroup s = (inr tt, s).
Proof.
  intros Hlen. unfold closeGroup. mstep.
  apply Nat.ltb_ge in Hlen. now rewrite Hlen.
Qed.

Lemma closeGroup_cluster s :
  (1 < length (nearbyLocations s))%nat ->
  exists c,
    locations c = nearbyLocations s /\
    closeGroup s
    = (inr tt,
       {| clusters := clusters s ++ [c]; processed := processed s;
          nearbyLocations := nearbyLocations s; result := result s;
          calls := calls s |}).
Proof.
  intros Hlen. unfold closeGroup, newCluster. mstep.
  apply Nat.ltb_lt in Hlen as Hb. rewrite Hb.
  destruct (nearbyLocations s) as [|l ls] eqn:Hn; [simpl in Hlen; lia|].
  destruct (getCenter_nonempty (latLng l) (latLng <$> ls)) as [ctr Hctr].
  rewrite fmap_cons, Hctr. eexists. split; cycle 1.
  - rewrite ?Hn. reflexivity.
  - reflexivity.
Qed.
End Steps.

Ltac tidy := cbn [clusters processed nearbyLocations result calls app forEach].

Ltac scan_step :=
  unfold bind at 1;
  first
    [ rewrite scanStep_skip by (simpl; set_solver)
    | erewrite scanStep_join by first [ eassumption | reflexivity | simpl; set_solver ]
    | erewrite scanStep_far by first [ eassumption | reflexivity | simpl; set_solver ] ];
  tidy.

Ltac seed_step :=
  unfold bind at 1;
  first
    [ rewrite seedStep_skip by (simpl; set_solver)
    | erewrite seedStep_seed by first [ eassumption | simpl; set_solver ];
      unfold bind at 1 ];
  tidy.

Ltac emit_step :=
  unfold bind at 1;
  first
    [ rewrite emitStep_skip by (simpl; set_solver)
    | rewrite emitStep_push by (simpl; set_solver) ];
  tidy.

Ltac close_single :=
  unfold ret at 1; rewrite closeGroup_single by (simpl; lia).

Ltac close_cluster c Hc :=
  unfold ret at 1;
  match goal with
  | |- context [closeGroup ?s] =>
      let Heq := fresh "Heq" in
      destruct (closeGroup_cluster s) as (c & Hc & Heq); [simpl; lia|];
      rewrite Heq; clear Heq; cbn [nearbyLocations] in Hc
  end;
  tidy.

(** ** Membership is decided against the seed *)

(** With S, P, Q on screen at (0,0), (10,0), (19,0) and threshold 10,
    P joins the group of the seed S and Q does not, although Q is
    within 9 pixels of the member P; Q is in no cluster of the result. *)
Lemma seed_only_scenario (locS locP locQ : Location) (map : Map) :
  id locS <> id locP -> id locS <> id locQ -> id locP <> id locQ ->
  projects_to map locS {| x := 0; y := 0 |} ->
  projects_to map locP {| x := 10; y := 0 |} ->
  projects_to map locQ {| x := 19; y := 0 |} ->
  distance_le {| x := 10; y := 0 |} {| x := 19; y := 0 |} 9 = true /\
  exists c rest,
    fst (run (createClusters [locS; locP; locQ] (Some map) 10)) = inr (ItemCluster c :: rest) /\
    locations c = [locS; locP] /\
    forall c', ItemCluster c' ∈ ItemCluster c :: rest -> locQ ∉ locations c'.
Proof.
  intros Hsp Hsq Hpq HS HP HQ. split; [reflexivity|].
  unfold run, createClusters. cbn [length Nat.eqb].
  unfold bind at 1, clusters_new at 1. unfold bind at 1, processed_new at 1.
  cbn [init]. tidy. unfold bind at 1. tidy.
  seed_step. do 3 scan_step. close_cluster c HcS.
  seed_step.
  seed_step. do 3 scan_step. close_single.
  unfold ret at 1.
  unfold bind at 1, result_new at 1. tidy.
  unfold bind at 1. do 3 emit_step. unfold ret, result_get. tidy.
  cbn [fst fmap list_fmap].
  exists c, []. split; [reflexivity|]. split; [assumption|].
  intros c' Hc'. apply elem_of_cons in Hc' as [Hc'|Hc']; [|inversion Hc'].
  inversion Hc'; subst c'. rewrite HcS. intros Hq.
  apply elem_of_cons in Hq as [->|Hq]; [congruence|].
  apply elem_of_cons in Hq as [->|Hq]; [congruence|]. inversion Hq.
Qed.

(** ** Clusters and individual locations of a result *)

Lemma clustersOf_result cs ls :
  clustersOf ((ItemCluster <$> cs) ++ (ItemLocation <$> ls)) = cs.
Proof.
  unfold clustersOf. induction cs as [|c cs IH].
  - induction ls as [|l ls IHl]; [reflexivity|exact IHl].
  - rewrite fmap_cons. cbn [app omap list_omap]. now f_equal.
Qed.

(** ** Points that form no cluster *)

(** Every cluster of a result has at least two members. *)
Lemma createClusters_cluster_size locs map clusterDistance items c :
  fst (run (createClusters locs (Some map) clusterDistance)) = inr items ->
  c ∈ clustersOf items -> (2 <= length (locations c))%nat.
Proof.
  destruct (run _) as [r s'] eqn:Hrun. simpl. intros -> Hc.
  apply createClusters_spec in Hrun as (-> & Hok & _).
  rewrite clustersOf_result in Hc.
  rewrite Forall_forall in Hok. apply Hok in Hc.
  destruct Hc as (seed & others & pt & ctr & -> & Hne & _).
  destruct others; [contradiction|simpl; lia].
Qed.

(** With a map, the result never holds an individual location. *)
Lemma createClusters_no_singleton locs map clusterDistance items :
  fst (run (createClusters locs (Some map) clusterDistance)) = inr items ->
  singletonsOf items = [].
Proof.
  destruct (run _) as [r s'] eqn:Hrun. simpl. intros ->.
  apply createClusters_only_clusters in Hrun as ->.
  unfold singletonsOf. induction (clusters s') as [|c cs IH]; [reflexivity|exact IH].
Qed.

(** C1: A and B are 10 pixels apart and form a cluster at the default
    threshold 50; C, 100 pixels away, is alone.  The result is the
    cluster of A and B and nothing else: C is accounted for neither in a
    cluster nor as an individual location. *)
Theorem isolated_point_is_lost :
  exists c,
    fst (run (createClusters [loc "A" 0 0; loc "B" 0 10; loc "C" 0 100] (Some flatMap) 50))
    = inr [ItemCluster c] /\
    covered [ItemCluster c] = [loc "A" 0 0; loc "B" 0 10] /\
    loc "C" 0 100 ∉ covered [ItemCluster c].
Proof.
  eexists. split; [vm_compute; reflexivity|]. split; [reflexivity|].
  unfold covered; simpl. intros H.
  apply elem_of_cons in H as [H|H]; [discriminate|].
  apply elem_of_cons in H as [H|H]; [discriminate|]. inversion H.
Qed.

(** C2: the group of a single input point has exactly one member; it
    is not emitted at all. *)
Theorem one_member_group_is_omitted :
  fst (run (createClusters [loc "A" 0 0] (Some flatMap) 50)) = inr [].
Proof. vm_compute. reflexivity. Qed.

(** C3: two points at different pixel positions, threshold 0: no
    cluster, and no individual location either. *)
Theorem zero_threshold_returns_nothing :
  projects_to flatMap (loc "A" 0 0) {| x := 0; y := 0 |} /\
  projects_to flatMap (loc "B" 0 10) {| x := 10; y := 0 |} /\
  fst (run (createClusters [loc "A" 0 0; loc "B" 0 10] (Some flatMap) 0)) = inr [].
Proof. split; [reflexivity|]. split; [reflexivity|]. vm_compute. reflexivity. Qed.

(** ** Negative thresholds *)

(** C4, as stated, fails: with threshold -1 the call returns normally,
    and the projection has been called. *)
Lemma negative_threshold_not_rejected :
  -1 < 0 /\
  fst (run (createClusters [loc "A" 0 0] (Some flatMap) (-1))) = inr [] /\
  calls (snd (run (createClusters [loc "A" 0 0] (Some flatMap) (-1))))
  = [latLng (loc "A" 0 0)] /\
  ~ (exists e, fst (run (createClusters [loc "A" 0 0] (Some flatMap) (-1))) = inl e /\
               calls (snd (run (createClusters [loc "A" 0 0] (Some flatMap) (-1)))) = []).
Proof.
  split; [reflexivity|]. split; [vm_compute; reflexivity|].
  split; [vm_compute; reflexivity|].
  intros (e & He & _). vm_compute in He. discriminate.
Qed.

(** ** Clusters do not overlap *)

Lemma NoDup_concat_disjoint {A} (ls : list (list A)) :
  NoDup (concat ls) ->
  (forall l, l ∈ ls -> NoDup l) /\
  (forall i j li lj, i <> j -> ls !! i = Some li -> ls !! j = Some lj ->
     forall v, v ∈ li -> v ∈ lj -> False).
Proof.
  induction ls as [|l0 ls IH]; simpl; intros Hnd.
  { split; [intros l Hl; inversion Hl|]. intros i j li lj _ Hi. now rewrite lookup_nil in Hi. }
  apply NoDup_app in Hnd as (Hl0 & Hdis & Hrest).
  destruct (IH Hrest) as [IH1 IH2]. split.
  - intros l Hl. apply elem_of_cons in Hl as [->|Hl]; auto.
  - assert (Hin : forall k lk v, ls !! k = Some lk -> v ∈ lk -> v ∈ concat ls).
    { intros k lk v Hk Hv. apply list_elem_of_lookup_2 in Hk.
      apply list_elem_of_In, in_concat. exists lk.
      split; now apply list_elem_of_In. }
    intros [|i] [|j] li lj Hij Hi Hj v Hvi Hvj; simpl in *.
    + congruence.
    + inversion Hi; subst. eapply Hdis; eauto.
    + inversion Hj; subst. eapply Hdis; eauto.
    + eapply (IH2 i j); eauto.
Qed.

Lemma memberIds_concat cs :
  memberIds cs = concat ((fun c => id <$> locations c) <$> cs).
Proof.
  induction cs as [|c cs IH]; [reflexivity|].
  unfold memberIds in *. rewrite !fmap_cons. simpl concat.
  now rewrite fmap_app, IH.
Qed.

(** The clusters of a result are the clusters of the final store. *)
Lemma createClusters_clusters locs map clusterDistance items s' :
  run (createClusters locs (Some map) clusterDistance) = (inr items, s') ->
  clustersOf items = clusters s'.
Proof.
  intros H. apply createClusters_spec in H as (-> & _). apply clustersOf_result.
Qed.

(** C9: no identifier occurs twice in the member list of a cluster, and
    no identifier occurs in two clusters of the result.  The set
    [processed] ensures it whether or not the input identifiers are
    distinct. *)
Theorem clusters_are_disjoint (locs : list Location) (map : option Map)
    (clusterDistance : Q) (items : list Item) :
  fst (run (createClusters locs map clusterDistance)) = inr items ->
  (forall c, c ∈ clustersOf items -> NoDup (id <$> locations c)) /\
  (forall i j ci cj, i <> j ->
     clustersOf items !! i = Some ci -> clustersOf items !! j = Some cj ->
     forall l l', l ∈ locations ci -> l' ∈ locations cj -> id l <> id l').
Proof.
  intros Hrun.
  assert (Hnd : NoDup (memberIds (clustersOf items))).
  { destruct map as [map|].
    - destruct (run _) as [r s'] eqn:Heq. simpl in Hrun. subst r.
      rewrite (createClusters_clusters _ _ _ _ _ Heq).
      now apply createClusters_spec in Heq as (_ & _ & Hnd & _).
    - simpl in Hrun. inversion Hrun; subst.
      rewrite <- (app_nil_l (ItemLocation <$> locs)).
      change (@nil Item) with (ItemCluster <$> []).
      rewrite clustersOf_result. constructor. }
  rewrite memberIds_concat in Hnd.
  apply NoDup_concat_disjoint in Hnd as [H1 H2]. split.
  - intros c Hc. apply H1. apply list_elem_of_fmap. eauto.
  - intros i j ci cj Hij Hi Hj l l' Hl Hl' Heq.
    apply (H2 i j (id <$> locations ci) (id <$> locations cj) Hij) with (v := id l).
    + now rewrite list_lookup_fmap, Hi.
    + now rewrite list_lookup_fmap, Hj.
    + now apply list_elem_of_fmap_2.
    + rewrite Heq. now apply list_elem_of_fmap_2.
Qed.

(** ** The centre of a cluster *)

Lemma lowest_singleton v : lowest v [v].
Proof.
  split.
  - intros w Hw. apply list_elem_of_singleton in Hw as ->. apply Qle_refl.
  - exists v. split; [left|reflexivity].
Qed.

Lemma highest_singleton v : highest v [v].
Proof.
  split.
  - intros w Hw. apply list_elem_of_singleton in Hw as ->. apply Qle_refl.
  - exists v. split; [left|reflexivity].
Qed.

Lemma lowest_snoc m vs v : lowest m vs -> lowest (Qmin v m) (vs ++ [v]).
Proof.
  intros [Hle (w & Hw & Heq)]. split.
  - intros u Hu. apply elem_of_app in Hu as [Hu|Hu].
    + eapply Qle_trans; [apply Q.le_min_r|]. now apply Hle.
    + apply list_elem_of_singleton in Hu as ->. apply Q.le_min_l.
  - destruct (Q.min_spec v m) as [[Hlt Hm]|[Hge Hm]].
    + exists v. split; [apply elem_of_app; right; left|]. now rewrite Hm.
    + exists w. split; [apply elem_of_app; now left|]. now rewrite Hm.
Qed.

Lemma highest_snoc m vs v : highest m vs -> highest (Qmax v m) (vs ++ [v]).
Proof.
  intros [Hle (w & Hw & Heq)]. split.
  - intros u Hu. apply elem_of_app in Hu as [Hu|Hu].
    + eapply Qle_trans; [|apply Q.le_max_r]. now apply Hle.
    + apply list_elem_of_singleton in Hu as ->. apply Q.le_max_l.
  - destruct (Q.max_spec v m) as [[Hlt Hm]|[Hge Hm]].
    + exists w. split; [apply elem_of_app; now left|]. now rewrite Hm.
    + exists v. split; [apply elem_of_app; right; left|]. now rewrite Hm.
Qed.

Lemma extend_fold ps : forall seen sw ne,
  cornersOf sw ne seen ->
  exists sw' ne',
    fold_left extend ps {| _southWest := Some sw; _northEast := Some ne |}
    = {| _southWest := Some sw'; _northEast := Some ne' |} /\
    cornersOf sw' ne' (seen ++ ps).
Proof.
  induction ps as [|p ps IH]; intros seen sw ne Hc; simpl.
  - exists sw, ne. now rewrite app_nil_r.
  - unfold extend at 2; simpl.
    destruct (IH (seen ++ [p])
                {| lat := Qmin (lat p) (lat sw); lng := Qmin (lng p) (lng sw) |}
                {| lat := Qmax (lat p) (lat ne); lng := Qmax (lng p) (lng ne) |})
      as (sw' & ne' & Heq & Hc').
    + destruct Hc as (H1 & H2 & H3 & H4). unfold cornersOf. rewrite !fmap_app. simpl.
      repeat split; first [now apply lowest_snoc | now apply highest_snoc].
    + exists sw', ne'. split; [exact Heq|]. now rewrite <- app_assoc in Hc'.
Qed.

Lemma newLatLngBounds_corners p ps :
  exists sw ne,
    newLatLngBounds (p :: ps) = {| _southWest := Some sw; _northEast := Some ne |} /\
    cornersOf sw ne (p :: ps).
Proof.
  unfold newLatLngBounds. simpl. unfold extend at 2; simpl.
  apply (extend_fold ps [p] p p).
  repeat split; first [apply lowest_singleton | apply highest_singleton].
Qed.

(** C7: the centre of every emitted cluster is the midpoint of the
    bounding box of its members: half the sum of the least and the
    greatest member latitude, and likewise for the longitude.  Members
    at (10, 10) and (20, 30) give the centre (15, 20); members at
    latitudes 0, 2 and 10 give the central latitude 5, whereas their
    mean is 4. *)
Theorem centroid_is_bounding_box_midpoint :
  (forall (locs : list Location) (map : Map) (clusterDistance : Q)
          (items : list Item) (c : ClusterGroup),
     fst (run (createClusters locs (Some map) clusterDistance)) = inr items ->
     c ∈ clustersOf items ->
     exists south north west east,
       lowest south (latitudes (locations c)) /\
       highest north (latitudes (locations c)) /\
       lowest west (longitudes (locations c)) /\
       highest east (longitudes (locations c)) /\
       center c = ((south + north) / 2, (west + east) / 2)) /\
  (exists c,
     fst (run (createClusters [loc "A" 10 10; loc "B" 20 30] (Some flatMap) 50))
     = inr [ItemCluster c] /\
     locations c = [loc "A" 10 10; loc "B" 20 30] /\
     fst (center c) == 15 /\ snd (center c) == 20) /\
  (exists c,
     fst (run (createClusters [loc "A" 0 0; loc "B" 2 0; loc "C" 10 0] (Some flatMap) 50))
     = inr [ItemCluster c] /\
     fst (center c) == 5 /\
     arithmeticMean (latitudes (locations c)) == 4).
Proof.
  split; [|split].
  - intros locs map t items c Hrun Hc.
    destruct (run _) as [r s'] eqn:Heq. simpl in Hrun. subst r.
    rewrite (createClusters_clusters _ _ _ _ _ Heq) in Hc.
    apply createClusters_spec in Heq as (_ & Hok & _).
    rewrite Forall_forall in Hok. apply Hok in Hc.
    destruct Hc as (seed & others & pt & ctr & Hloc & _ & _ & _ & _ & Hb & Hctr & Hcen).
    rewrite Hloc, fmap_cons in Hb.
    destruct (newLatLngBounds_corners (latLng seed) (latLng <$> others))
      as (sw & ne & Hbb & H1 & H2 & H3 & H4).
    rewrite Hbb in Hb. rewrite Hb in Hctr. unfold getCenter in Hctr; simpl in Hctr.
    inversion Hctr; subst ctr; clear Hctr. simpl in Hcen.
    exists (lat sw), (lat ne), (lng sw), (lng ne).
    rewrite <- fmap_cons, <- list_fmap_compose in H1, H2, H3, H4.
    unfold latitudes, longitudes. rewrite Hloc.
    split; [exact H1|]. split; [exact H2|]. split; [exact H3|]. split; [exact H4|].
    exact Hcen.
  - eexists. split; [vm_compute; reflexivity|]. split; [reflexivity|].
    split; reflexivity.
  - eexists. split; [vm_compute; reflexivity|]. split; reflexivity.
Qed.

(** ** The comparison with the threshold *)

Lemma projects_to_inj map o q q' :
  projects_to map o q -> projects_to map o q' -> q = q'.
Proof. unfold projects_to. congruence. Qed.

(** One run of the outer callback: while [seed] is the seed, an
    unprocessed location whose pixel distance to the seed is exactly
    [clusterDistance] ends up in the cluster pushed for the seed, and
    one at a greater distance is not added to the seed's group, nor to
    a cluster pushed for it. *)
Lemma seedStep_threshold (locs : list Location) (map : Map) (clusterDistance : Q)
    (seed o : Location) (p q : Point) (s s' : Store) :
  NoDup (id <$> locs) -> o ∈ locs ->
  id seed ∉ processed s -> id o ∉ processed s -> id o <> id seed ->
  projects_to map seed p -> projects_to map o q ->
  seedStep locs map clusterDistance seed s = (inr tt, s') ->
  (distanceTo p q = Q2R clusterDistance ->
   exists c, clusters s' = clusters s ++ [c] /\
             head (locations c) = Some seed /\ o ∈ locations c) /\
  ((Q2R clusterDistance < distanceTo p q)%R ->
   (o ∉ nearbyLocations s') /\
   forall c, c ∈ clusters s' -> o ∈ locations c -> c ∈ clusters s).
Proof.
  intros Hnd Ho Hseed Hnp Hne Hp Hq Hrun.
  destruct (seed_outcome map clusterDistance locs seed p s s' Hseed Hp Hrun)
    as (s2 & Hscan & Hnear & Hclose).
  pose proof (scan_spec _ _ _ _ _ _ _ Hscan) as (Hc & _ & added & Hn & _ & _ & Ha).
  simpl in Hc, Hn.
  assert (Hnot_seed : o <> seed) by congruence.
  split.
  - intros Hdist.
    assert (Hle : distance_le p q clusterDistance = true).
    { apply distance_le_spec. rewrite Hdist. apply Rle_refl. }
    assert (Hin : o ∈ nearbyLocations s2).
    { eapply scan_joins; try eassumption. simpl. set_solver. }
    rewrite Hn in Hin.
    apply elem_of_cons in Hin as [Hin|Hin]; [contradiction|].
    destruct Hclose as [[Hlen _]|[_ (c & Hcl & Hloc)]].
    + rewrite Hn in Hlen. destruct added; [inversion Hin|simpl in Hlen; lia].
    + exists c. rewrite Hcl, Hc, Hloc, Hn. split; [reflexivity|].
      split; [reflexivity|]. now right.
  - intros Hdist.
    assert (Hout : o ∉ nearbyLocations s2).
    { rewrite Hn. intros Hin. apply elem_of_cons in Hin as [Hin|Hin]; [contradiction|].
      destruct (Ha _ Hin) as (_ & _ & q' & Hq' & Hle).
      rewrite (projects_to_inj _ _ _ _ Hq Hq') in Hdist.
      apply distance_le_spec in Hle. lra. }
    split; [now rewrite Hnear|].
    intros c Hcin Hoc.
    destruct Hclose as [[_ Hcl]|[_ (c0 & Hcl & Hloc)]]; rewrite Hcl, Hc in Hcin.
    + assumption.
    + apply elem_of_app in Hcin as [Hcin|Hcin]; [assumption|].
      apply list_elem_of_singleton in Hcin as ->. rewrite Hloc in Hoc. contradiction.
Qed.

(** ** Determinism *)

Section Respects.
Context {A B : Type}.

Lemma respects_ret R (a : A) : respects R R (ret a).
Proof. intros s s' H. now split. Qed.

Lemma respects_bind (R R1 R2 : Store -> Store -> Prop) (m : M A) (k : A -> M B) :
  respects R R1 m -> (forall a, respects R1 R2 (k a)) ->
  (forall s s', R1 s s' -> R2 s s') ->
  respects R R2 (bind m k).
Proof.
  intros Hm Hk Hsub s s' HR. unfold bind.
  destruct (Hm s s' HR) as [Hv Hs].
  destruct (m s) as [[e|a] s1], (m s') as [[e'|a'] s1']; simpl in *;
    try discriminate.
  - split; [congruence|]. now apply Hsub.
  - inversion Hv; subst a'. now apply Hk.
Qed.

Lemma respects_weaken (R R1 R2 : Store -> Store -> Prop) (m : M A) :
  respects R R1 m -> (forall s s', R1 s s' -> R2 s s') -> respects R R2 m.
Proof.
  intros Hm Hsub s s' HR. destruct (Hm s s' HR). split; [assumption|]. now apply Hsub.
Qed.

End Respects.

Lemma respects_forEach {A} R (xs : list A) (f : A -> M unit) :
  (forall v, v ∈ xs -> respects R R (f v)) -> respects R R (forEach xs f).
Proof.
  induction xs as [|v xs IH]; intros Hf; simpl.
  - intros s s' H. now split.
  - apply respects_bind with (R1 := R); [apply Hf; left| |auto].
    intros _. apply IH. intros w Hw. apply Hf. now right.
Qed.

Ltac respects_prim :=
  let s := fresh "s" in let s' := fresh "s'" in let H := fresh "H" in
  intros s s' H; unfold sameResult, sameGroup, sameSeen in *;
  mstep; destruct_and?;
  repeat match goal with Heq : _ = _ |- _ => rewrite ?Heq; clear Heq end;
  repeat split; reflexivity.

Lemma scanStep_respects map pt t o :
  respects sameGroup sameGroup (scanStep map pt t o).
Proof.
  unfold scanStep.
  apply respects_bind with (R1 := sameGroup); [respects_prim| |auto].
  intros [|]; [apply respects_ret|].
  apply respects_bind with (R1 := sameGroup); [|intros q|auto].
  - intros s s' H. unfold project; simpl. split; [reflexivity|].
    unfold sameGroup, sameSeen in *; simpl; tauto.
  - destruct (distance_le pt q t); [|apply respects_ret].
    apply respects_bind with (R1 := sameGroup); [respects_prim| |auto].
    intros _. respects_prim.
Qed.

Lemma closeGroup_respects : respects sameGroup sameSeen closeGroup.
Proof.
  intros s s' (Hseen & Hn). unfold closeGroup, newCluster. mstep. rewrite <- Hn.
  destruct (1 <? length (nearbyLocations s))%nat; [|now split].
  destruct (getCenter _) as [e|ctr]; simpl; [now split|].
  split; [reflexivity|]. unfold sameSeen in *; simpl. intuition congruence.
Qed.

Lemma seedStep_respects locs map t l :
  respects sameSeen sameSeen (seedStep locs map t l).
Proof.
  unfold seedStep.
  apply respects_bind with (R1 := sameSeen); [respects_prim| |auto].
  intros [|]; [apply respects_ret|].
  apply respects_bind with (R1 := sameSeen); [|intros pt|auto].
  { intros s s' H. unfold project; simpl. split; [reflexivity|].
    unfold sameSeen in *; simpl; tauto. }
  apply respects_bind with (R1 := sameGroup);
    [respects_prim| |unfold sameGroup; tauto].
  intros _.
  apply respects_bind with (R1 := sameGroup);
    [respects_prim| |unfold sameGroup; tauto].
  intros _.
  apply respects_bind with (R1 := sameGroup);
    [|intros _; apply closeGroup_respects|unfold sameGroup; tauto].
  apply respects_forEach. intros o _. apply scanStep_respects.
Qed.

Lemma emitStep_respects l : respects sameResult sameResult (emitStep l).
Proof.
  unfold emitStep.
  apply respects_bind with (R1 := sameResult); [respects_prim| |auto].
  intros [|]; simpl; [apply respects_ret|respects_prim].
Qed.

(** The value returned does not depend on the store the call starts
    from. *)
Lemma createClusters_respects locs map t :
  respects (fun _ _ => True) (fun _ _ => True) (createClusters locs map t).
Proof.
  unfold createClusters. destruct map as [map|]; [|now intros s s' _].
  destruct (length locs =? 0)%nat; [now intros s s' _|].
  apply respects_bind with (R1 := fun s s' => clusters s = clusters s');
    [respects_prim|intros _|auto].
  apply respects_bind with (R1 := sameSeen); [respects_prim|intros _|auto].
  apply respects_bind with (R1 := sameSeen); [|intros _|auto].
  { apply respects_forEach. intros l _. apply seedStep_respects. }
  apply respects_bind with (R1 := sameResult); [respects_prim|intros _|auto].
  apply respects_bind with (R1 := sameResult); [|intros _|auto].
  { apply respects_forEach. intros l _. apply emitStep_respects. }
  respects_prim.
Qed.

Lemma bind_ext {A B} (m m' : M A) (k k' : A -> M B) s :
  m s = m' s -> (forall a s1, k a s1 = k' a s1) -> bind m k s = bind m' k' s.
Proof.
  intros Hm Hk. unfold bind. rewrite Hm.
  destruct (m' s) as [[e|a] s1]; [reflexivity|apply Hk].
Qed.

Section Agreement.
Variables (locs : list Location) (map map' : Map) (clusterDistance : Q).
Hypothesis agree : forall l, l ∈ locs ->
  latLngToContainerPoint map (latLng l) = latLngToContainerPoint map' (latLng l).

Lemma project_ext l s : l ∈ locs -> project map (latLng l) s = project map' (latLng l) s.
Proof. intros Hl. unfold project. now rewrite (agree l Hl). Qed.

Lemma scanStep_ext pt o s :
  o ∈ locs ->
  scanStep map pt clusterDistance o s = scanStep map' pt clusterDistance o s.
Proof.
  intros Ho. unfold scanStep. apply bind_ext; [reflexivity|].
  intros [|] s1; [reflexivity|].
  apply bind_ext; [now apply project_ext|reflexivity].
Qed.

Lemma seedStep_ext l s :
  l ∈ locs ->
  seedStep locs map clusterDistance l s = seedStep locs map' clusterDistance l s.
Proof.
  intros Hl. unfold seedStep. apply bind_ext; [reflexivity|].
  intros [|] s1; [reflexivity|].
  apply bind_ext; [now apply project_ext|]. intros pt s2.
  apply bind_ext; [reflexivity|]. intros _ s3.
  apply bind_ext; [reflexivity|]. intros _ s4.
  apply bind_ext; [|reflexivity].
  apply forEach_ext. intros o s5 Ho. now apply scanStep_ext.
Qed.

(** The projection matters only at the input locations. *)
Lemma createClusters_ext s :
  createClusters locs (Some map) clusterDistance s
  = createClusters locs (Some map') clusterDistance s.
Proof.
  unfold createClusters. destruct (length locs =? 0)%nat; [reflexivity|].
  apply bind_ext; [reflexivity|]. intros _ s1.
  apply bind_ext; [reflexivity|]. intros _ s2.
  apply bind_ext; [|reflexivity].
  apply forEach_ext. intros l s3 Hl. now apply seedStep_ext.
Qed.
End Agreement.

(** The value [createClusters] returns is determined by the input
    list, the threshold and the pixel positions of the input points.
    It does not depend on the store the call starts from (what an
    earlier call left behind, the trace so far), so a repeated call
    returns the same value; the locals are initialised afresh by every
    call. *)
Lemma createClusters_same_value (locs : list Location) (map map' : Map)
    (handle : option Map) (clusterDistance : Q) (s s' : Store) :
  (forall l, l ∈ locs ->
     latLngToContainerPoint map (latLng l) = latLngToContainerPoint map' (latLng l)) ->
  fst (createClusters locs (Some map) clusterDistance s)
  = fst (createClusters locs (Some map') clusterDistance s') /\
  fst (createClusters locs handle clusterDistance s)
  = fst (createClusters locs handle clusterDistance s') /\
  fst (createClusters locs handle clusterDistance
         (snd (createClusters locs handle clusterDistance s)))
  = fst (createClusters locs handle clusterDistance s).
Proof.
  intros Hagree. split; [|split].
  - rewrite (createClusters_ext locs map map' clusterDistance Hagree s).
    now apply (createClusters_respects locs (Some map') clusterDistance s s').
  - now apply (createClusters_respects locs handle clusterDistance).
  - now apply (createClusters_respects locs handle clusterDistance).
Qed.

(** ** A negative threshold is not rejected *)

Lemma extends_bind {A B} (m : M A) (k : A -> M B) :
  extends m -> (forall a, extends (k a)) -> extends (bind m k).
Proof.
  intros Hm Hk s. unfold bind. specialize (Hm s).
  destruct (m s) as [[e|a] s1]; simpl in *; [assumption|].
  etransitivity; [exact Hm|apply Hk].
Qed.

Lemma extends_forEach {A} (xs : list A) (f : A -> M unit) :
  (forall v, extends (f v)) -> extends (forEach xs f).
Proof.
  intros Hf. induction xs as [|v xs IH]; simpl; [now intros s|].
  apply extends_bind; auto.
Qed.

Ltac extends_prim :=
  let s := fresh "s" in intros s; mstep;
  first [ reflexivity | now apply prefix_app_r ].

Lemma project_extends map ll : extends (project map ll).
Proof. intros s. unfold project; simpl. now apply prefix_app_r. Qed.

Lemma scanStep_extends map pt t o : extends (scanStep map pt t o).
Proof.
  unfold scanStep. apply extends_bind; [extends_prim|].
  intros [|]; [extends_prim|].
  apply extends_bind; [apply project_extends|]. intros q.
  destruct (distance_le pt q t); [|extends_prim].
  apply extends_bind; [extends_prim|intros _; extends_prim].
Qed.

Lemma closeGroup_extends : extends closeGroup.
Proof.
  intros s. unfold closeGroup, newCluster. mstep.
  destruct (1 <? length (nearbyLocations s))%nat; [|reflexivity].
  destruct (getCenter _); reflexivity.
Qed.

Lemma seedStep_extends locs map t l : extends (seedStep locs map t l).
Proof.
  unfold seedStep. apply extends_bind; [extends_prim|].
  intros [|]; [extends_prim|].
  apply extends_bind; [apply project_extends|]. intros pt.
  apply extends_bind; [extends_prim|]. intros _.
  apply extends_bind; [extends_prim|]. intros _.
  apply extends_bind; [|intros _; apply closeGroup_extends].
  apply extends_forEach. intros o. apply scanStep_extends.
Qed.

Lemma emitStep_extends l : extends (emitStep l).
Proof.
  unfold emitStep. apply extends_bind; [extends_prim|].
  intros [|]; simpl; extends_prim.
Qed.

Lemma distance_le_negative p q t : t < 0 -> distance_le p q t = false.
Proof.
  intros Ht. unfold distance_le.
  destruct (Qle_bool 0 t) eqn:H0; [|reflexivity].
  apply Qle_bool_iff in H0. exfalso. apply (Qlt_not_le _ _ Ht H0).
Qed.

Section Returns.
Variables (locs : list Location) (map : Map) (clusterDistance : Q).
Hypothesis total : forall l, l ∈ locs -> exists q, projects_to map l q.

Lemma scanStep_returns pt o s :
  o ∈ locs -> exists s', scanStep map pt clusterDistance o s = (inr tt, s').
Proof.
  intros Ho. destruct (total o Ho) as [q Hq].
  destruct (decide (id o ∈ processed s)) as [Hin|Hin].
  - rewrite scanStep_skip by assumption. eauto.
  - destruct (distance_le pt q clusterDistance) eqn:Hd.
    + erewrite scanStep_join by eassumption. eauto.
    + erewrite scanStep_far by eassumption. eauto.
Qed.

Lemma closeGroup_returns s : exists s', closeGroup s = (inr tt, s').
Proof.
  destruct (le_lt_dec (length (nearbyLocations s)) 1) as [Hle|Hlt].
  - rewrite closeGroup_single by assumption. eauto.
  - destruct (closeGroup_cluster s Hlt) as (c & _ & ->). eauto.
Qed.

Lemma seedStep_returns l s :
  l ∈ locs -> exists s', seedStep locs map clusterDistance l s = (inr tt, s').
Proof.
  intros Hl. destruct (total l Hl) as [pt Hpt].
  destruct (decide (id l ∈ processed s)) as [Hin|Hin].
  - rewrite seedStep_skip by assumption. eauto.
  - erewrite seedStep_seed by eassumption. unfold bind.
    match goal with |- context [forEach locs ?f ?s1] =>
      destruct (forEach_returns locs f) with (s := s1) as [s2 ->] end.
    + intros o s3 Ho. now apply scanStep_returns.
    + apply closeGroup_returns.
Qed.

(** A call whose projection does not throw on the input returns. *)
Lemma createClusters_returns :
  exists items, fst (run (createClusters locs (Some map) clusterDistance)) = inr items.
Proof.
  unfold run, createClusters. destruct (length locs =? 0)%nat; [simpl; eauto|].
  unfold bind at 1, clusters_new at 1. unfold bind at 1, processed_new at 1.
  unfold bind at 1.
  match goal with |- context [forEach locs ?f ?s1] =>
    destruct (forEach_returns locs f) with (s := s1) as [s2 ->] end.
  { intros l s3 Hl. now apply seedStep_returns. }
  unfold bind at 1, result_new at 1. unfold bind at 1. rewrite emit_spec.
  unfold result_get. simpl. eauto.
Qed.
End Returns.

Lemma bind_after {A B} (m : M A) (k : A -> M B) s :
  (forall a, extends (k a)) ->
  calls (snd (m s)) `prefix_of` calls (snd (bind m k s)).
Proof.
  intros Hk. unfold bind. destruct (m s) as [[e|a] s1]; simpl; [reflexivity|apply Hk].
Qed.

(** An unprocessed location is projected as soon as it is visited. *)
Lemma seedStep_first_call locs map t l s :
  id l ∉ processed s ->
  exists more, calls (snd (seedStep locs map t l s)) = calls s ++ latLng l :: more.
Proof.
  intros Hin. unfold seedStep. unfold bind at 1, processed_has at 1. simpl.
  rewrite bool_decide_eq_false_2 by assumption.
  match goal with |- context [bind (project map (latLng l)) ?k s] =>
    pose proof (bind_after (project map (latLng l)) k s) as Hpre end.
  destruct Hpre as [more Hmore].
  - intros pt. apply extends_bind; [extends_prim|]. intros _.
    apply extends_bind; [extends_prim|]. intros _.
    apply extends_bind; [|intros _; apply closeGroup_extends].
    apply extends_forEach. intros o. apply scanStep_extends.
  - exists more. rewrite Hmore. unfold project; simpl. now rewrite <- app_assoc.
Qed.

(** C4, amended: the threshold is not validated.  With a negative
    threshold, and a projection that does not throw on the input, the
    call returns normally; its result holds no cluster; and the
    projection has been called, first of all on the first location. *)
Theorem negative_threshold_forms_no_cluster (locs : list Location) (map : Map)
    (clusterDistance : Q) :
  clusterDistance < 0 ->
  (forall l, l ∈ locs -> exists q, projects_to map l q) ->
  exists items,
    fst (run (createClusters locs (Some map) clusterDistance)) = inr items /\
    clustersOf items = [] /\
    forall l rest, locs = l :: rest ->
      exists more,
        calls (snd (run (createClusters locs (Some map) clusterDistance)))
        = latLng l :: more.
Proof.
  intros Hneg Htotal.
  destruct (createClusters_returns locs map clusterDistance Htotal) as [items Hitems].
  exists items. split; [assumption|]. split.
  - destruct (run _) as [r s'] eqn:Hrun. simpl in Hitems. subst r.
    rewrite (createClusters_clusters _ _ _ _ _ Hrun).
    apply createClusters_spec in Hrun as (_ & Hok & _).
    destruct (clusters s') as [|c cs]; [reflexivity|].
    apply Forall_cons in Hok as [Hc _].
    destruct Hc as (seed & others & pt & ctr & _ & Hne & _ & _ & Hall & _).
    destruct others as [|o others]; [contradiction|].
    destruct (Hall o) as (_ & q & _ & Hd); [left|].
    now rewrite distance_le_negative in Hd.
  - intros l rest ->. clear Hitems.
    unfold run, createClusters. cbn [length Nat.eqb].
    unfold bind at 1, clusters_new at 1. unfold bind at 1, processed_new at 1.
    cbn [forEach init clusters processed nearbyLocations result calls].
    match goal with |- context [bind (bind ?m ?k1) ?k2 ?s0] =>
      destruct (bind_after (bind m k1) k2 s0) as [more2 ->];
      [|destruct (bind_after m k1 s0) as [more1 ->];
        [|destruct (seedStep_first_call (l :: rest) map clusterDistance l s0)
            as [more0 ->]; [simpl; set_solver|]]]
    end.
    + intros _. apply extends_bind; [extends_prim|]. intros _.
      apply extends_bind; [|intros _; extends_prim].
      apply (extends_forEach (l :: rest)). intros v. apply emitStep_extends.
    + intros _. apply extends_forEach. intros v. apply seedStep_extends.
    + simpl. eauto.
Qed.

(** ** The theorems at concrete inputs *)

Lemma flatMap_total (l : Location) : exists q, projects_to flatMap l q.
Proof. eexists. reflexivity. Qed.

Lemma negative_threshold_forms_no_cluster_witness :
  -1 < 0 /\
  exists items,
    fst (run (createClusters [loc "A" 0 0; loc "B" 0 10] (Some flatMap) (-1))) = inr items /\
    clustersOf items = [] /\
    forall l rest, [loc "A" 0 0; loc "B" 0 10] = l :: rest ->
      exists more,
        calls (snd (run (createClusters [loc "A" 0 0; loc "B" 0 10] (Some flatMap) (-1))))
        = latLng l :: more.
Proof.
  split; [reflexivity|].
  apply (negative_threshold_forms_no_cluster [loc "A" 0 0; loc "B" 0 10] flatMap (-1)).
  - reflexivity.
  - intros l _. apply flatMap_total.
Defined.

Lemma distanceTo_ten :
  distanceTo {| x := 0; y := 0 |} {| x := 10; y := 0 |} = Q2R 10.
Proof.
  unfold distanceTo.
  replace (Q2R (distance2 {| x := 0; y := 0 |} {| x := 10; y := 0 |}))
    with (Q2R 10 * Q2R 10)%R.
  - apply sqrt_square. replace 0%R with (Q2R 0) by apply RMicromega.Q2R_0.
    apply Qle_Rle. discriminate.
  - rewrite <- Q2R_mult. apply Qeq_eqR. reflexivity.
Qed.

Lemma centroid_is_bounding_box_midpoint_witness :
  exists south north west east,
    lowest south (latitudes (locations sampleCluster)) /\
    highest north (latitudes (locations sampleCluster)) /\
    lowest west (longitudes (locations sampleCluster)) /\
    highest east (longitudes (locations sampleCluster)) /\
    center sampleCluster = ((south + north) / 2, (west + east) / 2).
Proof.
  apply (proj1 centroid_is_bounding_box_midpoint
           [loc "A" 10 10; loc "B" 20 30] flatMap 50 [ItemCluster sampleCluster]).
  - vm_compute. reflexivity.
  - left.
Defined.

Lemma clusters_are_disjoint_witness :
  (forall c, c ∈ clustersOf sampleItems -> NoDup (id <$> locations c)) /\
  (forall i j ci cj, i <> j ->
     clustersOf sampleItems !! i = Some ci -> clustersOf sampleItems !! j = Some cj ->
     forall l l', l ∈ locations ci -> l' ∈ locations cj -> id l <> id l').
Proof.
  apply (clusters_are_disjoint
           [loc "A" 0 0; loc "B" 0 10; loc "C" 0 200; loc "D" 0 210] (Some flatMap) 50).
  vm_compute. reflexivity.
Defined.

(** ** What the clusters hold *)

(** The clusters of a result, whatever the map handle. *)
Lemma createClusters_clusters_ok locs map clusterDistance items :
  fst (run (createClusters locs (Some map) clusterDistance)) = inr items ->
  items = ItemCluster <$> clustersOf items /\
  Forall (cluster_ok locs map clusterDistance) (clustersOf items) /\
  NoDup (memberIds (clustersOf items)).
Proof.
  destruct (run _) as [r s'] eqn:Hrun. simpl. intros ->.
  pose proof (createClusters_clusters _ _ _ _ _ Hrun) as Hcs.
  pose proof (createClusters_only_clusters _ _ _ _ _ Hrun) as Hitems.
  apply createClusters_spec in Hrun as (_ & Hok & Hnd & _).
  rewrite Hcs. auto.
Qed.

Lemma cluster_ok_members locs map clusterDistance c l :
  cluster_ok locs map clusterDistance c -> l ∈ locations c -> l ∈ locs.
Proof.
  intros (seed & others & pt & ctr & -> & _ & Hseed & _ & Hall & _) Hl.
  apply elem_of_cons in Hl as [->|Hl]; [assumption|]. now destruct (Hall l Hl).
Qed.

Lemma updateClusters_createClusters mapRef locs clusterDistance s :
  updateClusters mapRef locs clusterDistance s
  = createClusters locs mapRef clusterDistance s.
Proof.
  unfold updateClusters, createClusters. destruct mapRef as [m|]; [|reflexivity].
  destruct locs; reflexivity.
Qed.

Lemma updateClusters_members mapRef locs clusterDistance items c l :
  fst (run (updateClusters mapRef locs clusterDistance)) = inr items ->
  c ∈ clustersOf items -> l ∈ locations c -> l ∈ locs.
Proof.
  unfold run. rewrite updateClusters_createClusters. intros Hrun Hc Hl.
  destruct mapRef as [map|].
  - apply createClusters_clusters_ok in Hrun as (_ & Hok & _).
    rewrite Forall_forall in Hok. eapply cluster_ok_members; eauto.
  - simpl in Hrun. inversion Hrun; subst.
    rewrite <- (app_nil_l (ItemLocation <$> locs)) in Hc.
    change (@nil Item) with (ItemCluster <$> []) in Hc.
    rewrite clustersOf_result in Hc. inversion Hc.
Qed.

Lemma memberIds_length cs : length (memberIds cs) = sum_list (badge <$> cs).
Proof.
  induction cs as [|c cs IH]; [reflexivity|].
  change (c :: cs) with ([c] ++ cs). rewrite memberIds_app, length_app, IH.
  rewrite memberIds_singleton, length_fmap. reflexivity.
Qed.

(** X1: with a map, the numbers printed on the cluster icons add up to
    at most the number of locations given, every icon shows at least 2,
    and so the result has at most half as many items as there are
    locations. *)
Theorem badges_are_bounded (map : Map) (locs : list Location)
    (clusterDistance : Q) (items : list Item) :
  fst (run (updateClusters (Some map) locs clusterDistance)) = inr items ->
  (sum_list (badge <$> clustersOf items) <= length locs)%nat /\
  (forall c, c ∈ clustersOf items -> (2 <= badge c)%nat) /\
  (2 * length items <= length locs)%nat.
Proof.
  unfold run. rewrite updateClusters_createClusters. intros Hrun.
  apply createClusters_clusters_ok in Hrun as (Hitems & Hok & Hnd).
  rewrite Forall_forall in Hok.
  assert (Hsum : (sum_list (badge <$> clustersOf items) <= length locs)%nat).
  { rewrite <- memberIds_length, <- (length_fmap id locs).
    apply submseteq_length, NoDup_submseteq; [assumption|].
    intros i Hi. unfold memberIds in Hi.
    apply list_elem_of_fmap in Hi as (l & -> & Hl).
    apply list_elem_of_fmap_2.
    apply list_elem_of_In, in_concat in Hl as (ls & Hls & Hl).
    apply list_elem_of_In, list_elem_of_fmap in Hls as (c & -> & Hc).
    apply (cluster_ok_members locs map clusterDistance c l); [now apply Hok|].
    now apply list_elem_of_In. }
  assert (Htwo : forall c, c ∈ clustersOf items -> (2 <= badge c)%nat).
  { intros c Hc. destruct (Hok c Hc) as (seed & others & pt & ctr & Hloc & Hne & _).
    unfold badge. rewrite Hloc. destruct others; [contradiction|simpl; lia]. }
  split; [assumption|]. split; [assumption|].
  rewrite Hitems, length_fmap.
  assert (H2 : (2 * length (clustersOf items) <= sum_list (badge <$> clustersOf items))%nat).
  { clear -Htwo. induction (clustersOf items) as [|c cs IH]; [simpl; lia|].
    rewrite fmap_cons. simpl sum_list. simpl length.
    specialize (Htwo c (list_elem_of_here _ _)) as Hc.
    assert (IH' : (2 * length cs <= sum_list (badge <$> cs))%nat).
    { apply IH. intros c' Hc'. apply Htwo. now right. }
    lia. }
  lia.
Qed.

(** ** The extent of a cluster on screen *)

Lemma distance_le_self p t : 0 <= t -> distance_le p p t = true.
Proof.
  intros Ht. unfold distance_le. apply andb_true_iff. split; apply Qle_bool_iff.
  - assumption.
  - unfold distance2. generalize (x p) (y p). intros a b.
    assert (Hz : (a - a) * (a - a) + (b - b) * (b - b) == 0) by ring.
    rewrite Hz. generalize t Ht. intros u Hu. Lqa.nra.
Qed.

Lemma distance_le_nonneg p q t : distance_le p q t = true -> 0 <= t.
Proof.
  unfold distance_le. intros H. apply andb_true_iff in H as [H _].
  now apply Qle_bool_iff.
Qed.

(** Two positions within [t] of a third are within [2 * t] of each
    other. *)
Lemma distance_le_twice p q r t :
  distance_le p q t = true -> distance_le p r t = true ->
  distance_le q r (2 * t) = true.
Proof.
  unfold distance_le, distance2. rewrite !andb_true_iff, !Qle_bool_iff.
  generalize (x p) (y p) (x q) (y q) (x r) (y r).
  intros px py qx qy rx ry [Ht Hq] [_ Hr].
  split; [Lqa.lra|].
  assert (Hsq : 0 <= ((qx - px) + (rx - px)) * ((qx - px) + (rx - px))
                     + ((qy - py) + (ry - py)) * ((qy - py) + (ry - py))).
  { generalize ((qx - px) + (rx - px)) ((qy - py) + (ry - py)). intros a b. Lqa.nra. }
  Lqa.lra.
Qed.

(** X2: on screen, every member of a cluster is within
    [clusterDistance] of the cluster's first member, and any two
    members are within twice [clusterDistance] of each other. *)
Theorem cluster_extent (locs : list Location) (map : Map) (clusterDistance : Q)
    (items : list Item) (c : ClusterGroup) :
  fst (run (createClusters locs (Some map) clusterDistance)) = inr items ->
  c ∈ clustersOf items ->
  exists seed pt,
    head (locations c) = Some seed /\ projects_to map seed pt /\
    (forall m q, m ∈ locations c -> projects_to map m q ->
       (distanceTo pt q <= Q2R clusterDistance)%R) /\
    (forall m1 m2 q1 q2, m1 ∈ locations c -> m2 ∈ locations c ->
       projects_to map m1 q1 -> projects_to map m2 q2 ->
       (distanceTo q1 q2 <= 2 * Q2R clusterDistance)%R).
Proof.
  intros Hrun Hc.
  apply createClusters_clusters_ok in Hrun as (_ & Hok & _).
  rewrite Forall_forall in Hok.
  destruct (Hok c Hc) as (seed & others & pt & ctr & Hloc & Hne & _ & Hpt & Hall & _).
  assert (Hnear : forall m q, m ∈ locations c -> projects_to map m q ->
            distance_le pt q clusterDistance = true).
  { intros m q Hm Hq. rewrite Hloc in Hm. apply elem_of_cons in Hm as [->|Hm].
    - rewrite (projects_to_inj _ _ _ _ Hq Hpt). apply distance_le_self.
      destruct others as [|o others]; [contradiction|].
      destruct (Hall o) as (_ & qo & _ & Hd); [left|].
      now apply distance_le_nonneg in Hd.
    - destruct (Hall m Hm) as (_ & q' & Hq' & Hd).
      now rewrite (projects_to_inj _ _ _ _ Hq Hq'). }
  exists seed, pt. split; [now rewrite Hloc|]. split; [assumption|]. split.
  - intros m q Hm Hq. apply distance_le_spec. eauto.
  - intros m1 m2 q1 q2 Hm1 Hm2 Hq1 Hq2.
    replace (2 * Q2R clusterDistance)%R with (Q2R (2 * clusterDistance)).
    + apply distance_le_spec. apply distance_le_twice with (p := pt); eauto.
    + rewrite Q2R_mult. f_equal. unfold Q2R; simpl. lra.
Qed.

(** ** Exceptions *)

Section Throws.
Variables (locs : list Location) (map : Map) (clusterDistance : Q).

Lemma scanStep_throws pt o s e s' :
  scanStep map pt clusterDistance o s = (inl e, s') ->
  latLngToContainerPoint map (latLng o) = inl e.
Proof.
  unfold scanStep. mstep. case_bool_decide as Hin; [discriminate|].
  destruct (latLngToContainerPoint map (latLng o)) as [e'|q]; [congruence|].
  destruct (distance_le pt q clusterDistance); discriminate.
Qed.

Lemma scan_throws pt xs : forall s e s',
  forEach xs (scanStep map pt clusterDistance) s = (inl e, s') ->
  exists o, o ∈ xs /\ latLngToContainerPoint map (latLng o) = inl e.
Proof.
  induction xs as [|o xs IH]; intros s e s' H; simpl in H; [discriminate|].
  unfold bind at 1 in H.
  destruct (scanStep map pt clusterDistance o s) as [[e1|[]] s1] eqn:Ho.
  - inversion H; subst. exists o. split; [left|]. eapply scanStep_throws; eauto.
  - destruct (IH _ _ _ H) as (o' & Ho' & He). exists o'. split; [now right|assumption].
Qed.

Lemma seedStep_throws l s e s' :
  l ∈ locs ->
  seedStep locs map clusterDistance l s = (inl e, s') ->
  exists o, o ∈ locs /\ latLngToContainerPoint map (latLng o) = inl e.
Proof.
  intros Hl H. destruct (decide (id l ∈ processed s)) as [Hin|Hin].
  { rewrite seedStep_skip in H by assumption. discriminate. }
  destruct (latLngToContainerPoint map (latLng l)) as [e1|pt] eqn:Hpt.
  - exists l. split; [assumption|]. rewrite Hpt. f_equal.
    unfold seedStep in H. mstep. rewrite bool_decide_eq_false_2 in H by assumption.
    rewrite Hpt in H. congruence.
  - erewrite seedStep_seed in H by eassumption. unfold bind in H.
    match type of H with context [forEach locs ?f ?s1] =>
      destruct (forEach locs f s1) as [[e1|[]] s2] eqn:Hscan end.
    + inversion H; subst. eapply scan_throws; eauto.
    + destruct (closeGroup_returns s2) as [s3 Hclose]. congruence.
Qed.

Lemma seeds_throw xs : xs ⊆ locs -> forall s e s',
  forEach xs (seedStep locs map clusterDistance) s = (inl e, s') ->
  exists o, o ∈ locs /\ latLngToContainerPoint map (latLng o) = inl e.
Proof.
  induction xs as [|l xs IH]; intros Hsub s e s' H; simpl in H; [discriminate|].
  unfold bind at 1 in H.
  destruct (seedStep locs map clusterDistance l s) as [[e1|[]] s1] eqn:Hl.
  - inversion H; subst. eapply seedStep_throws; [|eassumption]. apply Hsub. left.
  - eapply IH; [|eassumption]. set_solver.
Qed.

(** A scan that returns has projected every location it met
    unprocessed (identifiers being distinct). *)
Lemma scan_projects_all pt xs : forall s s' o,
  forEach xs (scanStep map pt clusterDistance) s = (inr tt, s') ->
  NoDup (id <$> xs) -> o ∈ xs -> id o ∉ processed s ->
  exists q, projects_to map o q.
Proof.
  induction xs as [|v xs IH]; intros s s' o H Hnd Ho Hnp; [inversion Ho|].
  simpl in H. unfold bind at 1 in H.
  destruct (scanStep map pt clusterDistance v s) as [[e|[]] s1] eqn:Hv; [discriminate|].
  rewrite fmap_cons in Hnd. apply NoDup_cons in Hnd as [Hfresh Hnd].
  apply elem_of_cons in Ho as [->|Ho].
  - destruct (latLngToContainerPoint map (latLng v)) as [e|q] eqn:Hq; [|now exists q].
    unfold scanStep in Hv. mstep. rewrite bool_decide_eq_false_2 in Hv by assumption.
    rewrite Hq in Hv. discriminate.
  - apply (IH s1 s' o); try assumption.
    apply scanStep_processed in Hv. intros Hin. apply Hv in Hin.
    apply elem_of_union in Hin as [Hin|Hin]; [|contradiction].
    apply elem_of_singleton in Hin. apply Hfresh. rewrite <- Hin.
    now apply list_elem_of_fmap_2.
Qed.

Lemma createClusters_returned_projects items :
  NoDup (id <$> locs) ->
  fst (run (createClusters locs (Some map) clusterDistance)) = inr items ->
  forall l, l ∈ locs -> exists q, projects_to map l q.
Proof.
  intros Hnd Hrun l Hl. destruct locs as [|l0 rest] eqn:Hlocs; [inversion Hl|].
  rewrite <- Hlocs in *.
  unfold run, createClusters in Hrun.
  replace (length locs =? 0)%nat with false in Hrun by now subst.
  unfold bind at 1, clusters_new at 1 in Hrun.
  unfold bind at 1, processed_new at 1 in Hrun. unfold bind at 1 in Hrun.
  cbn [init clusters processed nearbyLocations result calls] in Hrun.
  rewrite Hlocs in Hrun at 1. cbn [forEach] in Hrun. unfold bind at 1 in Hrun.
  destruct (seedStep locs map clusterDistance l0 _) as [[e|[]] s1] eqn:Hseed;
    [discriminate|].
  clear Hrun.
  destruct (latLngToContainerPoint map (latLng l0)) as [e|pt] eqn:Hpt.
  { unfold seedStep in Hseed. mstep.
    rewrite bool_decide_eq_false_2 in Hseed by set_solver.
    rewrite Hpt in Hseed. discriminate. }
  apply (seed_outcome map clusterDistance locs l0 pt) in Hseed
    as (s2 & Hscan & _); [|simpl; set_solver|assumption].
  rewrite Hlocs in Hl. apply elem_of_cons in Hl as [->|Hl]; [now exists pt|].
  apply (scan_projects_all _ _ _ _ l Hscan); [assumption|subst; now right|].
  simpl. rewrite Hlocs, fmap_cons in Hnd. apply NoDup_cons in Hnd as [Hfresh _].
  intros Hin. apply Hfresh.
  assert (id l = id l0) as <- by set_solver. now apply list_elem_of_fmap_2.
Qed.
End Throws.

(** X3: the only exceptions a call throws are those of the projection
    on an input location; and, identifiers being distinct, the call
    returns exactly when the projection throws on no input location. *)
Theorem projection_failure_only (locs : list Location) (map : Map)
    (clusterDistance : Q) :
  (forall e, fst (run (createClusters locs (Some map) clusterDistance)) = inl e ->
     exists l, l ∈ locs /\ latLngToContainerPoint map (latLng l) = inl e) /\
  (NoDup (id <$> locs) ->
     (exists items, fst (run (createClusters locs (Some map) clusterDistance)) = inr items)
     <-> (forall l, l ∈ locs -> exists q, projects_to map l q)).
Proof.
  split.
  - intros e Hrun. unfold run, createClusters in Hrun.
    destruct (length locs =? 0)%nat; [discriminate|].
    unfold bind at 1, clusters_new at 1 in Hrun.
    unfold bind at 1, processed_new at 1 in Hrun. unfold bind at 1 in Hrun.
    match type of Hrun with context [forEach locs ?f ?s1] =>
      destruct (forEach locs f s1) as [[e1|[]] s2] eqn:Hseeds end.
    + simpl in Hrun. inversion Hrun; subst.
      eapply seeds_throw; [|eassumption]. reflexivity.
    + unfold bind at 1, result_new at 1 in Hrun. unfold bind at 1 in Hrun.
      rewrite emit_spec in Hrun. discriminate.
  - intros Hnd. split.
    + intros [items Hitems]. eapply createClusters_returned_projects; eauto.
    + apply createClusters_returns.
Qed.

(** ** How often the projection is called *)

Lemma filter_length_mono {A} (P Q : A -> Prop) `{!forall v, Decision (P v)}
    `{!forall v, Decision (Q v)} (xs : list A) :
  (forall v, P v -> Q v) -> (length (filter P xs) <= length (filter Q xs))%nat.
Proof.
  intros HPQ. induction xs as [|v xs IH]; [reflexivity|].
  rewrite !filter_cons. destruct (decide (P v)) as [HP|HP].
  - rewrite decide_True by auto. simpl. lia.
  - destruct (decide (Q v)); simpl; lia.
Qed.

Section Calls.
Variables (locs : list Location) (map : Map) (clusterDistance : Q).

Lemma scanStep_keeps_processed pt o s r s1 :
  scanStep map pt clusterDistance o s = (r, s1) -> processed s ⊆ processed s1.
Proof.
  unfold scanStep. mstep. case_bool_decide as Hin.
  - intros Heq; inversion Heq; subst. set_solver.
  - destruct (latLngToContainerPoint map (latLng o)) as [e|q].
    + intros Heq; inversion Heq; subst. simpl. set_solver.
    + destruct (distance_le pt q clusterDistance);
        intros Heq; inversion Heq; subst; simpl; set_solver.
Qed.

Lemma adds_nothing xs n s s' : calls s' = calls s -> adds xs n s s'.
Proof.
  intros H. exists []. rewrite app_nil_r. split; [assumption|].
  split; [intros ll Hll; inversion Hll|simpl; lia].
Qed.

Lemma adds_trans xs n1 n2 s1 s2 s3 :
  adds xs n1 s1 s2 -> adds xs n2 s2 s3 -> adds xs (n1 + n2) s1 s3.
Proof.
  intros (e1 & H1 & Hin1 & Hlen1) (e2 & H2 & Hin2 & Hlen2).
  exists (e1 ++ e2). split; [rewrite H2, H1; now rewrite app_assoc|]. split.
  - intros ll Hll. apply elem_of_app in Hll as [Hll|Hll]; auto.
  - rewrite length_app. lia.
Qed.

Lemma adds_weaken xs ys n m s s' :
  adds xs n s s' -> xs ⊆ ys -> (n <= m)%nat -> adds ys m s s'.
Proof.
  intros (e & H & Hin & Hlen) Hsub Hnm. exists e. split; [assumption|]. split.
  - intros ll Hll. destruct (Hin ll Hll) as (o & Ho & ->). exists o. split; auto.
  - lia.
Qed.

Lemma scan_adds pt xs : forall s r s',
  forEach xs (scanStep map pt clusterDistance) s = (r, s') ->
  adds xs (length (filter (fun o => id o ∉ processed s) xs)) s s'.
Proof.
  induction xs as [|o xs IH]; intros s r s' H; simpl in H.
  { inversion H; subst. now apply adds_nothing. }
  unfold bind at 1 in H.
  destruct (scanStep map pt clusterDistance o s) as [r1 s1] eqn:Ho.
  rewrite filter_cons. destruct (decide (id o ∉ processed s)) as [Hnp|Hp].
  - assert (Hstep : adds (o :: xs) 1 s s1).
    { exists [latLng o]. split; [|split; [|simpl; lia]].
      - unfold scanStep in Ho. mstep.
        rewrite bool_decide_eq_false_2 in Ho by assumption.
        destruct (latLngToContainerPoint map (latLng o)) as [e|q];
          [now inversion Ho|].
        destruct (distance_le pt q clusterDistance); now inversion Ho.
      - intros ll Hll. apply list_elem_of_singleton in Hll as ->.
        exists o. split; [left|reflexivity]. }
    destruct r1 as [e|[]].
    + inversion H; subst. eapply adds_weaken; [exact Hstep|reflexivity|simpl; lia].
    + apply IH in H. change (length (o :: _)) with (1 + length
        (filter (fun o => id o ∉ processed s) xs))%nat.
      eapply adds_trans; [exact Hstep|].
      eapply adds_weaken; [exact H|set_solver|].
      apply filter_length_mono. intros v Hv Hin. apply Hv.
      apply scanStep_keeps_processed in Ho. now apply Ho.
  - assert (Hp' : id o ∈ processed s) by (destruct (decide (id o ∈ processed s)); tauto).
    rewrite scanStep_skip in Ho by assumption. inversion Ho; subst.
    apply IH in H. eapply adds_weaken; [exact H|set_solver|reflexivity].
Qed.
Lemma closeGroup_calls s : calls (snd (closeGroup s)) = calls s.
Proof.
  destruct (le_lt_dec (length (nearbyLocations s)) 1) as [Hle|Hlt].
  - now rewrite closeGroup_single.
  - now destruct (closeGroup_cluster s Hlt) as (c & _ & ->).
Qed.

Lemma seed_adds l s r s' :
  l ∈ locs ->
  seedStep locs map clusterDistance l s = (r, s') ->
  adds locs (length locs) s s'.
Proof.
  intros Hl H. destruct (decide (id l ∈ processed s)) as [Hin|Hin].
  { rewrite seedStep_skip in H by assumption. inversion H; subst.
    now apply adds_nothing. }
  assert (Hpos : (1 <= length locs)%nat).
  { destruct locs; [inversion Hl|simpl; lia]. }
  assert (Hone : forall s1, calls s1 = calls s ++ [latLng l] -> adds locs 1 s s1).
  { intros s1 Hs1. exists [latLng l]. split; [assumption|]. split; [|simpl; lia].
    intros ll Hll. apply list_elem_of_singleton in Hll as ->. eauto. }
  destruct (latLngToContainerPoint map (latLng l)) as [e|pt] eqn:Hpt.
  - unfold seedStep in H. mstep. rewrite bool_decide_eq_false_2 in H by assumption.
    rewrite Hpt in H. inversion H; subst.
    eapply adds_weaken; [apply Hone; reflexivity|reflexivity|assumption].
  - erewrite seedStep_seed in H by eassumption. unfold bind in H.
    match type of H with context [forEach locs ?f ?s1] =>
      destruct (forEach locs f s1) as [r1 s2] eqn:Hscan;
      pose proof (Hone s1 eq_refl) as Hfirst end.
    apply scan_adds in Hscan. cbn [processed] in Hscan.
    assert (Hlt : (length (filter (fun o => id o ∉ {[id l]} ∪ processed s) locs)
                   < length locs)%nat).
    { apply length_filter_lt with (x := l); [assumption|]. set_solver. }
    assert (Hs2 : adds locs (length locs) s s2).
    { eapply adds_weaken; [eapply adds_trans; [exact Hfirst|exact Hscan]|reflexivity|lia]. }
    destruct r1 as [e|[]]; [now inversion H; subst|].
    pose proof (closeGroup_calls s2) as Hclose. rewrite H in Hclose. simpl in Hclose.
    destruct Hs2 as (extra & Hx & Hin2 & Hlen). exists extra.
    split; [congruence|]. now split.
Qed.

Lemma seeds_adds xs : xs ⊆ locs -> forall s r s',
  forEach xs (seedStep locs map clusterDistance) s = (r, s') ->
  adds locs (length xs * length locs) s s'.
Proof.
  induction xs as [|l xs IH]; intros Hsub s r s' H; simpl in H.
  { inversion H; subst. now apply adds_nothing. }
  unfold bind at 1 in H.
  destruct (seedStep locs map clusterDistance l s) as [r1 s1] eqn:Hl.
  apply seed_adds in Hl; [|apply Hsub; left].
  destruct r1 as [e|[]].
  - inversion H; subst. eapply adds_weaken; [exact Hl|reflexivity|simpl; lia].
  - apply IH in H; [|set_solver].
    change (length (l :: xs) * length locs)%nat
      with (length locs + length xs * length locs)%nat.
    eapply adds_trans; eassumption.
Qed.
End Calls.

(** X4: a call projects nothing but input locations, and calls the
    projection at most [n * n] times for [n] input locations, whether it
    returns or throws. *)
Theorem projection_calls_bounded (locs : list Location) (map : Map)
    (clusterDistance : Q) :
  (forall ll, ll ∈ calls (snd (run (createClusters locs (Some map) clusterDistance))) ->
     exists l, l ∈ locs /\ ll = latLng l) /\
  (length (calls (snd (run (createClusters locs (Some map) clusterDistance))))
   <= length locs * length locs)%nat.
Proof.
  set (s' := snd (run (createClusters locs (Some map) clusterDistance))).
  assert (H : adds locs (length locs * length locs) init s').
  { subst s'. unfold run, createClusters.
    destruct (length locs =? 0)%nat; [now apply adds_nothing|].
    unfold bind at 1, clusters_new at 1. unfold bind at 1, processed_new at 1.
    unfold bind at 1.
    match goal with |- context [forEach locs ?f ?s1] =>
      destruct (forEach locs f s1) as [r1 s2] eqn:Hseeds end.
    apply seeds_adds in Hseeds; [|reflexivity].
    destruct r1 as [e|[]]; [exact Hseeds|].
    unfold bind at 1, result_new at 1. unfold bind at 1. rewrite emit_spec.
    unfold result_get. simpl. exact Hseeds. }
  destruct H as (extra & Hcalls & Hin & Hlen). simpl in Hcalls.
  rewrite Hcalls. split; assumption.
Qed.

(** ** The order of the members *)

Lemma forEach_app {A} (xs ys : list A) (f : A -> M unit) s :
  forEach (xs ++ ys) f s = bind (forEach xs f) (fun _ => forEach ys f) s.
Proof.
  revert s. induction xs as [|v xs IH]; intros s; simpl; [reflexivity|].
  unfold bind in *. destruct (f v s) as [[e|[]] s1]; [reflexivity|]. apply IH.
Qed.

(** The seeds loop of a call that returns. *)
Lemma createClusters_seeds locs map clusterDistance items s' :
  locs <> [] ->
  run (createClusters locs (Some map) clusterDistance) = (inr items, s') ->
  exists s1,
    forEach locs (seedStep locs map clusterDistance) init = (inr tt, s1) /\
    clusters s' = clusters s1 /\ processed s' = processed s1.
Proof.
  intros Hne. unfold run, createClusters.
  replace (length locs =? 0)%nat with false by now destruct locs.
  unfold bind at 1, clusters_new at 1. unfold bind at 1, processed_new at 1.
  unfold bind at 1. cbn [clusters processed nearbyLocations result calls init].
  fold init.
  destruct (forEach locs _ init) as [[e|[]] s1] eqn:Hseeds; [discriminate|].
  unfold bind at 1, result_new at 1. unfold bind at 1. rewrite emit_spec.
  unfold result_get. simpl. intros H; inversion H; subst. simpl. eauto.
Qed.

Section Order.
Variables (locs : list Location) (map : Map) (clusterDistance : Q).

Lemma scan_skip_all pt xs s :
  (forall o, o ∈ xs -> id o ∈ processed s) ->
  forEach xs (scanStep map pt clusterDistance) s = (inr tt, s).
Proof.
  induction xs as [|o xs IH]; intros Hall; simpl; [reflexivity|].
  unfold bind. rewrite scanStep_skip by (apply Hall; left).
  apply IH. intros o' Ho'. apply Hall. now right.
Qed.

Lemma scan_sublist pt xs : forall s r s',
  forEach xs (scanStep map pt clusterDistance) s = (r, s') ->
  exists added,
    nearbyLocations s' = nearbyLocations s ++ added /\ added `sublist_of` xs.
Proof.
  induction xs as [|o xs IH]; intros s r s' H; simpl in H.
  { inversion H; subst. exists []. now rewrite app_nil_r. }
  unfold bind at 1 in H.
  destruct (scanStep map pt clusterDistance o s) as [r1 s1] eqn:Ho.
  assert (Hstep : nearbyLocations s1 = nearbyLocations s
                  \/ nearbyLocations s1 = nearbyLocations s ++ [o]).
  { unfold scanStep in Ho. mstep. case_bool_decide; [inversion Ho; auto|].
    destruct (latLngToContainerPoint map (latLng o)) as [e|q]; [inversion Ho; auto|].
    destruct (distance_le pt q clusterDistance); inversion Ho; auto. }
  assert (Hrest : exists added, nearbyLocations s' = nearbyLocations s1 ++ added
                                /\ added `sublist_of` xs).
  { destruct r1 as [e|[]]; [|eapply IH; eassumption].
    inversion H; subst. exists []. rewrite app_nil_r. split; [reflexivity|].
    apply sublist_nil_l. }
  destruct Hrest as (added & Hn & Hsub). destruct Hstep as [Hs|Hs]; rewrite Hs in Hn.
  - exists added. split; [assumption|]. now apply sublist_cons.
  - exists (o :: added). rewrite <- app_assoc in Hn. split; [assumption|].
    now apply sublist_skip.
Qed.

Lemma seed_ordered pre l post s r s' :
  locs = pre ++ l :: post ->
  (forall o, o ∈ pre -> id o ∈ processed s) ->
  seedStep locs map clusterDistance l s = (r, s') ->
  exists new,
    clusters s' = clusters s ++ new /\
    forall c, c ∈ new -> locations c `sublist_of` locs.
Proof.
  intros Hlocs Hpre H.
  assert (Hnone : clusters s' = clusters s ->
            exists new, clusters s' = clusters s ++ new /\
                        forall c, c ∈ new -> locations c `sublist_of` locs).
  { intros Hc. exists []. rewrite app_nil_r. split; [assumption|].
    intros c Hc'. inversion Hc'. }
  destruct (decide (id l ∈ processed s)) as [Hin|Hin].
  { rewrite seedStep_skip in H by assumption. inversion H; subst. now apply Hnone. }
  destruct (latLngToContainerPoint map (latLng l)) as [e|pt] eqn:Hpt.
  { unfold seedStep in H. mstep. rewrite bool_decide_eq_false_2 in H by assumption.
    rewrite Hpt in H. inversion H; subst. now apply Hnone. }
  erewrite seedStep_seed in H by eassumption.
  rewrite Hlocs in H at 1. unfold bind at 1 in H. rewrite forEach_app in H.
  unfold bind at 1 in H. rewrite scan_skip_all in H by (simpl; set_solver).
  cbn [forEach] in H. unfold bind at 1 in H.
  rewrite scanStep_skip in H by (simpl; set_solver).
  match type of H with context [forEach post ?f ?s1] =>
    destruct (forEach post f s1) as [r1 s2] eqn:Hscan end.
  pose proof (scan_spec _ _ _ _ _ _ _ Hscan) as (Hc & _).
  apply scan_sublist in Hscan as (added & Hn & Hsub). simpl in Hc, Hn.
  destruct r1 as [e|[]]; [inversion H; subst; now apply Hnone|].
  destruct (le_lt_dec (length (nearbyLocations s2)) 1) as [Hle|Hlt].
  - rewrite closeGroup_single in H by assumption. inversion H; subst. now apply Hnone.
  - destruct (closeGroup_cluster s2 Hlt) as (c & Hloc & Heq). rewrite Heq in H.
    inversion H; subst s'. simpl. exists [c]. split; [now rewrite Hc|].
    intros c' Hc'. apply list_elem_of_singleton in Hc' as ->.
    rewrite Hloc, Hn, Hlocs. apply sublist_inserts_l. now apply sublist_skip.
Qed.

Lemma seeds_ordered xs : forall pre s r s',
  locs = pre ++ xs ->
  (forall o, o ∈ pre -> id o ∈ processed s) ->
  forEach xs (seedStep locs map clusterDistance) s = (r, s') ->
  exists new,
    clusters s' = clusters s ++ new /\
    forall c, c ∈ new -> locations c `sublist_of` locs.
Proof.
  induction xs as [|l xs IH]; intros pre s r s' Hlocs Hpre H; simpl in H.
  { inversion H; subst. exists []. rewrite app_nil_r. split; [reflexivity|].
    intros c Hc. inversion Hc. }
  unfold bind at 1 in H.
  destruct (seedStep locs map clusterDistance l s) as [r1 s1] eqn:Hl.
  pose proof (seed_ordered _ _ _ _ _ _ Hlocs Hpre Hl) as (new1 & Hc1 & Hsub1).
  destruct r1 as [e|[]]; [inversion H; subst; eauto|].
  apply seed_spec in Hl as [(_ & Hgrow & _) Hdone]; [|rewrite Hlocs; set_solver].
  apply (IH (pre ++ [l])) in H as (new2 & Hc2 & Hsub2).
  - exists (new1 ++ new2). split; [rewrite Hc2, Hc1; now rewrite app_assoc|].
    intros c Hc. apply elem_of_app in Hc as [Hc|Hc]; auto.
  - now rewrite <- app_assoc.
  - intros o Ho. apply elem_of_app in Ho as [Ho|Ho].
    + apply Hgrow. now apply Hpre.
    + apply list_elem_of_singleton in Ho as ->. now apply Hdone.
Qed.
End Order.

(** X5: the members of a cluster are listed in the order of the input:
    the member list is a subsequence of the input list, the seed
    first. *)
Theorem members_keep_input_order (locs : list Location) (map : Map)
    (clusterDistance : Q) (items : list Item) (c : ClusterGroup) :
  fst (run (createClusters locs (Some map) clusterDistance)) = inr items ->
  c ∈ clustersOf items -> locations c `sublist_of` locs.
Proof.
  destruct (run _) as [r s'] eqn:Hrun. simpl. intros -> Hc.
  rewrite (createClusters_clusters _ _ _ _ _ Hrun) in Hc.
  destruct locs as [|l0 rest] eqn:Hlocs.
  { inversion Hrun; subst. inversion Hc. }
  rewrite <- Hlocs in *.
  apply createClusters_seeds in Hrun as (s1 & Hseeds & Hcs & _); [|now subst].
  apply (seeds_ordered locs map clusterDistance locs []) in Hseeds
    as (new & Hnew & Hsub); [|reflexivity|intros o Ho; inversion Ho].
  simpl in Hnew. apply Hsub. now rewrite <- Hnew, <- Hcs.
Qed.

(** ** Everything close to the first location *)

Section OneCluster.
Variables (locs : list Location) (map : Map) (clusterDistance : Q).

Lemma scan_all_join pt xs : forall s,
  NoDup (id <$> xs) ->
  (forall o, o ∈ xs -> id o ∉ processed s) ->
  (forall o, o ∈ xs ->
     exists q, projects_to map o q /\ distance_le pt q clusterDistance = true) ->
  exists s',
    forEach xs (scanStep map pt clusterDistance) s = (inr tt, s') /\
    nearbyLocations s' = nearbyLocations s ++ xs /\
    clusters s' = clusters s /\
    processed s' = list_to_set (id <$> xs) ∪ processed s.
Proof.
  induction xs as [|o xs IH]; intros s Hnd Hnew Hnear; simpl.
  { exists s. rewrite app_nil_r. repeat split. set_solver. }
  rewrite fmap_cons in Hnd. apply NoDup_cons in Hnd as [Hfresh Hnd].
  destruct (Hnear o) as (q & Hq & Hd); [left|].
  unfold bind. erewrite scanStep_join by first [eassumption | apply Hnew; left].
  match goal with |- context [forEach xs ?f ?s1] =>
    destruct (IH s1) as (s' & Hrun & Hn & Hc & Hp) end.
  - assumption.
  - intros o' Ho'. simpl. intros Hin.
    apply elem_of_union in Hin as [Hin|Hin].
    + apply elem_of_singleton in Hin. apply Hfresh. rewrite <- Hin.
      now apply list_elem_of_fmap_2.
    + revert Hin. apply Hnew. now right.
  - intros o' Ho'. apply Hnear. now right.
  - exists s'. simpl in *. split; [assumption|]. rewrite Hn, Hc, Hp, <- app_assoc.
    repeat split. set_solver.
Qed.

Lemma seeds_skip_all xs s :
  (forall l, l ∈ xs -> id l ∈ processed s) ->
  forEach xs (seedStep locs map clusterDistance) s = (inr tt, s).
Proof.
  induction xs as [|l xs IH]; intros Hall; simpl; [reflexivity|].
  unfold bind. rewrite seedStep_skip by (apply Hall; left).
  apply IH. intros l' Hl'. apply Hall. now right.
Qed.
End OneCluster.

Lemma forEach_cons {A} (v : A) (xs : list A) (f : A -> M unit) s :
  forEach (v :: xs) f s = bind (f v) (fun _ => forEach xs f) s.
Proof. reflexivity. Qed.

Lemma filter_unprocessed_nil (seen : gset string) (xs : list Location) :
  (forall l, l ∈ xs -> id l ∈ seen) -> filter (fun l => id l ∉ seen) xs = [].
Proof.
  induction xs as [|l xs IH]; intros Hall; [reflexivity|].
  rewrite filter_cons, decide_False by (intros Hn; apply Hn, Hall; left).
  apply IH. intros l' Hl'. apply Hall. now right.
Qed.

(** X6: when every location is, on screen, within [clusterDistance] of
    the first one (identifiers distinct, at least two locations), the
    result is a single cluster whose members are the whole input, in
    input order. *)
Theorem all_near_first_is_one_cluster (map : Map) (clusterDistance : Q)
    (first second : Location) (rest : list Location) (p : Point) :
  NoDup (id <$> first :: second :: rest) ->
  projects_to map first p ->
  (forall o, o ∈ second :: rest ->
     exists q, projects_to map o q /\ (distanceTo p q <= Q2R clusterDistance)%R) ->
  exists c,
    fst (run (createClusters (first :: second :: rest) (Some map) clusterDistance))
    = inr [ItemCluster c] /\
    locations c = first :: second :: rest.
Proof.
  intros Hnd Hp Hnear.
  assert (Hlen : (1 <= length (second :: rest))%nat) by (simpl; lia).
  remember (second :: rest) as tail eqn:Htail. clear Htail.
  rewrite fmap_cons in Hnd. apply NoDup_cons in Hnd as [Hfresh Hnd].
  unfold run, createClusters. cbn [length Nat.eqb].
  unfold bind at 1, clusters_new at 1. unfold bind at 1, processed_new at 1.
  cbn [init clusters processed nearbyLocations result calls].
  unfold bind at 1. rewrite forEach_cons. unfold bind at 1.
  erewrite seedStep_seed by first [eassumption | simpl; set_solver].
  cbn [clusters processed nearbyLocations result calls app].
  unfold bind at 1. rewrite forEach_cons. unfold bind at 1.
  rewrite scanStep_skip by (simpl; set_solver).
  match goal with |- context [forEach tail (scanStep map p clusterDistance) ?s1] =>
    destruct (scan_all_join map clusterDistance p tail s1)
      as (s2 & -> & Hn & Hc & Hproc) end.
  - assumption.
  - intros o Ho. simpl. intros Hin. apply Hfresh.
    assert (id o = id first) as <- by set_solver. now apply list_elem_of_fmap_2.
  - intros o Ho. destruct (Hnear o Ho) as (q & Hq & Hd). exists q.
    split; [assumption|]. now apply distance_le_spec.
  - simpl in Hn, Hc, Hproc.
    assert (Hall : forall l, l ∈ first :: tail -> id l ∈ processed s2).
    { intros l Hl. rewrite Hproc. apply elem_of_cons in Hl as [->|Hl]; [set_solver|].
      apply list_elem_of_fmap_2 with (f := id) in Hl. set_solver. }
    destruct (closeGroup_cluster s2) as (c & Hloc & ->); [rewrite Hn; simpl; lia|].
    rewrite seeds_skip_all by (intros l Hl; apply Hall; now right).
    unfold bind at 1, result_new at 1. unfold bind at 1. rewrite emit_spec.
    unfold result_get. cbn [fst clusters processed nearbyLocations result calls].
    rewrite filter_unprocessed_nil by assumption.
    exists c. rewrite Hloc, Hn, Hc. split; reflexivity.
Qed.

(** ** Sorting by a key *)

Section Sorting.
Context {A : Type} (key : A -> Q).

Lemma sortInsert_perm (compareFn : A -> A -> Q) v xs :
  sortInsert compareFn v xs ≡ₚ v :: xs.
Proof.
  induction xs as [|w xs IH]; simpl; [reflexivity|].
  destruct (Qle_bool (compareFn v w) 0); [reflexivity|].
  rewrite IH. apply Permutation_swap.
Qed.

Lemma Array_sort_perm (compareFn : A -> A -> Q) xs : Array_sort compareFn xs ≡ₚ xs.
Proof.
  induction xs as [|v xs IH]; simpl; [reflexivity|].
  rewrite sortInsert_perm. now rewrite IH.
Qed.

Lemma sortInsert_descending v xs :
  descending key xs -> descending key (sortInsert (byKey key) v xs).
Proof.
  unfold descending. induction xs as [|w xs IH]; intros Hs; simpl.
  { repeat constructor. }
  apply StronglySorted_inv in Hs as [Hs Hw].
  destruct (Qle_bool (byKey key v w) 0) eqn:Hcmp.
  - apply Qle_bool_iff in Hcmp. unfold byKey in Hcmp.
    constructor; [constructor; assumption|].
    constructor; [Lqa.lra|].
    eapply Forall_impl; [exact Hw|]. simpl. intros b Hb. Lqa.lra.
  - assert (Hlt : key v < key w).
    { destruct (Qlt_le_dec (key v) (key w)) as [Hlt|Hle]; [assumption|].
      assert (Hb : Qle_bool (byKey key v w) 0 = true)
        by (apply Qle_bool_iff; unfold byKey; Lqa.lra).
      congruence. }
    constructor; [now apply IH|].
    rewrite sortInsert_perm. constructor; [Lqa.lra|assumption].
Qed.

Lemma Array_sort_descending xs : descending key (Array_sort (byKey key) xs).
Proof.
  induction xs as [|v xs IH]; simpl; [constructor|].
  now apply sortInsert_descending.
Qed.

Lemma sortInsert_withKey r v xs :
  withKey key r (sortInsert (byKey key) v xs) = withKey key r (v :: xs).
Proof.
  unfold withKey. induction xs as [|w xs IH]; simpl; [reflexivity|].
  destruct (Qle_bool (byKey key v w) 0) eqn:Hcmp; [reflexivity|].
  simpl. rewrite IH. simpl.
  destruct (Qeq_bool (key v) r) eqn:Hv; [|reflexivity].
  destruct (Qeq_bool (key w) r) eqn:Hw; [|reflexivity].
  apply Qeq_bool_iff in Hv, Hw.
  assert (Hb : Qle_bool (byKey key v w) 0 = true).
  { apply Qle_bool_iff. unfold byKey. rewrite Hv, Hw. Lqa.lra. }
  congruence.
Qed.

Lemma Array_sort_withKey r xs :
  withKey key r (Array_sort (byKey key) xs) = withKey key r xs.
Proof.
  induction xs as [|v xs IH]; simpl; [reflexivity|].
  rewrite sortInsert_withKey. unfold withKey in *. simpl. now rewrite IH.
Qed.

Lemma Array_sort_sorted xs : descending key xs -> Array_sort (byKey key) xs = xs.
Proof.
  unfold descending. induction xs as [|v xs IH]; intros Hs; simpl; [reflexivity|].
  apply StronglySorted_inv in Hs as [Hs Hv]. rewrite IH by assumption.
  destruct xs as [|w xs]; [reflexivity|]. simpl.
  apply Forall_cons in Hv as [Hw _].
  assert (Hb : Qle_bool (byKey key v w) 0 = true)
    by (apply Qle_bool_iff; unfold byKey; Lqa.lra).
  now rewrite Hb.
Qed.
End Sorting.

(** ** The search filters *)

Lemma filter_true {A} (xs : list A) : List.filter (fun _ => true) xs = xs.
Proof. induction xs as [|v xs IH]; simpl; [reflexivity|now rewrite IH]. Qed.

Lemma filter_and {A} (p1 p2 : A -> bool) (xs : list A) :
  List.filter p2 (List.filter p1 xs) = List.filter (fun v => p1 v && p2 v) xs.
Proof.
  induction xs as [|v xs IH]; simpl; [reflexivity|].
  destruct (p1 v); simpl; [destruct (p2 v)|]; now rewrite IH.
Qed.

Lemma filter_option {A B} (o : option B) (p : B -> A -> bool) (xs : list A) :
  match o with Some q => List.filter (p q) xs | None => xs end
  = List.filter (fun v => match o with Some q => p q v | None => true end) xs.
Proof. destruct o; [reflexivity|]. now rewrite filter_true. Qed.

Lemma filter_all {A} (p : A -> bool) (xs : list A) :
  (forall v, v ∈ xs -> p v = true) -> List.filter p xs = xs.
Proof.
  induction xs as [|v xs IH]; intros Hall; simpl; [reflexivity|].
  rewrite (Hall v) by left. rewrite IH; [reflexivity|].
  intros w Hw. apply Hall. now right.
Qed.

Lemma filter_sublist {A} (p : A -> bool) (xs : list A) :
  List.filter p xs `sublist_of` xs.
Proof.
  induction xs as [|v xs IH]; simpl; [constructor|].
  destruct (p v); [now apply sublist_skip|now apply sublist_cons].
Qed.

Lemma filter_elem_of {A} (p : A -> bool) (xs : list A) v :
  v ∈ List.filter p xs <-> v ∈ xs /\ p v = true.
Proof. rewrite !list_elem_of_In. apply filter_In. Qed.

Section Filtering.
Variable toLowerCase : string -> string.

(** The effect filters by [passes] and then sorts by the key of the
    chosen order, if there is one. *)
Lemma filterLocations_eq locs f :
  filterLocations toLowerCase locs f
  = match sortKey (Filters.sortBy f) with
    | Some key => Array_sort (byKey key) (List.filter (passes toLowerCase f) locs)
    | None => List.filter (passes toLowerCase f) locs
    end.
Proof.
  unfold filterLocations.
  rewrite (filter_option (truthyString (Filters.query f))
             (fun q => matchesQuery toLowerCase (toLowerCase q))).
  rewrite (filter_option (truthyString (Filters.category f))
             (fun c location => String.eqb (category location) c)).
  rewrite (filter_option (truthyNumber (Filters.minRating f))
             (fun r location => Qle_bool r (averageRating location))).
  rewrite !filter_and.
  rewrite (List.filter_ext _ (passes toLowerCase f))
    by (intros l; unfold passes; apply andb_assoc).
  destruct (Filters.sortBy f) as [[| |]|]; reflexivity.
Qed.

Lemma filterLocations_perm locs f :
  filterLocations toLowerCase locs f ≡ₚ List.filter (passes toLowerCase f) locs.
Proof.
  rewrite filterLocations_eq. destruct (sortKey _); [apply Array_sort_perm|reflexivity].
Qed.

Lemma filterLocations_elem_of locs f l :
  l ∈ filterLocations toLowerCase locs f <-> l ∈ locs /\ passes toLowerCase f l = true.
Proof. rewrite filterLocations_perm. apply filter_elem_of. Qed.
End Filtering.

(** X7: the filtered list holds exactly the given locations that pass
    every filter switched on: it is a rearrangement of them, none lost
    and none repeated. *)
Theorem filtered_are_those_that_pass (toLowerCase : string -> string)
    (locs : list LocationDetails) (f : Filters.SearchFilters) :
  filterLocations toLowerCase locs f ≡ₚ List.filter (passes toLowerCase f) locs /\
  (forall l, l ∈ filterLocations toLowerCase locs f
             <-> l ∈ locs /\ passes toLowerCase f l = true).
Proof.
  split; [apply filterLocations_perm|]. intros l. apply filterLocations_elem_of.
Qed.

(** X8: without a sort order, or with the order by relevance, the
    filtered list keeps the order of the input; with the order by
    rating or by recency it has the greatest key first, and locations
    with the same key keep the order of the input. *)
Theorem filtered_order (toLowerCase : string -> string)
    (locs : list LocationDetails) (f : Filters.SearchFilters) :
  (sortKey (Filters.sortBy f) = None ->
   filterLocations toLowerCase locs f `sublist_of` locs) /\
  (forall key, sortKey (Filters.sortBy f) = Some key ->
     descending key (filterLocations toLowerCase locs f) /\
     forall r, withKey key r (filterLocations toLowerCase locs f)
               = withKey key r (List.filter (passes toLowerCase f) locs)).
Proof.
  rewrite filterLocations_eq. split.
  - intros ->. apply filter_sublist.
  - intros key ->. split; [apply Array_sort_descending|].
    intros r. apply Array_sort_withKey.
Qed.

(** X9: filtering the filtered list again with the same filters
    changes nothing. *)
Theorem filtering_is_idempotent (toLowerCase : string -> string)
    (locs : list LocationDetails) (f : Filters.SearchFilters) :
  filterLocations toLowerCase (filterLocations toLowerCase locs f) f
  = filterLocations toLowerCase locs f.
Proof.
  rewrite (filterLocations_eq toLowerCase (filterLocations toLowerCase locs f)).
  rewrite filter_all by (intros l Hl; now apply filterLocations_elem_of in Hl).
  destruct (sortKey (Filters.sortBy f)) as [key|] eqn:Hkey; [|reflexivity].
  apply Array_sort_sorted. rewrite filterLocations_eq, Hkey.
  apply Array_sort_descending.
Qed.

(** ** Fitting the view to the locations *)

Lemma lowest_eq m m' vs : m == m' -> lowest m vs -> lowest m' vs.
Proof.
  intros Heq [Hle (w & Hw & Hm)]. split.
  - intros v Hv. rewrite <- Heq. now apply Hle.
  - exists w. split; [assumption|]. now rewrite Hm.
Qed.

Lemma highest_eq m m' vs : m == m' -> highest m vs -> highest m' vs.
Proof.
  intros Heq [Hle (w & Hw & Hm)]. split.
  - intros v Hv. rewrite <- Heq. now apply Hle.
  - exists w. split; [assumption|]. now rewrite Hm.
Qed.

Lemma lowest_unique a b vs : lowest a vs -> lowest b vs -> a == b.
Proof.
  intros [Ha (va & Hva & Hea)] [Hb (vb & Hvb & Heb)].
  apply Qle_antisym.
  - rewrite <- Heb. now apply Ha.
  - rewrite <- Hea. now apply Hb.
Qed.

Lemma highest_unique a b vs : highest a vs -> highest b vs -> a == b.
Proof.
  intros [Ha (va & Hva & Hea)] [Hb (vb & Hvb & Heb)].
  apply Qle_antisym.
  - rewrite <- Hea. now apply Hb.
  - rewrite <- Heb. now apply Ha.
Qed.

Lemma Math_min_lowest_from vs : forall seen m,
  lowest m seen -> lowest (fold_left Qmin vs m) (seen ++ vs).
Proof.
  induction vs as [|v vs IH]; intros seen m Hm; simpl.
  - now rewrite app_nil_r.
  - replace (seen ++ v :: vs) with ((seen ++ [v]) ++ vs) by now rewrite <- app_assoc.
    apply IH. apply lowest_eq with (m := Qmin v m); [apply Q.min_comm|].
    now apply lowest_snoc.
Qed.

Lemma Math_max_highest_from vs : forall seen m,
  highest m seen -> highest (fold_left Qmax vs m) (seen ++ vs).
Proof.
  induction vs as [|v vs IH]; intros seen m Hm; simpl.
  - now rewrite app_nil_r.
  - replace (seen ++ v :: vs) with ((seen ++ [v]) ++ vs) by now rewrite <- app_assoc.
    apply IH. apply highest_eq with (m := Qmax v m); [apply Q.max_comm|].
    now apply highest_snoc.
Qed.

Lemma Math_min_lowest v vs : lowest (Math_min v vs) (v :: vs).
Proof. apply (Math_min_lowest_from vs [v]), lowest_singleton. Qed.

Lemma Math_max_highest v vs : highest (Math_max v vs) (v :: vs).
Proof. apply (Math_max_highest_from vs [v]), highest_singleton. Qed.

(** The midpoint that [fitToLocations] computes for a non-empty list. *)
Lemma fitToLocations_center d ds view :
  exists south north west east,
    lowest south (latitudes (base <$> d :: ds)) /\
    highest north (latitudes (base <$> d :: ds)) /\
    lowest west (longitudes (base <$> d :: ds)) /\
    highest east (longitudes (base <$> d :: ds)) /\
    fst (mapCenter (fitToLocations (d :: ds) view)) == (south + north) / 2 /\
    snd (mapCenter (fitToLocations (d :: ds) view)) == (west + east) / 2.
Proof.
  destruct ds as [|d' ds].
  - exists (latitude (coordinates (base d))), (latitude (coordinates (base d))),
      (longitude (coordinates (base d))), (longitude (coordinates (base d))).
    simpl. repeat split;
      first [apply lowest_singleton | apply highest_singleton | field].
  - remember (d' :: ds) as others eqn:Hothers.
    exists (Math_min (latitude (coordinates (base d)))
              ((fun l => latitude (coordinates (base l))) <$> others)),
           (Math_max (latitude (coordinates (base d)))
              ((fun l => latitude (coordinates (base l))) <$> others)),
           (Math_min (longitude (coordinates (base d)))
              ((fun l => longitude (coordinates (base l))) <$> others)),
           (Math_max (longitude (coordinates (base d)))
              ((fun l => longitude (coordinates (base l))) <$> others)).
    unfold latitudes, longitudes. rewrite <- !list_fmap_compose, !fmap_cons.
    split; [apply Math_min_lowest|]. split; [apply Math_max_highest|].
    split; [apply Math_min_lowest|]. split; [apply Math_max_highest|].
    subst others. simpl. split; reflexivity.
Qed.


(** The centre of a well-formed cluster. *)
Lemma cluster_ok_center locs map clusterDistance c :
  cluster_ok locs map clusterDistance c ->
  exists south north west east,
    lowest south (latitudes (locations c)) /\
    highest north (latitudes (locations c)) /\
    lowest west (longitudes (locations c)) /\
    highest east (longitudes (locations c)) /\
    center c = ((south + north) / 2, (west + east) / 2).
Proof.
  intros (seed & others & pt & ctr & Hloc & _ & _ & _ & _ & Hb & Hctr & Hcen).
  rewrite Hloc, fmap_cons in Hb.
  destruct (newLatLngBounds_corners (latLng seed) (latLng <$> others))
    as (sw & ne & Hbb & H1 & H2 & H3 & H4).
  rewrite Hbb in Hb. rewrite Hb in Hctr. unfold getCenter in Hctr; simpl in Hctr.
  inversion Hctr; subst ctr; clear Hctr. simpl in Hcen.
  exists (lat sw), (lat ne), (lng sw), (lng ne).
  rewrite <- fmap_cons, <- list_fmap_compose in H1, H2, H3, H4.
  unfold latitudes, longitudes. rewrite Hloc.
  split; [exact H1|]. split; [exact H2|]. split; [exact H3|]. split; [exact H4|].
  exact Hcen.
Qed.

(** X11: when the shown locations are exactly the members of a cluster
    of the map, "Fit All" centres the view on the position of the
    cluster's icon. *)
Theorem fit_meets_cluster_icon (locs : list Location) (map : Map)
    (clusterDistance : Q) (items : list Item) (c : ClusterGroup)
    (ds : list LocationDetails) (view : MapView) :
  fst (run (createClusters locs (Some map) clusterDistance)) = inr items ->
  c ∈ clustersOf items ->
  base <$> ds = locations c ->
  fst (mapCenter (fitToLocations ds view)) == fst (center c) /\
  snd (mapCenter (fitToLocations ds view)) == snd (center c).
Proof.
  intros Hrun Hc Hds.
  apply createClusters_clusters_ok in Hrun as (_ & Hok & _).
  rewrite Forall_forall in Hok.
  destruct (cluster_ok_center _ _ _ _ (Hok c Hc))
    as (south & north & west & east & Hs & Hn & Hw & He & Hcen).
  destruct ds as [|d ds].
  { destruct (Hok c Hc) as (seed & others & pt & ctr & Hloc & _).
    rewrite Hloc in Hds. discriminate. }
  destruct (fitToLocations_center d ds view)
    as (south' & north' & west' & east' & Hs' & Hn' & Hw' & He' & Hlat & Hlng).
  rewrite Hds in Hs', Hn', Hw', He'.
  rewrite Hlat, Hlng, Hcen. simpl.
  rewrite (lowest_unique _ _ _ Hs' Hs), (highest_unique _ _ _ Hn' Hn).
  rewrite (lowest_unique _ _ _ Hw' Hw), (highest_unique _ _ _ He' He).
  split; reflexivity.
Qed.

(** ** The controls *)

Lemma filterLocations_same (toLowerCase : string -> string) locs f g :
  truthyString (Filters.query g) = truthyString (Filters.query f) ->
  truthyString (Filters.category g) = truthyString (Filters.category f) ->
  truthyNumber (Filters.minRating g) = truthyNumber (Filters.minRating f) ->
  Filters.sortBy g = Filters.sortBy f ->
  filterLocations toLowerCase locs g = filterLocations toLowerCase locs f.
Proof.
  intros Hq Hc Hr Hs. unfold filterLocations. now rewrite Hq, Hc, Hr, Hs.
Qed.

(** X12: feeding the value a control displays back into its change
    handler gives filters that select the same locations in the same
    order, as long as the category filter is not the string "all",
    which the control uses for "no category". *)
Theorem controls_round_trip (toLowerCase : string -> string)
    (locs : list LocationDetails) (f : Filters.SearchFilters) :
  Filters.category f <> Some "all" ->
  filterLocations toLowerCase locs (handleSearchChange f (queryValue f))
  = filterLocations toLowerCase locs f /\
  filterLocations toLowerCase locs (handleCategoryChange f (categoryValue f))
  = filterLocations toLowerCase locs f /\
  filterLocations toLowerCase locs (handleRatingChange f (ratingValue f))
  = filterLocations toLowerCase locs f.
Proof.
  intros Hall. split; [|split]; apply filterLocations_same; try reflexivity.
  - unfold handleSearchChange, queryValue. simpl.
    destruct (Filters.query f) as [q|]; simpl; [|reflexivity].
    destruct (String.eqb q "") eqn:Hq; simpl; [reflexivity|now rewrite Hq].
  - unfold handleCategoryChange, categoryValue. simpl.
    destruct (Filters.category f) as [c|]; simpl; [|reflexivity].
    destruct (String.eqb c "") eqn:Hc; simpl; [reflexivity|].
    destruct (String.eqb c "all") eqn:Ha; simpl; [|now rewrite Hc].
    apply String.eqb_eq in Ha. congruence.
  - unfold handleRatingChange, ratingValue. cbn -[Qeq_bool].
    destruct (Filters.minRating f) as [r|]; cbn -[Qeq_bool]; [|reflexivity].
    destruct (Qeq_bool r 0) eqn:Hr; cbn -[Qeq_bool]; [reflexivity|].
    rewrite Hr. unfold truthyNumber. now rewrite Hr.
Qed.

(** ** From the filters to the clusters *)

(** X13: a location that fails a filter switched on never reaches a
    cluster: every member of a cluster that [MapWithClustering] stores
    for the filtered list is one of the given locations and passes the
    filters. *)
Theorem clustered_locations_pass_filters (toLowerCase : string -> string)
    (locs : list LocationDetails) (f : Filters.SearchFilters)
    (mapRef : option Map) (clusterDistance : Q)
    (items : list Item) (c : ClusterGroup) (m : Location) :
  fst (run (updateClusters mapRef (base <$> filterLocations toLowerCase locs f)
              clusterDistance)) = inr items ->
  c ∈ clustersOf items -> m ∈ locations c ->
  exists d, d ∈ locs /\ base d = m /\ passes toLowerCase f d = true.
Proof.
  intros Hrun Hc Hm.
  apply (updateClusters_members _ _ _ _ _ _ Hrun Hc) in Hm.
  apply list_elem_of_fmap in Hm as (d & -> & Hd).
  apply filterLocations_elem_of in Hd as [Hd Hp]. eauto.
Qed.

(** ** Locations at the same position *)

Lemma id_inj (locs : list Location) v w :
  NoDup (id <$> locs) -> v ∈ locs -> w ∈ locs -> id v = id w -> v = w.
Proof.
  induction locs as [|u locs IH]; intros Hnd Hv Hw Heq; [inversion Hv|].
  rewrite fmap_cons in Hnd. apply NoDup_cons in Hnd as [Hfresh Hnd].
  apply elem_of_cons in Hv as [->|Hv], Hw as [->|Hw]; auto.
  - exfalso. apply Hfresh. rewrite Heq. now apply list_elem_of_fmap_2.
  - exfalso. apply Hfresh. rewrite <- Heq. now apply list_elem_of_fmap_2.
Qed.

Section Colocated.
Variables (locs : list Location) (map : Map) (clusterDistance : Q).
Variables (a b : Location) (q : Point).
Hypothesis distinct : NoDup (id <$> locs).
Hypothesis a_in : a ∈ locs.
Hypothesis b_in : b ∈ locs.
Hypothesis a_b : a <> b.
Hypothesis a_at : projects_to map a q.
Hypothesis b_at : projects_to map b q.
Hypothesis nonneg : 0 <= clusterDistance.

(** The run of [seedStep] on an unprocessed seed that returns, store
    by store. *)
Lemma seed_run l pt s s' :
  id l ∉ processed s -> projects_to map l pt ->
  seedStep locs map clusterDistance l s = (inr tt, s') ->
  exists s2 added,
    forEach locs (scanStep map pt clusterDistance)
      {| clusters := clusters s; processed := {[ id l ]} ∪ processed s;
         nearbyLocations := [l]; result := result s;
         calls := calls s ++ [latLng l] |} = (inr tt, s2) /\
    nearbyLocations s2 = l :: added /\
    processed s' = list_to_set (id <$> added) ∪ ({[ id l ]} ∪ processed s) /\
    (forall o, o ∈ added ->
       o ∈ locs /\
       exists p, projects_to map o p /\ distance_le pt p clusterDistance = true) /\
    ((added = [] /\ clusters s' = clusters s) \/
     (added <> [] /\
      exists c, clusters s' = clusters s ++ [c] /\ locations c = l :: added)).
Proof.
  intros Hnp Hpt H. erewrite seedStep_seed in H by eassumption. unfold bind in H.
  match type of H with context [forEach locs ?f ?s1] =>
    destruct (forEach locs f s1) as [[e|[]] s2] eqn:Hscan end; [discriminate|].
  pose proof (scan_spec _ _ _ _ _ _ _ Hscan) as (Hc & _ & added & Hn & Hp & _ & Ha).
  simpl in Hc, Hn, Hp. exists s2, added. split; [reflexivity|]. split; [assumption|].
  assert (Hwithin : forall o, o ∈ added ->
            o ∈ locs /\
            exists p, projects_to map o p /\ distance_le pt p clusterDistance = true).
  { intros o Ho. destruct (Ha o Ho) as (? & _ & ?). now split. }
  destruct added as [|o added].
  - rewrite closeGroup_single in H by (rewrite Hn; simpl; lia).
    inversion H; subst s'. split; [assumption|]. split; [assumption|]. left. now split.
  - destruct (closeGroup_cluster s2) as (c & Hloc & Heq); [rewrite Hn; simpl; lia|].
    rewrite Heq in H. inversion H; subst s'. simpl.
    split; [assumption|]. split; [assumption|]. right. split; [discriminate|].
    exists c. rewrite Hc, Hloc, Hn. now split.
Qed.

Lemma seed_together l s s' :
  l ∈ locs -> together a b s ->
  seedStep locs map clusterDistance l s = (inr tt, s') ->
  together a b s'.
Proof.
  intros Hl [Hiff Hdone] H.
  destruct (decide (id l ∈ processed s)) as [Hin|Hin].
  { rewrite seedStep_skip in H by assumption. inversion H; subst. now split. }
  destruct (latLngToContainerPoint map (latLng l)) as [e|pt] eqn:Hpt.
  { unfold seedStep in H. mstep. rewrite bool_decide_eq_false_2 in H by assumption.
    rewrite Hpt in H. discriminate. }
  destruct (seed_run l pt s s' Hin Hpt H)
    as (s2 & added & Hscan & Hn & Hp & Hwithin & Hclose).
  assert (Hgrow : forall c, c ∈ clusters s -> c ∈ clusters s').
  { intros c Hc. destruct Hclose as [[_ ->]|[_ (c' & -> & _)]]; [assumption|].
    apply elem_of_app. now left. }
  assert (Hab : id a <> id b).
  { intros Heq. apply a_b. eapply id_inj; eauto. }
  destruct (decide (id a ∈ processed s)) as [Hpa|Hpa].
  { assert (Hpb : id b ∈ processed s) by now apply Hiff.
    split; [rewrite Hp; set_solver|]. intros _.
    destruct (Hdone Hpa) as (c & Hc & Hac & Hbc). exists c. auto. }
  assert (Hpb : id b ∉ processed s) by (intros Hb; now apply Hpa, Hiff).
  assert (Hboth : a ∈ nearbyLocations s2 -> b ∈ nearbyLocations s2 -> together a b s').
  { rewrite Hn. intros Ha Hb.
    assert (Hids : forall o, o ∈ l :: added -> id o ∈ processed s').
    { intros o Ho. rewrite Hp. apply elem_of_cons in Ho as [->|Ho]; [set_solver|].
      apply list_elem_of_fmap_2 with (f := id) in Ho. set_solver. }
    split; [split; intros _; now apply Hids|]. intros _.
    destruct Hclose as [[-> _]|[_ (c & Hc & Hloc)]].
    - exfalso. apply list_elem_of_singleton in Ha, Hb. congruence.
    - exists c. rewrite Hc, Hloc. split; [apply elem_of_app; right; left|]. now split. }
  assert (Hjoin : forall o, o ∈ locs -> projects_to map o q -> id o ∉ processed s ->
            id o <> id l -> distance_le pt q clusterDistance = true ->
            o ∈ nearbyLocations s2).
  { intros o Ho Hq Hnp Hne Hd.
    eapply scan_joins; try eassumption. simpl. set_solver. }
  assert (Hseed : forall o, o ∈ locs -> id l = id o -> o ∈ nearbyLocations s2 /\ pt = q
            -> together a b s').
  { intros o Ho Heq [Hon Hptq]. subst pt.
    assert (Hd : distance_le q q clusterDistance = true) by now apply distance_le_self.
    apply Hboth.
    - destruct (decide (id a = id l)) as [Hal|Hal].
      + rewrite (id_inj locs a l distinct a_in Hl Hal), Hn. left.
      + now apply Hjoin.
    - destruct (decide (id b = id l)) as [Hbl|Hbl].
      + rewrite (id_inj locs b l distinct b_in Hl Hbl), Hn. left.
      + now apply Hjoin. }
  destruct (decide (id l = id a)) as [Hla|Hla].
  { apply (Hseed a a_in Hla). rewrite (id_inj locs l a distinct Hl a_in Hla) in *.
    split; [rewrite Hn; left|]. eapply projects_to_inj; eauto. }
  destruct (decide (id l = id b)) as [Hlb|Hlb].
  { apply (Hseed b b_in Hlb). rewrite (id_inj locs l b distinct Hl b_in Hlb) in *.
    split; [rewrite Hn; left|]. eapply projects_to_inj; eauto. }
  destruct (distance_le pt q clusterDistance) eqn:Hd.
  { apply Hboth; apply Hjoin; auto. }
  assert (Hout : forall o, o ∈ locs -> projects_to map o q -> id o ∉ processed s ->
            id o <> id l -> id o ∉ processed s').
  { intros o Ho Hq Hnp Hne. rewrite Hp. intros Hin'.
    apply elem_of_union in Hin' as [Hin'|Hin']; [|set_solver].
    apply elem_of_list_to_set, list_elem_of_fmap in Hin' as (o' & Heq & Ho').
    destruct (Hwithin o' Ho') as (Ho'l & p & Hp' & Hd').
    rewrite <- (id_inj locs o o' distinct Ho Ho'l Heq) in Hp'.
    rewrite (projects_to_inj _ _ _ _ Hp' Hq) in Hd'. congruence. }
  assert (Hna : id a ∉ processed s') by (apply Hout; auto).
  assert (Hnb : id b ∉ processed s') by (apply Hout; auto).
  split; [split; intros; contradiction|intros; contradiction].
Qed.

Lemma seeds_together xs : xs ⊆ locs -> forall s s',
  together a b s ->
  forEach xs (seedStep locs map clusterDistance) s = (inr tt, s') ->
  together a b s'.
Proof.
  induction xs as [|l xs IH]; intros Hsub s s' Ht H; simpl in H.
  { now inversion H; subst. }
  unfold bind at 1 in H.
  destruct (seedStep locs map clusterDistance l s) as [[e|[]] s1] eqn:Hl; [discriminate|].
  apply (IH ltac:(set_solver) s1 s'); [|assumption].
  eapply seed_together; [apply Hsub; left|eassumption|eassumption].
Qed.
End Colocated.

(** X14: two locations that the viewport puts on the same pixel are
    always members of one and the same cluster (identifiers distinct,
    threshold not negative). *)
Theorem colocated_locations_share_a_cluster (locs : list Location) (map : Map)
    (clusterDistance : Q) (a b : Location) (q : Point) (items : list Item) :
  NoDup (id <$> locs) -> a ∈ locs -> b ∈ locs -> a <> b ->
  projects_to map a q -> projects_to map b q ->
  0 <= clusterDistance ->
  fst (run (createClusters locs (Some map) clusterDistance)) = inr items ->
  exists c, c ∈ clustersOf items /\ a ∈ locations c /\ b ∈ locations c.
Proof.
  intros Hnd Ha Hb Hab Hqa Hqb Ht.
  destruct (run _) as [r s'] eqn:Hrun. simpl. intros ->.
  rewrite (createClusters_clusters _ _ _ _ _ Hrun).
  pose proof (createClusters_spec _ _ _ _ _ Hrun) as (_ & _ & _ & _ & Hall).
  apply createClusters_seeds in Hrun as (s1 & Hseeds & Hcs & Hps);
    [|intros ->; inversion Ha].
  apply (seeds_together locs map clusterDistance a b q Hnd Ha Hb Hab Hqa Hqb Ht locs)
    in Hseeds as [_ Hdone]; [|reflexivity|].
  - rewrite Hcs. apply Hdone. rewrite <- Hps. now apply Hall.
  - split; [simpl; set_solver|]. simpl. set_solver.
Qed.

(** ** The further theorems at concrete inputs *)

Lemma badges_are_bounded_witness :
  (sum_list (badge <$> clustersOf [ItemCluster sampleCluster])
   <= length [loc "A" 10 10; loc "B" 20 30])%nat /\
  (forall c, c ∈ clustersOf [ItemCluster sampleCluster] -> (2 <= badge c)%nat) /\
  (2 * length [ItemCluster sampleCluster] <= length [loc "A" 10 10; loc "B" 20 30])%nat.
Proof.
  apply (badges_are_bounded flatMap [loc "A" 10 10; loc "B" 20 30] 50).
  vm_compute. reflexivity.
Defined.

Lemma cluster_extent_witness :
  exists seed pt,
    head (locations sampleCluster) = Some seed /\ projects_to flatMap seed pt /\
    (forall m q, m ∈ locations sampleCluster -> projects_to flatMap m q ->
       (distanceTo pt q <= Q2R 50)%R) /\
    (forall m1 m2 q1 q2, m1 ∈ locations sampleCluster -> m2 ∈ locations sampleCluster ->
       projects_to flatMap m1 q1 -> projects_to flatMap m2 q2 ->
       (distanceTo q1 q2 <= 2 * Q2R 50)%R).
Proof.
  apply (cluster_extent [loc "A" 10 10; loc "B" 20 30] flatMap 50
           [ItemCluster sampleCluster] sampleCluster).
  - vm_compute. reflexivity.
  - left.
Defined.

Lemma projection_failure_only_witness :
  (exists items,
     fst (run (createClusters [loc "A" 10 10; loc "B" 20 30] (Some flatMap) 50))
     = inr items)
  <-> (forall l, l ∈ [loc "A" 10 10; loc "B" 20 30] -> exists q, projects_to flatMap l q).
Proof.
  apply (proj2 (projection_failure_only [loc "A" 10 10; loc "B" 20 30] flatMap 50)).
  compute_done.
Defined.

Lemma members_keep_input_order_witness :
  locations sampleCluster `sublist_of` [loc "A" 10 10; loc "B" 20 30].
Proof.
  apply (members_keep_input_order [loc "A" 10 10; loc "B" 20 30] flatMap 50
           [ItemCluster sampleCluster] sampleCluster).
  - vm_compute. reflexivity.
  - left.
Defined.

Lemma all_near_first_is_one_cluster_witness :
  exists c,
    fst (run (createClusters [loc "A" 10 10; loc "B" 20 30] (Some flatMap) 50))
    = inr [ItemCluster c] /\
    locations c = [loc "A" 10 10; loc "B" 20 30].
Proof.
  apply (all_near_first_is_one_cluster flatMap 50 (loc "A" 10 10) (loc "B" 20 30) []
           {| x := 10; y := 10 |}).
  - compute_done.
  - reflexivity.
  - intros o Ho. apply list_elem_of_singleton in Ho as ->.
    exists {| x := 30; y := 20 |}. split; [reflexivity|].
    apply distance_le_spec. reflexivity.
Defined.

Lemma filtered_order_witness :
  descending averageRating (filterLocations lowerCase sampleDetails sampleFilters) /\
  forall r, withKey averageRating r (filterLocations lowerCase sampleDetails sampleFilters)
            = withKey averageRating r
                (List.filter (passes lowerCase sampleFilters) sampleDetails).
Proof.
  apply (proj2 (filtered_order lowerCase sampleDetails sampleFilters) averageRating).
  reflexivity.
Defined.


Lemma fit_meets_cluster_icon_witness :
  fst (mapCenter (fitToLocations (filterLocations lowerCase sampleDetails sampleFilters)
                    sampleView))
  == fst (center sampleCluster) /\
  snd (mapCenter (fitToLocations (filterLocations lowerCase sampleDetails sampleFilters)
                    sampleView))
  == snd (center sampleCluster).
Proof.
  apply (fit_meets_cluster_icon [loc "A" 10 10; loc "B" 20 30] flatMap 50
           [ItemCluster sampleCluster] sampleCluster).
  - vm_compute. reflexivity.
  - left.
  - vm_compute. reflexivity.
Defined.

Lemma controls_round_trip_witness :
  filterLocations lowerCase sampleDetails
    (handleSearchChange sampleFilters (queryValue sampleFilters))
  = filterLocations lowerCase sampleDetails sampleFilters /\
  filterLocations lowerCase sampleDetails
    (handleCategoryChange sampleFilters (categoryValue sampleFilters))
  = filterLocations lowerCase sampleDetails sampleFilters /\
  filterLocations lowerCase sampleDetails
    (handleRatingChange sampleFilters (ratingValue sampleFilters))
  = filterLocations lowerCase sampleDetails sampleFilters.
Proof.
  apply (controls_round_trip lowerCase sampleDetails sampleFilters).
  discriminate.
Defined.

Lemma clustered_locations_pass_filters_witness :
  exists d, d ∈ sampleDetails /\ base d = loc "B" 20 30 /\
            passes lowerCase sampleFilters d = true.
Proof.
  apply (clustered_locations_pass_filters lowerCase sampleDetails sampleFilters
           (Some flatMap) 50 [ItemCluster sampleCluster] sampleCluster (loc "B" 20 30)).
  - vm_compute. reflexivity.
  - left.
  - right. left.
Defined.

Lemma colocated_locations_share_a_cluster_witness :
  exists c, c ∈ clustersOf colocatedItems /\
            loc "A" 0 0 ∈ locations c /\ loc "B" 0 0 ∈ locations c.
Proof.
  apply (colocated_locations_share_a_cluster [loc "A" 0 0; loc "B" 0 0] flatMap 50
           (loc "A" 0 0) (loc "B" 0 0) {| x := 0; y := 0 |} colocatedItems).
  - compute_done.
  - left.
  - right. left.
  - discriminate.
  - reflexivity.
  - reflexivity.
  - discriminate.
  - vm_compute. reflexivity.
Defined.

(** ** The group of a seed *)

Lemma distance2_sym p q : distance2 p q == distance2 q p.
Proof. unfold distance2. ring. Qed.

Lemma distance_le_sym p q t : distance_le p q t = true -> distance_le q p t = true.
Proof.
  unfold distance_le. rewrite !andb_true_iff, !Qle_bool_iff.
  intros [Ht Hd]. split; [assumption|]. now rewrite distance2_sym.
Qed.

Lemma follows_mono cs cs' x :
  (forall c, c ∈ cs -> c ∈ cs') -> follows cs x -> follows cs' x.
Proof. intros Hsub (c & h & rest & Hc & Hloc & Hx). exists c, h, rest. auto. Qed.

Lemma leads_mono cs cs' x y :
  (forall c, c ∈ cs -> c ∈ cs') -> leads cs x y -> leads cs' x y.
Proof. intros Hsub (c & Hc & Hh & Hy). exists c. auto. Qed.

Section Settled.
Variables (locs : list Location) (map : Map) (clusterDistance : Q).
Hypothesis distinct : NoDup (id <$> locs).

Lemma seed_settled l s s' :
  l ∈ locs -> settled locs map clusterDistance s ->
  seedStep locs map clusterDistance l s = (inr tt, s') ->
  settled locs map clusterDistance s'.
Proof.
  intros Hl [Hmem Hset] H.
  destruct (decide (id l ∈ processed s)) as [Hin|Hin].
  { rewrite seedStep_skip in H by assumption. inversion H; subst. now split. }
  destruct (latLngToContainerPoint map (latLng l)) as [e|pt] eqn:Hpt.
  { unfold seedStep in H. mstep. rewrite bool_decide_eq_false_2 in H by assumption.
    rewrite Hpt in H. discriminate. }
  destruct (seed_run locs map clusterDistance l pt s s' Hin Hpt H)
    as (s2 & added & Hscan & Hn & Hp & Hwithin & Hclose).
  assert (Hgrow : forall c, c ∈ clusters s -> c ∈ clusters s').
  { intros c Hc. destruct Hclose as [[_ ->]|[_ (c' & -> & _)]]; [assumption|].
    apply elem_of_app. now left. }
  assert (Hnew : added <> [] -> exists c, c ∈ clusters s' /\ locations c = l :: added).
  { intros Hne. destruct Hclose as [[-> _]|[_ (c & -> & Hloc)]]; [contradiction|].
    exists c. split; [apply elem_of_app; right; left|assumption]. }
  assert (Hcs : forall c, c ∈ clusters s' -> c ∈ clusters s \/ locations c = l :: added).
  { intros c Hc. destruct Hclose as [[_ Heq]|[_ (c' & Heq & Hloc)]]; rewrite Heq in Hc.
    - now left.
    - apply elem_of_app in Hc as [Hc|Hc]; [now left|].
      apply list_elem_of_singleton in Hc as ->. now right. }
  split.
  - intros c o Hc Ho. rewrite Hp. destruct (Hcs c Hc) as [Hold|Hloc].
    + specialize (Hmem c o Hold Ho). set_solver.
    + rewrite Hloc in Ho. apply elem_of_cons in Ho as [->|Ho]; [set_solver|].
      apply list_elem_of_fmap_2 with (f := id) in Ho. set_solver.
  - intros x Hx Hpx. destruct (decide (id x ∈ processed s)) as [Hold|Hfresh].
    { destruct (Hset x Hx Hold) as [Hf|Hd].
      - left. eapply follows_mono; eauto.
      - right. intros p y q Hxp Hy Hne Hyq Hd'.
        destruct (Hd p y q Hxp Hy Hne Hyq Hd') as [Hlead|Hfol].
        + left. eapply leads_mono; eauto.
        + right. eapply follows_mono; eauto. }
    rewrite Hp in Hpx.
    destruct (decide (id x = id l)) as [Heq|Hneq].
    + assert (x = l) by (eapply id_inj; eauto). subst x. right.
      intros p y q Hxp Hy Hne Hyq Hd.
      rewrite (projects_to_inj _ _ _ _ Hxp Hpt) in Hd.
      destruct (decide (id y ∈ processed s)) as [Hyold|Hynew].
      * destruct (Hset y Hy Hyold) as [Hf|Hdone].
        { right. eapply follows_mono; eauto. }
        exfalso. apply Hin.
        destruct (Hdone q l pt Hyq Hl (not_eq_sym Hne) Hpt (distance_le_sym _ _ _ Hd))
          as [(c & Hc & _ & Hlc)|(c & h & rest & Hc & Hloc & Hlr)].
        -- eapply Hmem; eauto.
        -- apply (Hmem c); [assumption|]. rewrite Hloc. now right.
      * left.
        assert (Hjoin : y ∈ nearbyLocations s2).
        { eapply scan_joins; try eassumption. simpl.
          assert (id y <> id l) by (intros Hid; apply Hne; eapply id_inj; eauto).
          set_solver. }
        rewrite Hn in Hjoin. apply elem_of_cons in Hjoin as [->|Hya]; [contradiction|].
        destruct Hnew as (c & Hc & Hloc); [intros ->; inversion Hya|].
        exists c. rewrite Hloc. split; [assumption|]. split; [reflexivity|now right].
    + left.
      assert (Hadded : id x ∈ (list_to_set (id <$> added) : gset string)) by set_solver.
      apply elem_of_list_to_set, list_elem_of_fmap in Hadded as (o & Hid & Ho).
      destruct (Hwithin o Ho) as [Hol _].
      assert (x = o) by (eapply id_inj; eauto). subst o.
      destruct Hnew as (c & Hc & Hloc); [intros ->; inversion Ho|].
      exists c, l, added. auto.
Qed.

Lemma seeds_settled xs : xs ⊆ locs -> forall s s',
  settled locs map clusterDistance s ->
  forEach xs (seedStep locs map clusterDistance) s = (inr tt, s') ->
  settled locs map clusterDistance s'.
Proof.
  induction xs as [|l xs IH]; intros Hsub s s' Hs H; simpl in H.
  { now inversion H; subst. }
  unfold bind at 1 in H.
  destruct (seedStep locs map clusterDistance l s) as [[e|[]] s1] eqn:Hl; [discriminate|].
  apply (IH ltac:(set_solver) s1 s'); [|assumption].
  eapply seed_settled; [apply Hsub; left|eassumption|eassumption].
Qed.

(** After a call that returns, every input location follows a seed or
    has been one, and a former seed has every location within range in
    its cluster, those apart that follow an earlier seed. *)
Lemma createClusters_settled items x :
  fst (run (createClusters locs (Some map) clusterDistance)) = inr items ->
  x ∈ locs ->
  follows (clustersOf items) x \/
  forall p y q,
    projects_to map x p -> y ∈ locs -> y <> x -> projects_to map y q ->
    distance_le p q clusterDistance = true ->
    leads (clustersOf items) x y \/ follows (clustersOf items) y.
Proof.
  destruct (run _) as [r s'] eqn:Hrun. simpl. intros -> Hx.
  rewrite (createClusters_clusters _ _ _ _ _ Hrun).
  pose proof (createClusters_spec _ _ _ _ _ Hrun) as (_ & _ & _ & _ & Hall).
  apply createClusters_seeds in Hrun as (s1 & Hseeds & Hcs & Hps);
    [|intros ->; inversion Hx].
  apply seeds_settled in Hseeds as [_ Hset]; [|reflexivity|].
  - rewrite Hcs. apply Hset; [assumption|]. rewrite <- Hps. now apply Hall.
  - split; [intros c l Hc; inversion Hc|]. intros y _ Hy. simpl in Hy. set_solver.
Qed.
End Settled.

Lemma memberIds_elem_of cs c l :
  c ∈ cs -> l ∈ locations c -> id l ∈ memberIds cs.
Proof.
  intros Hc Hl. unfold memberIds. apply list_elem_of_fmap_2.
  apply list_elem_of_In, in_concat. exists (locations c).
  split; apply list_elem_of_In; [now apply list_elem_of_fmap_2|assumption].
Qed.

(** A location is a member of one cluster at most. *)
Lemma member_unique pre c post l c' :
  NoDup (memberIds (pre ++ c :: post)) ->
  l ∈ locations c -> c' ∈ pre ++ post -> l ∉ locations c'.
Proof.
  intros Hnd Hl Hc' Hl'.
  rewrite memberIds_app in Hnd. apply NoDup_app in Hnd as (_ & Hdis & Hnd).
  change (c :: post) with ([c] ++ post) in Hnd, Hdis.
  rewrite memberIds_app, memberIds_singleton in Hnd, Hdis.
  apply NoDup_app in Hnd as (_ & Hdis' & _).
  assert (Hid : id l ∈ id <$> locations c) by now apply list_elem_of_fmap_2.
  apply elem_of_app in Hc' as [Hc'|Hc'].
  - apply (Hdis (id l)); [eapply memberIds_elem_of; eauto|].
    apply elem_of_app. now left.
  - apply (Hdis' (id l)); [assumption|]. eapply memberIds_elem_of; eauto.
Qed.

Lemma member_NoDup pre c post :
  NoDup (memberIds (pre ++ c :: post)) -> NoDup (id <$> locations c).
Proof.
  intros Hnd. rewrite memberIds_app in Hnd. apply NoDup_app in Hnd as (_ & _ & Hnd).
  change (c :: post) with ([c] ++ post) in Hnd.
  rewrite memberIds_app, memberIds_singleton in Hnd.
  now apply NoDup_app in Hnd as (Hnd & _).
Qed.

Lemma elem_of_middle {A} (pre post : list A) c c' :
  c' ∈ pre ++ c :: post -> c' = c \/ c' ∈ pre ++ post.
Proof. rewrite !elem_of_app, elem_of_cons. tauto. Qed.

(** C5: membership in a group is decided by the distance to the seed
    alone.  In the result of a call (identifiers distinct) a cluster
    is its seed followed by others, and an input location other than
    the seed is among them exactly when it is within [clusterDistance]
    pixels of the seed and a member of no other cluster; its distance
    to the other members plays no part.  So with S, P, Q on screen at
    (0,0), (10,0), (19,0) and threshold 10, P joins the group of the
    seed S and Q does not, although Q is within 9 pixels of the member
    P; Q is in no cluster of the result. *)
Theorem seed_only_membership :
  (forall (locs : list Location) (map : Map) (clusterDistance : Q) (items : list Item)
          (pre post : list ClusterGroup) (c : ClusterGroup),
     NoDup (id <$> locs) ->
     fst (run (createClusters locs (Some map) clusterDistance)) = inr items ->
     clustersOf items = pre ++ c :: post ->
     exists seed others pt,
       locations c = seed :: others /\ seed ∈ locs /\ projects_to map seed pt /\
       forall o q, o ∈ locs -> o <> seed -> projects_to map o q ->
         (o ∈ others <->
          (distanceTo pt q <= Q2R clusterDistance)%R /\
          forall c', c' ∈ pre ++ post -> o ∉ locations c')) /\
  (forall (locS locP locQ : Location) (map : Map),
     id locS <> id locP -> id locS <> id locQ -> id locP <> id locQ ->
     projects_to map locS {| x := 0; y := 0 |} ->
     projects_to map locP {| x := 10; y := 0 |} ->
     projects_to map locQ {| x := 19; y := 0 |} ->
     distance_le {| x := 10; y := 0 |} {| x := 19; y := 0 |} 9 = true /\
     exists c rest,
       fst (run (createClusters [locS; locP; locQ] (Some map) 10))
       = inr (ItemCluster c :: rest) /\
       locations c = [locS; locP] /\
       forall c', ItemCluster c' ∈ ItemCluster c :: rest -> locQ ∉ locations c').
Proof.
  split; [|apply seed_only_scenario].
  intros locs map t items pre post c Hnd Hrun Hsplit.
  pose proof (createClusters_clusters_ok _ _ _ _ Hrun) as (_ & Hok & Hmem).
  rewrite Hsplit in Hok, Hmem.
  assert (Hc : cluster_ok locs map t c).
  { rewrite Forall_forall in Hok. apply Hok. apply elem_of_app. right. left. }
  pose proof (member_NoDup _ _ _ Hmem) as Hcnd.
  destruct Hc as (seed & others & pt & ctr & Hloc & _ & Hseed & Hpt & Hall & _).
  exists seed, others, pt. do 3 (split; [assumption|]).
  intros o q Ho Hne Hq. split.
  - intros Hin. split.
    + destruct (Hall o Hin) as (_ & q' & Hq' & Hd).
      rewrite (projects_to_inj _ _ _ _ Hq Hq'). now apply distance_le_spec.
    + intros c' Hc'. eapply member_unique; [exact Hmem| |exact Hc'].
      rewrite Hloc. now right.
  - intros [Hd Hfree]. apply distance_le_spec in Hd.
    assert (Hhere : forall c', c' ∈ pre ++ c :: post -> o ∈ locations c' -> o ∈ others).
    { intros c' Hc' Hoc'. apply elem_of_middle in Hc' as [->|Hc'].
      - rewrite Hloc in Hoc'. apply elem_of_cons in Hoc' as [Hoc'|Hoc']; [contradiction|assumption].
      - now apply Hfree in Hc'. }
    destruct (createClusters_settled locs map t Hnd items seed Hrun Hseed) as [Hf|Hdone];
      rewrite Hsplit in *.
    + exfalso. destruct Hf as (c1 & h & rest & Hc1 & Hloc1 & Hin1).
      apply elem_of_middle in Hc1 as [->|Hc1].
      * rewrite Hloc in Hloc1. inversion Hloc1; subst h rest.
        rewrite Hloc, fmap_cons in Hcnd. apply NoDup_cons in Hcnd as [Hfresh _].
        apply Hfresh. now apply list_elem_of_fmap_2.
      * eapply (member_unique pre c post seed c1); [exact Hmem| |exact Hc1|].
        -- rewrite Hloc. left.
        -- rewrite Hloc1. now right.
    + destruct (Hdone pt o q Hpt Ho Hne Hq Hd)
        as [(c2 & Hc2 & _ & Hoc2)|(c2 & h & rest & Hc2 & Hloc2 & Hor)].
      * now apply (Hhere c2).
      * apply (Hhere c2); [assumption|]. rewrite Hloc2. now right.
Qed.

(** C6: the comparison with the threshold is inclusive.  In the result
    of a call (identifiers distinct), a location whose pixel distance
    to a seed is exactly [clusterDistance] is a member of the cluster
    that starts with the seed, unless the group of another seed has
    taken it; for the first location of the input, which is always a
    seed, that cluster is the first item of the result.  A location
    farther than [clusterDistance] from a seed is not a member of the
    cluster that starts with the seed.  ([seed] has been a seed when it
    is not a later member of any cluster.) *)
Theorem threshold_is_inclusive (locs : list Location) (map : Map) (clusterDistance : Q)
    (items : list Item) (seed o : Location) (p q : Point) :
  NoDup (id <$> locs) ->
  fst (run (createClusters locs (Some map) clusterDistance)) = inr items ->
  seed ∈ locs -> o ∈ locs -> o <> seed ->
  projects_to map seed p -> projects_to map o q ->
  (distanceTo p q = Q2R clusterDistance ->
   ((forall c, c ∈ clustersOf items -> seed ∈ locations c ->
               head (locations c) = Some seed) ->
    (exists c, c ∈ clustersOf items /\
               head (locations c) = Some seed /\ o ∈ locations c) \/
    (exists c other, c ∈ clustersOf items /\
               head (locations c) = Some other /\ other <> seed /\ other <> o /\
               o ∈ locations c)) /\
   (forall rest, locs = seed :: rest ->
      exists c more, items = ItemCluster c :: more /\
                     head (locations c) = Some seed /\ o ∈ locations c)) /\
  ((Q2R clusterDistance < distanceTo p q)%R ->
   forall c, c ∈ clustersOf items -> head (locations c) = Some seed -> o ∉ locations c).
Proof.
  intros Hnd Hrun Hseed Ho Hne Hp Hq.
  pose proof (createClusters_clusters_ok _ _ _ _ Hrun) as (Hitems & Hok & Hmem).
  rewrite Forall_forall in Hok.
  split; [intros Hdist; split|].
  - intros Hfirst.
    assert (Hd : distance_le p q clusterDistance = true).
    { apply distance_le_spec. rewrite Hdist. apply Rle_refl. }
    assert (Hcnd : forall c, c ∈ clustersOf items -> NoDup (id <$> locations c)).
    { intros c Hc. apply list_elem_of_split in Hc as (pre & post & Heq).
      rewrite Heq in Hmem. eapply member_NoDup; eauto. }
    destruct (createClusters_settled locs map clusterDistance Hnd items seed Hrun Hseed)
      as [(c & h & rest & Hc & Hloc & Hin)|Hdone].
    { exfalso. specialize (Hfirst c Hc). rewrite Hloc in Hfirst.
      specialize (Hfirst ltac:(now right)). inversion Hfirst; subst h.
      specialize (Hcnd c Hc). rewrite Hloc, fmap_cons in Hcnd.
      apply NoDup_cons in Hcnd as [Hfresh _]. apply Hfresh. now apply list_elem_of_fmap_2. }
    destruct (Hdone p o q Hp Ho Hne Hq Hd) as [Hlead|(c & h & rest & Hc & Hloc & Hin)].
    { now left. }
    destruct (decide (id h = id seed)) as [Heq|Hneq].
    + left. exists c. split; [assumption|]. rewrite Hloc. split; [|now right].
      simpl. f_equal. apply (id_inj locs h seed Hnd); [|assumption|assumption].
      apply (cluster_ok_members locs map clusterDistance c h (Hok c Hc)).
      rewrite Hloc. left.
    + right. exists c, h. rewrite Hloc. split; [assumption|]. split; [reflexivity|].
      split; [congruence|]. split; [|now right].
      intros ->. specialize (Hcnd c Hc). rewrite Hloc, fmap_cons in Hcnd.
      apply NoDup_cons in Hcnd as [Hfresh _]. apply Hfresh. now apply list_elem_of_fmap_2.
  - intros rest Hlocs.
    assert (Hd : distance_le p q clusterDistance = true).
    { apply distance_le_spec. rewrite Hdist. apply Rle_refl. }
    destruct (run _) as [r s'] eqn:Hres. simpl in Hrun. subst r.
    pose proof (createClusters_only_clusters _ _ _ _ _ Hres) as Hall.
    apply createClusters_seeds in Hres as (s1 & Hseeds & Hcs & _);
      [|intros ->; inversion Hseed].
    rewrite Hlocs in Hseeds at 1. simpl in Hseeds. unfold bind at 1 in Hseeds.
    destruct (seedStep locs map clusterDistance seed init) as [[e|[]] s0] eqn:Hs0;
      [discriminate|].
    destruct (seed_run locs map clusterDistance seed p init s0 ltac:(simpl; set_solver) Hp Hs0)
      as (s2 & added & Hscan & Hn & _ & _ & Hclose).
    assert (Hjoin : o ∈ nearbyLocations s2).
    { eapply scan_joins; try eassumption. simpl.
      assert (id o <> id seed)
        by (intros Hid; apply Hne; exact (id_inj locs o seed Hnd Ho Hseed Hid)).
      set_solver. }
    rewrite Hn in Hjoin. apply elem_of_cons in Hjoin as [Hjoin|Hjoin]; [contradiction|].
    destruct Hclose as [[-> _]|[_ (c & Hc0 & Hloc)]]; [inversion Hjoin|].
    apply seeds_spec in Hseeds as [(_ & _ & new & Hnew & _) _];
      [|rewrite Hlocs; set_solver].
    exists c, (ItemCluster <$> new).
    rewrite Hall, Hcs, Hnew, Hc0, Hloc. simpl.
    split; [reflexivity|]. split; [reflexivity|now right].
  - intros Hdist c Hc Hhead Hoc.
    destruct (Hok c Hc) as (seed' & others & pt & ctr & Hloc & _ & _ & Hpt & Hall & _).
    rewrite Hloc in Hhead, Hoc. inversion Hhead; subst seed'.
    apply elem_of_cons in Hoc as [Hoc|Hoc]; [contradiction|].
    destruct (Hall o Hoc) as (_ & q' & Hq' & Hd).
    rewrite (projects_to_inj _ _ _ _ Hp Hpt), (projects_to_inj _ _ _ _ Hq Hq') in Hdist.
    apply distance_le_spec in Hd. lra.
Qed.

(** ** The two theorems on membership at concrete inputs *)

Lemma distance_gt p q t : distance_le p q t = false -> (Q2R t < distanceTo p q)%R.
Proof.
  intros Hd. apply Rnot_le_lt. intros Hle. apply distance_le_spec in Hle. congruence.
Qed.

Lemma seed_only_membership_witness :
  (exists seed others pt,
     locations gapCluster = seed :: others /\
     seed ∈ [loc "S" 0 0; loc "P" 0 10; loc "Q" 0 19] /\
     projects_to flatMap seed pt /\
     forall o q, o ∈ [loc "S" 0 0; loc "P" 0 10; loc "Q" 0 19] -> o <> seed ->
       projects_to flatMap o q ->
       (o ∈ others <->
        (distanceTo pt q <= Q2R 10)%R /\
        forall c', c' ∈ [] ++ [] -> o ∉ locations c')) /\
  (distance_le {| x := 10; y := 0 |} {| x := 19; y := 0 |} 9 = true /\
   exists c rest,
     fst (run (createClusters [loc "S" 0 0; loc "P" 0 10; loc "Q" 0 19] (Some flatMap) 10))
     = inr (ItemCluster c :: rest) /\
     locations c = [loc "S" 0 0; loc "P" 0 10] /\
     forall c', ItemCluster c' ∈ ItemCluster c :: rest -> loc "Q" 0 19 ∉ locations c').
Proof.
  split.
  - apply (proj1 seed_only_membership [loc "S" 0 0; loc "P" 0 10; loc "Q" 0 19]
             flatMap 10 gapItems [] [] gapCluster).
    + compute_done.
    + vm_compute. reflexivity.
    + reflexivity.
  - apply (proj2 seed_only_membership (loc "S" 0 0) (loc "P" 0 10) (loc "Q" 0 19) flatMap);
      first [ discriminate | reflexivity ].
Defined.

Lemma threshold_is_inclusive_witness :
  (exists c more,
     boundaryItems = ItemCluster c :: more /\
     head (locations c) = Some (loc "A" 0 0) /\ loc "B" 0 10 ∈ locations c) /\
  (forall c, c ∈ clustersOf boundaryItems -> head (locations c) = Some (loc "A" 0 0) ->
             loc "C" 0 11 ∉ locations c).
Proof.
  split.
  - destruct (threshold_is_inclusive [loc "A" 0 0; loc "B" 0 10; loc "C" 0 11] flatMap 10
                boundaryItems (loc "A" 0 0) (loc "B" 0 10)
                {| x := 0; y := 0 |} {| x := 10; y := 0 |}) as [Hexact _].
    + compute_done.
    + vm_compute. reflexivity.
    + left.
    + right. left.
    + discriminate.
    + reflexivity.
    + reflexivity.
    + destruct (Hexact distanceTo_ten) as [_ Hfirst]. exact (Hfirst _ eq_refl).
  - destruct (threshold_is_inclusive [loc "A" 0 0; loc "B" 0 10; loc "C" 0 11] flatMap 10
                boundaryItems (loc "A" 0 0) (loc "C" 0 11)
                {| x := 0; y := 0 |} {| x := 11; y := 0 |}) as [_ Hfar].
    + compute_done.
    + vm_compute. reflexivity.
    + left.
    + right. right. left.
    + discriminate.
    + reflexivity.
    + reflexivity.
    + apply Hfar. apply distance_gt. reflexivity.
Defined.

(** ** The objects of a call *)

Lemma prefix_insert_ge {A} (l k : list A) a v :
  l `prefix_of` k -> (length l <= a)%nat -> l `prefix_of` <[a := v]> k.
Proof.
  intros [m ->] Hle. rewrite insert_app_r_alt by assumption. now apply prefix_app_r.
Qed.

Lemma prefix_preserved (h h' : list Heap.Obj) : h `prefix_of` h' -> preserved h h'.
Proof. intros Hpre a o Ha. eapply prefix_lookup_Some; eauto. Qed.

Lemma heap_bind_ret {A B} (m : Heap.H A) (k : A -> Heap.H B) h a h' :
  m h = (inr a, h') -> Heap.bind m k h = k a h'.
Proof. intros Heq. unfold Heap.bind. now rewrite Heq. Qed.

Lemma heap_bind_throw {A B} (m : Heap.H A) (k : A -> Heap.H B) h e h' :
  m h = (inl e, h') -> Heap.bind m k h = (inl e, h').
Proof. intros Heq. unfold Heap.bind. now rewrite Heq. Qed.

Lemma heap_bind_eq {A B} (m : Heap.H A) (k : A -> Heap.H B) h :
  Heap.bind m k h
  = match m h with
    | (inl e, h') => (inl e, h')
    | (inr a, h') => k a h'
    end.
Proof. reflexivity. Qed.

Lemma heap_load h a o : h !! a = Some o -> Heap.load a h = (inr o, h).
Proof. intros Ha. unfold Heap.load. now rewrite Ha. Qed.

Lemma heap_location h a l :
  h !! a = Some (Heap.OLocation l) -> Heap.location a h = (inr l, h).
Proof. intros Ha. unfold Heap.location, Heap.bind, Heap.load. now rewrite Ha. Qed.

Lemma heap_length h a elems :
  h !! a = Some (Heap.OArray elems) -> Heap.Array_length a h = (inr (length elems), h).
Proof. intros Ha. unfold Heap.Array_length, Heap.bind, Heap.load. now rewrite Ha. Qed.

Lemma heap_push h a elems v :
  h !! a = Some (Heap.OArray elems) ->
  Heap.Array_push a v h = (inr tt, <[a := Heap.OArray (elems ++ [v])]> h).
Proof. intros Ha. unfold Heap.Array_push, Heap.bind, Heap.load. now rewrite Ha. Qed.

Lemma heap_spread h a elems :
  h !! a = Some (Heap.OArray elems) ->
  Heap.Array_spread a h = (inr (length h), h ++ [Heap.OArray elems]).
Proof. intros Ha. unfold Heap.Array_spread, Heap.bind, Heap.load. now rewrite Ha. Qed.

Lemma heap_has h a ids i :
  h !! a = Some (Heap.OSet ids) -> Heap.Set_has a i h = (inr (bool_decide (i ∈ ids)), h).
Proof. intros Ha. unfold Heap.Set_has, Heap.bind, Heap.load. now rewrite Ha. Qed.

Lemma heap_add h a ids i :
  h !! a = Some (Heap.OSet ids) ->
  Heap.Set_add a i h = (inr tt, <[a := Heap.OSet ({[ i ]} ∪ ids)]> h).
Proof. intros Ha. unfold Heap.Set_add, Heap.bind, Heap.load. now rewrite Ha. Qed.

Lemma heap_latLngsOf h0 h refs ls :
  h0 `prefix_of` h -> locationsAt h0 refs ls ->
  Heap.latLngsOf refs h = (inr (latLng <$> ls), h).
Proof.
  intros Hpre Hall. induction Hall as [|r l refs ls Hr _ IH]; [reflexivity|].
  simpl. erewrite heap_bind_ret by (apply heap_location; eapply prefix_lookup_Some; eauto).
  erewrite heap_bind_ret by exact IH. reflexivity.
Qed.

Lemma heap_latLngs h0 h a refs ls :
  h0 `prefix_of` h -> h !! a = Some (Heap.OArray refs) -> locationsAt h0 refs ls ->
  Heap.Array_latLngs a h = (inr (latLng <$> ls), h).
Proof.
  intros Hpre Ha Hall. unfold Heap.Array_latLngs, Heap.bind, Heap.load. rewrite Ha.
  eapply heap_latLngsOf; eauto.
Qed.

(** A cluster stays what it is while the objects between [lo] and
    [hi] are left alone. *)
Lemma clusterAt_stable h0 lo hi hi' h h' cref c :
  clusterAt h0 lo hi h cref c ->
  (forall a, (lo < a < hi)%nat -> h' !! a = h !! a) -> (hi <= hi')%nat ->
  clusterAt h0 lo hi' h' cref c.
Proof.
  intros (members & mrefs & Hc & Hm & Hcl & Harr & Hls) Hsame Hle.
  exists members, mrefs. rewrite !Hsame by assumption.
  repeat split; try assumption; lia.
Qed.

Lemma localsAt_change h0 cr pr hi hi' s s' h h' :
  localsAt h0 cr pr hi s h ->
  h0 `prefix_of` h' ->
  (forall a, (pr < a < hi)%nat -> h' !! a = h !! a) ->
  h' !! cr = h !! cr ->
  h' !! pr = Some (Heap.OSet (processed s')) ->
  clusters s' = clusters s ->
  (hi <= hi')%nat -> (hi' <= length h')%nat ->
  localsAt h0 cr pr hi' s' h'.
Proof.
  intros (Hpre & Hcr & Hpr & Hhi & Hlen & Hset & crefs & Hcl & Hcs)
    Hpre' Hsame Hcr' Hpr' Hclusters Hle Hlen'.
  split; [assumption|]. do 2 (split; [assumption|]). split; [lia|]. split; [assumption|].
  split; [assumption|]. exists crefs. rewrite Hcr', Hclusters. split; [assumption|].
  eapply Forall2_impl; [exact Hcs|]. intros cref c Hc.
  eapply clusterAt_stable; eauto.
Qed.

(** [forEach] over the input array visits the objects of the input
    locations, whatever the callback allocates or writes elsewhere. *)
Lemma simulates_forRange h0 (R : Store -> list Heap.Obj -> Prop) xs refs
    (f : Location -> M unit) (fh : Heap.addr -> Heap.H unit) :
  h0 !! xs = Some (Heap.OArray refs) ->
  (forall s h, R s h -> h0 `prefix_of` h) ->
  (forall r l, h0 !! r = Some (Heap.OLocation l) -> simulates h0 R R (f l) (fh r)) ->
  forall suf lsuf, locationsAt h0 suf lsuf ->
  forall pre, refs = pre ++ suf ->
  simulates h0 R R (forEach lsuf f)
    (Heap.forRange
       (fun k =>
          Heap.bind (Heap.load xs) (fun o =>
          match o with
          | Heap.OArray elems =>
              match elems !! k with Some v => fh v | None => Heap.ret tt end
          | _ => Heap.throw (Error "TypeError")
          end))
       (length pre) (length suf)).
Proof.
  intros Hxs0 Hpre Hsim suf lsuf Hall.
  induction Hall as [|r l suf lsuf Hr _ IH]; intros pre Heq s h HR.
  { simpl. now split. }
  assert (Hxs : h !! xs = Some (Heap.OArray refs)) by (eapply prefix_lookup_Some; eauto).
  assert (Hk : refs !! length pre = Some r) by (rewrite Heq; now apply list_lookup_middle).
  cbn [forEach Heap.forRange length].
  unfold bind. rewrite heap_bind_eq, heap_bind_eq, (heap_load _ _ _ Hxs), Hk.
  specialize (Hsim r l Hr s h HR).
  destruct (f l s) as [[e|[]] s1], (fh r h) as [[e'|[]] h1];
    simpl in Hsim |- *; try contradiction; [assumption|].
  destruct Hsim as [_ HR1].
  specialize (IH (pre ++ [r])). rewrite length_app in IH. simpl in IH.
  replace (length pre + 1)%nat with (S (length pre)) in IH by lia.
  apply IH; [now rewrite <- app_assoc|assumption].
Qed.

Lemma simulates_forEach h0 (R : Store -> list Heap.Obj -> Prop) xs locs
    (f : Location -> M unit) (fh : Heap.addr -> Heap.H unit) :
  arrayAt h0 xs locs ->
  (forall s h, R s h -> h0 `prefix_of` h) ->
  (forall r l, h0 !! r = Some (Heap.OLocation l) -> simulates h0 R R (f l) (fh r)) ->
  simulates h0 R R (forEach locs f) (Heap.Array_forEach xs fh).
Proof.
  intros (refs & Hxs & Hall) Hpre Hsim s h HR.
  unfold Heap.Array_forEach.
  erewrite heap_bind_ret
    by (apply heap_length; eapply prefix_lookup_Some; [exact Hxs|eapply Hpre; eauto]).
  exact (simulates_forRange h0 R xs refs f fh Hxs Hpre Hsim refs locs Hall [] eq_refl s h HR).
Qed.

Lemma simulates_scanStep h0 map cr pr n pt t r l :
  h0 !! r = Some (Heap.OLocation l) ->
  simulates h0 (scanAt h0 cr pr n) (scanAt h0 cr pr n)
    (scanStep map pt t l) (Heap.scanStep map pr n pt t r).
Proof.
  intros Hr s h HR.
  pose proof HR as (Hloc & Hn & nrefs & Hnear & Hnl).
  pose proof Hloc as (Hpre & Hcr & Hpr & Hhi & Hlen & Hset & _).
  unfold Heap.scanStep.
  erewrite heap_bind_ret by (apply heap_location; eapply prefix_lookup_Some; eauto).
  erewrite heap_bind_ret by (apply heap_has; eassumption).
  destruct (decide (id l ∈ processed s)) as [Hin|Hin].
  { rewrite scanStep_skip, bool_decide_eq_true_2 by assumption. simpl. now split. }
  rewrite bool_decide_eq_false_2 by assumption.
  rewrite heap_bind_eq. unfold Heap.liftE.
  destruct (latLngToContainerPoint map (latLng l)) as [e|q] eqn:Hq.
  { unfold scanStep, bind, processed_has, project. cbn [fst snd].
    rewrite bool_decide_eq_false_2 by assumption. rewrite Hq. simpl. now split. }
  destruct (distance_le pt q t) eqn:Hd.
  - rewrite (scanStep_join map t pt l q s Hin Hq Hd).
    erewrite heap_bind_ret by (apply heap_push; eassumption).
    erewrite heap_add by (rewrite list_lookup_insert_ne by lia; eassumption).
    cbn [fst snd]. split; [reflexivity|].
    split; [|split].
    + eapply localsAt_change; [exact Hloc|..].
      * apply prefix_insert_ge; [apply prefix_insert_ge|]; [assumption|lia|lia].
      * intros a Ha. rewrite !list_lookup_insert_ne by lia. reflexivity.
      * rewrite !list_lookup_insert_ne by lia. reflexivity.
      * rewrite list_lookup_insert_eq by (rewrite length_insert; lia). reflexivity.
      * reflexivity.
      * lia.
      * rewrite !length_insert. lia.
    + rewrite !length_insert. lia.
    + exists (nrefs ++ [r]). split.
      * rewrite list_lookup_insert_ne by lia. now rewrite list_lookup_insert_eq by lia.
      * simpl. apply Forall2_app; [assumption|]. constructor; [assumption|constructor].
  - rewrite (scanStep_far map t pt l q s Hin Hq Hd). simpl. split; [reflexivity|].
    split; [|split; [assumption|]].
    + eapply localsAt_change; [exact Hloc|assumption|reflexivity|reflexivity|assumption|reflexivity|lia|lia].
    + exists nrefs. now split.
Qed.

Lemma closeGroup_eq s :
  closeGroup s
  = if (1 <? length (nearbyLocations s))%nat then
      match getCenter (newLatLngBounds (latLng <$> nearbyLocations s)) with
      | inl e => (inl e, s)
      | inr ctr =>
          (inr tt,
           {| clusters :=
                clusters s
                ++ [{| center := (lat ctr, lng ctr); locations := nearbyLocations s;
                       bounds := newLatLngBounds (latLng <$> nearbyLocations s) |}];
              processed := processed s; nearbyLocations := nearbyLocations s;
              result := result s; calls := calls s |})
      end
    else (inr tt, s).
Proof.
  unfold closeGroup, newCluster, bind, nearbyLocations_get, liftE, ret, clusters_push.
  destruct (1 <? length (nearbyLocations s))%nat; [|reflexivity].
  now destruct (getCenter _).
Qed.

Lemma simulates_closeGroup h0 cr pr n :
  simulates h0 (scanAt h0 cr pr n) (seedsAt h0 cr pr) closeGroup (Heap.closeGroup cr n).
Proof.
  intros s h HR.
  pose proof HR as (Hloc & Hn & nrefs & Hnear & Hnl).
  pose proof Hloc as (Hpre & Hcr & Hpr & Hhi & Hlen & Hset & crefs & Hcl & Hcs).
  unfold Heap.closeGroup.
  erewrite heap_bind_ret by (apply heap_length; eassumption).
  rewrite (Forall2_length _ _ _ Hnl).
  rewrite closeGroup_eq.
  destruct (1 <? length (nearbyLocations s))%nat.
  - erewrite heap_bind_ret by (eapply heap_latLngs; eauto).
    rewrite heap_bind_eq. unfold Heap.liftE.
    destruct (getCenter (newLatLngBounds (latLng <$> nearbyLocations s))) as [e|ctr].
    { simpl. now split. }
    rewrite heap_bind_eq. unfold Heap.alloc.
    erewrite heap_push by (rewrite lookup_app_l by lia; eassumption).
    cbn [fst snd]. split; [reflexivity|].
    assert (Hlen' : forall o v, length (<[cr := v]> (h ++ [o])) = S (length h)).
    { intros o v. rewrite length_insert, length_app. simpl. lia. }
    unfold seedsAt. rewrite Hlen'.
    split; [apply prefix_insert_ge; [now apply prefix_app_r|lia]|].
    do 2 (split; [assumption|]). split; [lia|]. split; [rewrite Hlen'; lia|].
    split; [rewrite list_lookup_insert_ne, lookup_app_l by lia; assumption|].
    exists (crefs ++ [length h]). split.
    { rewrite list_lookup_insert_eq; [reflexivity|]. rewrite length_app. simpl. lia. }
    cbn [clusters]. apply Forall2_app.
    + eapply Forall2_impl; [exact Hcs|]. intros cref c Hc.
      eapply clusterAt_stable; [exact Hc| |lia].
      intros a Ha. rewrite list_lookup_insert_ne, lookup_app_l by lia. reflexivity.
    + constructor; [|constructor]. exists n, nrefs. cbn [center bounds locations].
      split; [lia|]. split; [lia|]. split; [|split; [|assumption]].
      * rewrite list_lookup_insert_ne by lia. now apply list_lookup_middle.
      * rewrite list_lookup_insert_ne, lookup_app_l by lia. assumption.
  - simpl. split; [reflexivity|].
    eapply localsAt_change;
      [exact Hloc|assumption|reflexivity|reflexivity|assumption|reflexivity|lia|lia].
Qed.

Lemma simulates_bind {A B} h0 (R R1 R2 : Store -> list Heap.Obj -> Prop)
    (m : M A) (mh : Heap.H A) (k : A -> M B) (kh : A -> Heap.H B) :
  simulates h0 R R1 m mh -> (forall a, simulates h0 R1 R2 (k a) (kh a)) ->
  simulates h0 R R2 (bind m k) (Heap.bind mh kh).
Proof.
  intros Hm Hk s h HR. specialize (Hm s h HR). unfold bind. rewrite heap_bind_eq.
  destruct (m s) as [[e|a] s1], (mh h) as [[e'|a'] h1];
    simpl in Hm |- *; try contradiction; [assumption|].
  destruct Hm as [<- HR1]. now apply Hk.
Qed.

Lemma simulates_seedStep h0 xs locs map cr pr t r l :
  arrayAt h0 xs locs -> h0 !! r = Some (Heap.OLocation l) ->
  simulates h0 (seedsAt h0 cr pr) (seedsAt h0 cr pr)
    (seedStep locs map t l) (Heap.seedStep xs map cr pr t r).
Proof.
  intros Hxs Hr s h HR.
  pose proof HR as (Hpre & Hcr & Hpr & Hhi & Hlen & Hset & _).
  unfold Heap.seedStep.
  erewrite heap_bind_ret by (apply heap_location; eapply prefix_lookup_Some; eauto).
  erewrite heap_bind_ret by (apply heap_has; eassumption).
  destruct (decide (id l ∈ processed s)) as [Hin|Hin].
  { rewrite seedStep_skip, bool_decide_eq_true_2 by assumption. simpl. now split. }
  rewrite bool_decide_eq_false_2 by assumption.
  rewrite heap_bind_eq. unfold Heap.liftE.
  destruct (latLngToContainerPoint map (latLng l)) as [e|p] eqn:Hp.
  { unfold seedStep, bind, processed_has, project. cbn [fst snd].
    rewrite bool_decide_eq_false_2 by assumption. rewrite Hp. simpl. now split. }
  rewrite (seedStep_seed map t locs l p s Hin Hp).
  rewrite heap_bind_eq. unfold Heap.alloc.
  erewrite heap_bind_ret by (apply heap_add; rewrite lookup_app_l by lia; eassumption).
  apply (simulates_bind h0 (scanAt h0 cr pr (length h)) (scanAt h0 cr pr (length h))
           (seedsAt h0 cr pr)).
  - apply simulates_forEach; [assumption|now intros s1 h1 ((Hp1 & _) & _)|].
    intros r' l' Hr'. now apply simulates_scanStep.
  - intros _. apply simulates_closeGroup.
  - split; [|split].
    + eapply localsAt_change; [exact HR|..].
      * apply prefix_insert_ge; [now apply prefix_app_r|lia].
      * intros a Ha. rewrite list_lookup_insert_ne, lookup_app_l by lia. reflexivity.
      * rewrite list_lookup_insert_ne, lookup_app_l by lia. reflexivity.
      * rewrite list_lookup_insert_eq; [reflexivity|]. rewrite length_app. simpl. lia.
      * reflexivity.
      * lia.
      * rewrite length_insert, length_app. simpl. lia.
    + rewrite length_insert, length_app. simpl. lia.
    + exists [r]. split.
      * rewrite list_lookup_insert_ne by lia. now apply list_lookup_middle.
      * simpl. constructor; [assumption|constructor].
Qed.

Lemma simulates_emitStep h0 cr pr rr r l :
  h0 !! r = Some (Heap.OLocation l) ->
  simulates h0 (emitAt h0 cr pr rr) (emitAt h0 cr pr rr)
    (emitStep l) (Heap.emitStep pr rr r).
Proof.
  intros Hr s h HR.
  pose proof HR as (Hloc & Hrr & irefs & Hres & Hitems).
  pose proof Hloc as (Hpre & Hcr & Hpr & Hhi & Hlen & Hset & _).
  unfold Heap.emitStep.
  erewrite heap_bind_ret by (apply heap_location; eapply prefix_lookup_Some; eauto).
  erewrite heap_bind_ret by (apply heap_has; eassumption).
  destruct (decide (id l ∈ processed s)) as [Hin|Hin].
  { rewrite emitStep_skip, bool_decide_eq_true_2 by assumption. simpl. now split. }
  rewrite emitStep_push, bool_decide_eq_false_2 by assumption.
  cbn [negb]. erewrite heap_push by eassumption. cbn [fst snd]. split; [reflexivity|].
  assert (Hsame : forall a, (pr < a < rr)%nat ->
            <[rr := Heap.OArray (irefs ++ [r])]> h !! a = h !! a).
  { intros a Ha. now rewrite list_lookup_insert_ne by lia. }
  split; [|split].
  - eapply localsAt_change; [exact Hloc|..].
    + apply prefix_insert_ge; [assumption|lia].
    + exact Hsame.
    + now rewrite list_lookup_insert_ne by lia.
    + rewrite list_lookup_insert_ne by lia. assumption.
    + reflexivity.
    + lia.
    + rewrite length_insert. lia.
  - rewrite length_insert. lia.
  - exists (irefs ++ [r]). split; [now rewrite list_lookup_insert_eq by lia|].
    cbn [result]. apply Forall2_app.
    + eapply Forall2_impl; [exact Hitems|]. intros ref [c|l'] Hit; [|exact Hit].
      eapply clusterAt_stable; [exact Hit|exact Hsame|lia].
    + constructor; [exact Hr|constructor].
Qed.

Lemma clusterAt_itemAt h0 lo hi h r c :
  h0 `prefix_of` h -> clusterAt h0 lo hi h r c -> itemAt h r (ItemCluster c).
Proof.
  intros Hpre (members & mrefs & _ & _ & Hc & Hm & Hls).
  exists members. split; [assumption|]. exists mrefs. split; [assumption|].
  unfold locationsAt in *. eapply Forall2_impl; [exact Hls|].
  intros a l Ha. exact (prefix_lookup_Some _ _ _ _ Ha Hpre).
Qed.

(** The call on objects goes the way of the call on values: it throws
    the same exception, or it returns a reference to an array that
    holds the items the call on values returns; either way the objects
    it found are still in place. *)
Lemma heap_createClusters h0 xs locs map t s :
  arrayAt h0 xs locs ->
  h0 `prefix_of` snd (Heap.createClusters xs map t h0) /\
  match fst (createClusters locs map t s), fst (Heap.createClusters xs map t h0) with
  | inr items, inr a => itemsAt (snd (Heap.createClusters xs map t h0)) a items
  | inl e, inl e' => e = e'
  | _, _ => False
  end.
Proof.
  intros Hin. pose proof Hin as (refs & Hxs & Hall).
  assert (Hearly : itemsAt h0 xs (ItemLocation <$> locs)).
  { exists refs. split; [assumption|]. apply Forall2_fmap_r.
    eapply Forall2_impl; [exact Hall|]. now intros r l Hr. }
  destruct map as [map|]; [|now split].
  destruct (Heap.createClusters xs (Some map) t h0) as [rh h'] eqn:Hh.
  destruct (createClusters locs (Some map) t s) as [rv s'] eqn:Hv. cbn [fst snd].
  unfold Heap.createClusters in Hh.
  erewrite heap_bind_ret in Hh by (apply heap_length; eassumption).
  rewrite (Forall2_length _ _ _ Hall) in Hh. unfold createClusters in Hv.
  destruct (length locs =? 0)%nat.
  { inversion Hh; inversion Hv; subst. now split. }
  unfold bind at 1, clusters_new at 1 in Hv. unfold bind at 1, processed_new at 1 in Hv.
  cbn [clusters processed nearbyLocations result calls] in Hv.
  rewrite heap_bind_eq in Hh. unfold Heap.alloc at 1 in Hh.
  rewrite heap_bind_eq in Hh. unfold Heap.alloc at 1 in Hh.
  set (cr := length h0) in Hh. set (pr := length (h0 ++ [Heap.OArray []])) in Hh.
  assert (Hpr : pr = S cr) by (unfold pr, cr; rewrite length_app; simpl; lia).
  match type of Hv with bind _ _ ?s0 = _ => set (s1 := s0) in Hv end.
  match type of Hh with Heap.bind _ _ ?h0' = _ => set (h1 := h0') in Hh end.
  assert (HR1 : seedsAt h0 cr pr s1 h1).
  { unfold seedsAt, localsAt, h1. rewrite !length_app. simpl. fold cr.
    split; [now apply prefix_app_r, prefix_app_r|].
    split; [unfold cr; lia|]. split; [lia|]. split; [lia|]. split; [lia|].
    split; [now apply list_lookup_middle|].
    exists []. split; [|constructor].
    rewrite lookup_app_l by (rewrite length_app; simpl; unfold cr; lia).
    now apply list_lookup_middle. }
  pose proof (simulates_forEach h0 (seedsAt h0 cr pr) xs locs
                (seedStep locs map t) (Heap.seedStep xs map cr pr t) Hin
                (fun s h HR => proj1 HR)
                (fun r l Hr => simulates_seedStep h0 xs locs map cr pr t r l Hin Hr)
                s1 h1 HR1) as Hsim.
  unfold bind at 1 in Hv. rewrite heap_bind_eq in Hh.
  destruct (forEach locs (seedStep locs map t) s1) as [[e|[]] s2],
    (Heap.Array_forEach xs (Heap.seedStep xs map cr pr t) h1) as [[e'|[]] h2];
    simpl in Hsim; try contradiction.
  { inversion Hv; inversion Hh; subst. destruct Hsim. now split. }
  destruct Hsim as [_ HR2].
  pose proof HR2 as (Hpre2 & Hcr2 & Hpr2 & Hhi2 & Hlen2 & Hset2 & crefs & Hcl2 & Hcs2).
  unfold bind at 1, result_new at 1 in Hv.
  erewrite heap_bind_ret in Hh by (apply heap_spread; eassumption).
  cbn [clusters processed nearbyLocations result calls] in Hv.
  match type of Hv with bind _ _ ?s0 = _ => set (s3 := s0) in Hv end.
  set (rr := length h2) in *.
  match type of Hh with Heap.bind _ _ ?h0' = _ => set (h3 := h0') in Hh end.
  assert (HR3 : emitAt h0 cr pr rr s3 h3).
  { unfold h3. split; [|split].
    - eapply localsAt_change; [exact HR2|..].
      + now apply prefix_app_r.
      + intros a Ha. now rewrite lookup_app_l by (fold rr; lia).
      + rewrite lookup_app_l; [reflexivity|]. fold rr. lia.
      + rewrite lookup_app_l by (fold rr; lia). exact Hset2.
      + reflexivity.
      + fold rr. lia.
      + rewrite length_app. fold rr. lia.
    - rewrite length_app. simpl. fold rr. lia.
    - exists crefs. split; [now apply list_lookup_middle|].
      unfold s3. cbn [result]. apply Forall2_fmap_r.
      eapply Forall2_impl; [exact Hcs2|]. intros ref c Hc. simpl.
      eapply clusterAt_stable; [exact Hc| |fold rr; lia].
      intros a Ha. now rewrite lookup_app_l by lia. }
  pose proof (simulates_forEach h0 (emitAt h0 cr pr rr) xs locs
                emitStep (Heap.emitStep pr rr) Hin
                (fun s h HR => proj1 (proj1 HR))
                (fun r l Hr => simulates_emitStep h0 cr pr rr r l Hr)
                s3 h3 HR3) as Hsim.
  unfold bind at 1 in Hv. rewrite heap_bind_eq in Hh.
  destruct (forEach locs emitStep s3) as [[e|[]] s4],
    (Heap.Array_forEach xs (Heap.emitStep pr rr) h3) as [[e'|[]] h4];
    simpl in Hsim; try contradiction.
  { inversion Hv; inversion Hh; subst. destruct Hsim. now split. }
  destruct Hsim as [_ ((Hpre4 & _) & _ & irefs & Hres4 & Hitems4)].
  inversion Hv; inversion Hh; subst. split; [assumption|].
  exists irefs. split; [assumption|].
  eapply Forall2_impl; [exact Hitems4|]. intros ref [c|l] Hit.
  - eapply clusterAt_itemAt; eauto.
  - simpl in *. eapply prefix_lookup_Some; eauto.
Qed.

Lemma locationsAt_functional h refs ls ls' :
  locationsAt h refs ls -> locationsAt h refs ls' -> ls = ls'.
Proof.
  intros Hall. revert ls'. induction Hall as [|r l refs ls Hr _ IH]; intros ls' Hall'.
  - now inversion Hall'.
  - inversion Hall' as [|r' l' refs' ls'' Hr' Hrest]; subst.
    rewrite Hr in Hr'. inversion Hr'; subst. f_equal. now apply IH.
Qed.

Lemma itemAt_functional h r it it' : itemAt h r it -> itemAt h r it' -> it = it'.
Proof.
  destruct it as [c|l], it' as [c'|l']; simpl.
  - intros (m & Hc & refs & Hm & Hls) (m' & Hc' & refs' & Hm' & Hls').
    rewrite Hc in Hc'. inversion Hc'; subst m'.
    rewrite Hm in Hm'. inversion Hm'; subst refs'.
    pose proof (locationsAt_functional _ _ _ _ Hls Hls').
    destruct c, c'; simpl in *. congruence.
  - intros (m & Hc & _) Hl. congruence.
  - intros Hl (m & Hc & _). congruence.
  - congruence.
Qed.

(** A reference stands for one list of items at most. *)
Lemma itemsAt_functional h a items items' :
  itemsAt h a items -> itemsAt h a items' -> items = items'.
Proof.
  intros (refs & Ha & Hall) (refs' & Ha' & Hall').
  rewrite Ha in Ha'. inversion Ha'; subst refs'. clear Ha Ha'.
  revert items' Hall'. induction Hall as [|r it refs items Hr _ IH]; intros items' Hall'.
  - now inversion Hall'.
  - inversion Hall' as [|r' it' refs' items'' Hr' Hrest]; subst.
    f_equal; [eapply itemAt_functional; eauto|now apply IH].
Qed.

Lemma arrayAt_preserved h h' a ls : preserved h h' -> arrayAt h a ls -> arrayAt h' a ls.
Proof.
  intros Hkeep (refs & Ha & Hall). exists refs. split; [now apply Hkeep|].
  eapply Forall2_impl; [exact Hall|]. intros r l Hr. now apply Hkeep.
Qed.

(** C8: [createClusters] is a function of its inputs, and a call
    leaves the objects it finds as they are.
    On values: the value returned, or the exception thrown, is
    determined by the input list, the threshold and the pixel positions
    of the input points; it does not depend on the store the call
    starts from, so a repeated call returns the same.
    On objects: a call that is given a reference [xs] to an array of
    the locations [locs], in whatever heap [h0], changes or removes no
    object of [h0] (the input array, the [Location] objects and the
    objects of the rest of the program are as before, the call only
    adds objects), and the reference it returns points at the items
    that the call on values returns; the exception it throws is the
    same.  Hence two calls with the same input sequence, projection
    and threshold, from different heaps and through different
    references, have identical results. *)
Theorem createClusters_pure (locs : list Location) (map map' : Map)
    (handle : option Map) (clusterDistance : Q) (s s' : Store)
    (h0 : list Heap.Obj) (xs : Heap.addr) :
  (forall l, l ∈ locs ->
     latLngToContainerPoint map (latLng l) = latLngToContainerPoint map' (latLng l)) ->
  arrayAt h0 xs locs ->
  (fst (createClusters locs (Some map) clusterDistance s)
   = fst (createClusters locs (Some map') clusterDistance s') /\
   fst (createClusters locs handle clusterDistance s)
   = fst (createClusters locs handle clusterDistance s') /\
   fst (createClusters locs handle clusterDistance
          (snd (createClusters locs handle clusterDistance s)))
   = fst (createClusters locs handle clusterDistance s)) /\
  (let h' := snd (Heap.createClusters xs handle clusterDistance h0) in
   preserved h0 h' /\ h0 `prefix_of` h' /\ arrayAt h' xs locs /\
   (forall items,
      fst (createClusters locs handle clusterDistance s) = inr items ->
      exists a, fst (Heap.createClusters xs handle clusterDistance h0) = inr a /\
                itemsAt h' a items) /\
   (forall e,
      fst (createClusters locs handle clusterDistance s) = inl e ->
      fst (Heap.createClusters xs handle clusterDistance h0) = inl e)) /\
  (forall (h1 : list Heap.Obj) (xs1 : Heap.addr),
     arrayAt h1 xs1 locs ->
     match fst (Heap.createClusters xs handle clusterDistance h0),
           fst (Heap.createClusters xs1 handle clusterDistance h1) with
     | inr a, inr a1 =>
         forall items,
           itemsAt (snd (Heap.createClusters xs handle clusterDistance h0)) a items <->
           itemsAt (snd (Heap.createClusters xs1 handle clusterDistance h1)) a1 items
     | inl e, inl e1 => e = e1
     | _, _ => False
     end).
Proof.
  intros Hagree Hin.
  split; [exact (createClusters_same_value locs map map' handle clusterDistance s s' Hagree)|].
  pose proof (heap_createClusters h0 xs locs handle clusterDistance s Hin) as [Hpre Hsim].
  split.
  - cbn zeta. split; [now apply prefix_preserved|]. split; [assumption|].
    split; [eapply arrayAt_preserved; [apply prefix_preserved|]; eassumption|].
    split.
    + intros items Hv. rewrite Hv in Hsim.
      destruct (fst (Heap.createClusters xs handle clusterDistance h0)) as [e'|a];
        [contradiction|]. now exists a.
    + intros e Hv. rewrite Hv in Hsim.
      destruct (fst (Heap.createClusters xs handle clusterDistance h0)) as [e'|a];
        [congruence|contradiction].
  - intros h1 xs1 Hin1.
    pose proof (heap_createClusters h1 xs1 locs handle clusterDistance s Hin1) as [_ Hsim1].
    destruct (fst (createClusters locs handle clusterDistance s)) as [e|items],
      (fst (Heap.createClusters xs handle clusterDistance h0)) as [e0|a],
      (fst (Heap.createClusters xs1 handle clusterDistance h1)) as [e1|a1];
      try contradiction; [congruence|].
    intros items'. split; intros Hit.
    + now rewrite (itemsAt_functional _ _ _ _ Hit Hsim).
    + now rewrite (itemsAt_functional _ _ _ _ Hit Hsim1).
Qed.

Lemma createClusters_pure_witness :
  (fst (createClusters [loc "A" 0 0; loc "B" 0 10] (Some flatMap) 50 init)
   = fst (createClusters [loc "A" 0 0; loc "B" 0 10] (Some flatMap) 50 usedStore) /\
   fst (createClusters [loc "A" 0 0; loc "B" 0 10] (Some flatMap) 50 init)
   = fst (createClusters [loc "A" 0 0; loc "B" 0 10] (Some flatMap) 50 usedStore) /\
   fst (createClusters [loc "A" 0 0; loc "B" 0 10] (Some flatMap) 50
          (snd (createClusters [loc "A" 0 0; loc "B" 0 10] (Some flatMap) 50 init)))
   = fst (createClusters [loc "A" 0 0; loc "B" 0 10] (Some flatMap) 50 init)) /\
  (let h' := snd (Heap.createClusters 2%nat (Some flatMap) 50 sampleHeap) in
   preserved sampleHeap h' /\ sampleHeap `prefix_of` h' /\
   arrayAt h' 2%nat [loc "A" 0 0; loc "B" 0 10] /\
   (forall items,
      fst (createClusters [loc "A" 0 0; loc "B" 0 10] (Some flatMap) 50 init) = inr items ->
      exists a, fst (Heap.createClusters 2%nat (Some flatMap) 50 sampleHeap) = inr a /\
                itemsAt h' a items) /\
   (forall e,
      fst (createClusters [loc "A" 0 0; loc "B" 0 10] (Some flatMap) 50 init) = inl e ->
      fst (Heap.createClusters 2%nat (Some flatMap) 50 sampleHeap) = inl e)) /\
  (forall (h1 : list Heap.Obj) (xs1 : Heap.addr),
     arrayAt h1 xs1 [loc "A" 0 0; loc "B" 0 10] ->
     match fst (Heap.createClusters 2%nat (Some flatMap) 50 sampleHeap),
           fst (Heap.createClusters xs1 (Some flatMap) 50 h1) with
     | inr a, inr a1 =>
         forall items,
           itemsAt (snd (Heap.createClusters 2%nat (Some flatMap) 50 sampleHeap)) a items <->
           itemsAt (snd (Heap.createClusters xs1 (Some flatMap) 50 h1)) a1 items
     | inl e, inl e1 => e = e1
     | _, _ => False
     end).
Proof.
  apply (createClusters_pure [loc "A" 0 0; loc "B" 0 10] flatMap flatMap
           (Some flatMap) 50 init usedStore sampleHeap 2%nat).
  - intros l _. reflexivity.
  - exists [0%nat; 1%nat]. split; [reflexivity|]. repeat constructor.
Defined.
